(** * futarigurashi: the build scripts, embedded and verified

    A shallow embedding of the pure parts of
    - [scripts/build-from-markdown.js] (the post reconciler, the paginator),
    - [scripts/import-wp.js] (the category tree builder, the paginator),
    - [scripts/rewrite-wp-links.js] (the legacy permalink resolver),
    - [writer-server.js] (the identifier normalizer),
    followed by the properties the specification states about them.

    JavaScript strings are sequences of UTF-16 code units and the regular
    expressions of the scripts carry no [u] flag, so they work unit by unit:
    a string is a [list N] of code units here. *)

From stdpp Require Import gmap strings list.
From Stdlib Require Import ZArith NArith Lia Ascii DecimalString.
From Stdlib Require DecimalN DecimalPos.
From Stdlib Require Import Sorted.

Open Scope N_scope.

(** ** JavaScript strings *)

Abbreviation jsstring := (list N).

Fixpoint js (s : string) : jsstring :=
  match s with
  | EmptyString => []
  | String a s' => N_of_ascii a :: js s'
  end.

(** [\s] of a regular expression, which is also the set [String.prototype.trim]
    strips: WhiteSpace and LineTerminator of ECMA-262. *)
Definition is_space (c : N) : bool :=
  ((9 <=? c) && (c <=? 13)) || (c =? 32) || (c =? 0xa0) || (c =? 0x1680)
  || ((0x2000 <=? c) && (c <=? 0x200a)) || (c =? 0x2028) || (c =? 0x2029)
  || (c =? 0x202f) || (c =? 0x205f) || (c =? 0x3000) || (c =? 0xfeff).

(** [\d] *)
Definition is_digit (c : N) : bool := (48 <=? c) && (c <=? 57).

(** [\w]: [A-Za-z0-9_] *)
Definition is_word (c : N) : bool :=
  is_digit c || ((65 <=? c) && (c <=? 90)) || (c =? 95)
  || ((97 <=? c) && (c <=? 122)).

Definition hyphen : N := 45.
Definition is_hyphen (c : N) : bool := c =? hyphen.

(** The class [[\w\u3040-\u309f\u30a0-\u30ff\u4e00-\u9faf-]] that [slugify]
    keeps. *)
Definition slug_char (c : N) : bool :=
  is_word c || ((0x3040 <=? c) && (c <=? 0x309f))
  || ((0x30a0 <=? c) && (c <=? 0x30ff))
  || ((0x4e00 <=? c) && (c <=? 0x9faf)) || is_hyphen c.

Fixpoint drop_while (p : N → bool) (s : jsstring) : jsstring :=
  match s with
  | [] => []
  | c :: s' => if p c then drop_while p s' else s
  end.

(** [s.trim()], also [s.replace(/^\s+|\s+$/g, '')] *)
Definition trimStart (s : jsstring) : jsstring := drop_while is_space s.
Definition trimEnd (s : jsstring) : jsstring := rev (drop_while is_space (rev s)).
Definition trim (s : jsstring) : jsstring := trimEnd (trimStart s).

(** [s.replace(/[p]+/g, r)]: every maximal run of units in the class [p]
    becomes one copy of [r].  [in_run] tells that the unit before was in the
    class, so the run's replacement is already written. *)
Fixpoint replace_runs_from (p : N → bool) (r : jsstring) (in_run : bool)
    (s : jsstring) : jsstring :=
  match s with
  | [] => []
  | c :: s' =>
      if p c then (if in_run then [] else r) ++ replace_runs_from p r true s'
      else c :: replace_runs_from p r false s'
  end.

Definition replace_runs (p : N → bool) (r : jsstring) (s : jsstring) : jsstring :=
  replace_runs_from p r false s.

(** [s.replace(/c/g, r)] for one code unit [c] *)
Definition replace_unit (c : N) (r : jsstring) (s : jsstring) : jsstring :=
  flat_map (λ x, if x =? c then r else [x]) s.

(** [a || b] on strings: the empty string is falsy. *)
Definition or_else (a b : jsstring) : jsstring :=
  match a with [] => b | _ => a end.

(** [s.startsWith(t)] *)
Fixpoint startsWith (s t : jsstring) : bool :=
  match t, s with
  | [], _ => true
  | _ :: _, [] => false
  | b :: t', a :: s' => (a =? b) && startsWith s' t'
  end.

(** [s.endsWith(t)] *)
Definition endsWith (s t : jsstring) : bool := startsWith (rev s) (rev t).

(** [s.includes(t)] *)
Fixpoint includes (s t : jsstring) : bool :=
  startsWith s t || match s with [] => false | _ :: s' => includes s' t end.

Definition str_eqb (s t : jsstring) : bool := bool_decide (s = t).

(** ** Identifier normalizer *)

(** [slugify] of build-from-markdown.js and import-wp.js:
<<
  str.trim().replace(/\s+/g, '-')
     .replace(/[^\w\u3040-\u309f\u30a0-\u30ff\u4e00-\u9faf-]/g, '')
     .replace(/-+/g, '-').slice(0, 80) || 'post'
>> *)
Definition slugify (str : jsstring) : jsstring :=
  or_else
    (take 80
       (replace_runs is_hyphen [hyphen]
          (filter (λ c, slug_char c = true)
             (replace_runs is_space [hyphen] (trim str)))))
    (js "post").

(** [slugify] of writer-server.js starts from [String(str || '')]; its
    argument is a string or missing ([undefined], [null]). *)
Definition slugify_writer (str : option jsstring) : jsstring :=
  slugify (default [] str).

(** [categorySlug] of import-wp.js: [slugify(name) || 'category'] *)
Definition categorySlug (name : jsstring) : jsstring :=
  or_else (slugify name) (js "category").

(** ** JavaScript [Map] and [Set]

    Both iterate in insertion order, and the scripts iterate over them, so a
    [Map] is an association list in which [set] overwrites in place and
    appends a new key at the end; a [Set] is a list without repetition. *)

Fixpoint map_set {V} (k : jsstring) (v : V) (m : list (jsstring * V))
    : list (jsstring * V) :=
  match m with
  | [] => [(k, v)]
  | (k', v') :: m' =>
      if bool_decide (k' = k) then (k, v) :: m' else (k', v') :: map_set k v m'
  end.

Fixpoint map_get {V} (k : jsstring) (m : list (jsstring * V)) : option V :=
  match m with
  | [] => None
  | (k', v') :: m' => if bool_decide (k' = k) then Some v' else map_get k m'
  end.

(** [new Map(entries)] *)
Definition map_of {V} (entries : list (jsstring * V)) : list (jsstring * V) :=
  foldl (λ m e, map_set e.1 e.2 m) [] entries.

Definition set_has (x : jsstring) (s : list jsstring) : bool := bool_decide (x ∈ s).

Definition set_add (x : jsstring) (s : list jsstring) : list jsstring :=
  if set_has x s then s else s ++ [x].

(** [arr.join(sep)] *)
Fixpoint join (sep : jsstring) (arr : list jsstring) : jsstring :=
  match arr with
  | [] => []
  | [x] => x
  | x :: arr' => x ++ sep ++ join sep arr'
  end.

(** [s < t] on strings: code unit by code unit. *)
Fixpoint str_ltb (s t : jsstring) : bool :=
  match s, t with
  | _, [] => false
  | [], _ :: _ => true
  | a :: s', b :: t' => (a <? b) || ((a =? b) && str_ltb s' t')
  end.

(** A stable sort by insertion.  [before y x] is "the comparator puts [y]
    strictly before [x]"; an element passes only those that must precede it,
    so elements the comparator does not tell apart keep their order.  Every
    stable sort gives this list when the comparator is a consistent ordering,
    which is what [Array.prototype.sort] requires of it. *)
Fixpoint sort_insert {A} (before : A → A → bool) (x : A) (l : list A) : list A :=
  match l with
  | [] => [x]
  | y :: l' => if before y x then y :: sort_insert before x l' else x :: l
  end.

Definition stable_sort {A} (before : A → A → bool) (l : list A) : list A :=
  foldr (sort_insert before) [] l.

(** ** Paginator *)

Inductive pageItem := Page (n : Z) | Ellipsis.

Global Instance pageItem_eq_dec : EqDecision pageItem.
Proof. solve_decision. Defined.

(** [getPageNumbers] of build-from-markdown.js and import-wp.js (the two
    copies are the same text).  The loop
    [for (let i = left; i <= right; i++) out.push(i)] pushes the pages from
    [left] to [right], none when [right < left]. *)
Definition getPageNumbers (current total : Z) : list pageItem :=
  if (total <=? 1)%Z then [Page 1]
  else
    let windowSize := 2%Z in
    let left := Z.max 2 (current - windowSize) in
    let right := Z.min (total - 1) (current + windowSize) in
    [Page 1]
    ++ (if (left >? 2)%Z then [Ellipsis] else [])
    ++ (Page <$> seqZ left (right - left + 1))
    ++ (if (right <? total - 1)%Z then [Ellipsis] else [])
    ++ (if (total >? 1)%Z then [Page total] else []).

Definition PER_PAGE : Z := 10.

(** [Math.ceil(n / d)] for an array length [n] and [d = PER_PAGE]: lengths are
    below 2^32, where the double quotient rounds to no integer it is not, so
    the ceiling is the exact one. *)
Definition ceil_div (n d : Z) : Z :=
  (if n mod d =? 0 then n / d else n / d + 1)%Z.

(** Main listing, both scripts:
    [const totalPages = Math.ceil(postsData.length / PER_PAGE)] *)
Definition totalPages {A} (postsData : list A) : Z :=
  ceil_div (Z.of_nat (length postsData)) PER_PAGE.

(** Category listing, import-wp.js:
    [Math.max(1, Math.ceil(catPosts.length / PER_PAGE))] *)
Definition totalCatPages {A} (catPosts : list A) : Z :=
  Z.max 1 (ceil_div (Z.of_nat (length catPosts)) PER_PAGE).

(** ** Category tree builder (import-wp.js) *)

(** One [wp:category] element of the export: the three texts the script
    reads from it, [None] where the element has none. *)
Record wp_category := {
  wp_category_nicename : option jsstring;
  wp_cat_name : option jsstring;
  wp_category_parent : option jsstring
}.

(** [textOf(node)]: the trimmed text, [''] for a missing node. *)
Definition textOf (node : option jsstring) : jsstring :=
  match node with
  | None => []
  | Some s => trim s
  end.

Record cat_info := { name : jsstring; parentNicename : option jsstring }.

Abbreviation cat_map := (list (jsstring * cat_info)).

(** The [forEach] that fills [catByNicename]:
<<
  const nicename = textOf(c['wp:category_nicename']).trim();
  const name = textOf(c['wp:cat_name']).trim();
  const parent = textOf(c['wp:category_parent']).trim();
  if (name) catByNicename.set(nicename, { name, parentNicename: parent || null });
>> *)
Definition catByNicename (wpCategories : list wp_category) : cat_map :=
  foldl
    (λ m c,
       let nicename := trim (textOf (wp_category_nicename c)) in
       let name := trim (textOf (wp_cat_name c)) in
       let parent := trim (textOf (wp_category_parent c)) in
       match name with
       | [] => m
       | _ => map_set nicename
                {| name := name;
                   parentNicename := match parent with [] => None | _ => Some parent end |}
                m
       end)
    [] wpCategories.

(** [!v.parentNicename] *)
Definition no_parent (v : cat_info) : bool :=
  match parentNicename v with
  | None | Some [] => true
  | Some _ => false
  end.

Definition topLevelNicenames (cats : cat_map) : list jsstring :=
  (filter (λ e, no_parent e.2 = true) cats).*1.

(** [v.parentNicename === n] *)
Definition has_parent (n : jsstring) (v : cat_info) : bool :=
  bool_decide (parentNicename v = Some n).

(** The children [add] walks: the keys whose value has parent [n]. *)
Definition children (cats : cat_map) (n : jsstring) : list jsstring :=
  (filter (λ e, has_parent n e.2 = true) cats).*1.

(** The inner [add] of [getDescendantNames].  The script recurses without a
    bound; [fuel] bounds the depth of the recursion here and [None] is "the
    bound was reached".  [names] is the [Set] the calls share. *)
Fixpoint add (fuel : nat) (cats : cat_map) (n : jsstring) (names : list jsstring)
    : option (list jsstring) :=
  match fuel with
  | O => None
  | S fuel' =>
      match map_get n cats with
      | None => Some names
      | Some info =>
          foldl
            (λ acc child,
               match acc with
               | None => None
               | Some names' => add fuel' cats child names'
               end)
            (Some (set_add (name info) names))
            (children cats n)
      end
  end.

Definition getDescendantNames (fuel : nat) (cats : cat_map) (nicename : jsstring)
    : option (list jsstring) :=
  add fuel cats nicename [].

(** [name && name !== 'Uncategorized'] *)
Definition listed_name (name : jsstring) : bool :=
  match name with
  | [] => false
  | _ => negb (str_eqb name (js "Uncategorized"))
  end.

Definition topLevelCats (cats : cat_map) : list jsstring :=
  stable_sort str_ltb
    (filter (λ name, listed_name name = true)
       (omap (λ n, name <$> map_get n cats) (topLevelNicenames cats))).

(** [for (const [nicename, v] of catByNicename)
       if (v.name) nameToNicename.set(v.name, nicename)] *)
Definition nameToNicename (cats : cat_map) : list (jsstring * jsstring) :=
  foldl
    (λ m e, match name e.2 with [] => m | _ => map_set (name e.2) e.1 m end)
    [] cats.

Record cat_child := { child_nicename : jsstring; child_name : jsstring }.

Definition getDirectChildren (cats : cat_map) (parentNicename : jsstring)
    : list cat_child :=
  (λ e, {| child_nicename := e.1; child_name := name e.2 |})
  <$> filter (λ e, has_parent parentNicename e.2 = true) cats.

Record cat_slug := { nicename : jsstring; cat_name : jsstring; slug : jsstring }.

(** [addCategoryWithPath]; the array [allCategoriesWithSlug] it pushes to is
    threaded through as [out], and [fuel] bounds the recursion as in [add]. *)
Fixpoint addCategoryWithPath (fuel : nat) (cats : cat_map) (nicename : jsstring)
    (pathNames : list jsstring) (out : list cat_slug) : option (list cat_slug) :=
  match fuel with
  | O => None
  | S fuel' =>
      match map_get nicename cats with
      | None => Some out
      | Some info =>
          match name info with
          | [] => Some out
          | _ =>
              let path := pathNames ++ [name info] in
              let slug := join [hyphen] (categorySlug <$> path) in
              foldl
                (λ acc c,
                   match acc with
                   | None => None
                   | Some out' =>
                       addCategoryWithPath fuel' cats (child_nicename c) path out'
                   end)
                (Some (out ++ [{| nicename := nicename; cat_name := name info;
                                  slug := slug |}]))
                (getDirectChildren cats nicename)
          end
      end
  end.

(** [topLevelCats.forEach((name) => { const nicename = nameToNicename.get(name);
      if (nicename) addCategoryWithPath(nicename, []); })] *)
Definition allCategoriesWithSlug (fuel : nat) (cats : cat_map)
    : option (list cat_slug) :=
  foldl
    (λ acc name,
       match acc with
       | None => None
       | Some out =>
           match map_get name (nameToNicename cats) with
           | None | Some [] => Some out
           | Some nicename => addCategoryWithPath fuel cats nicename [] out
           end
       end)
    (Some []) (topLevelCats cats).

(** ** Legacy identifier resolver (rewrite-wp-links.js) *)

(** [s.split(sep)] for a separator of one code unit. *)
Fixpoint split_on (sep : N) (s : jsstring) : list jsstring :=
  match s with
  | [] => [[]]
  | c :: s' =>
      if c =? sep then [] :: split_on sep s'
      else match split_on sep s' with
           | [] => [[c]]
           | x :: xs => (c :: x) :: xs
           end
  end.

(** [arr.filter(Boolean)] on strings *)
Definition filter_Boolean (arr : list jsstring) : list jsstring :=
  filter (λ x, x ≠ []) arr.

Definition hex_val (c : N) : option N :=
  if is_digit c then Some (c - 48)
  else if (65 <=? c) && (c <=? 70) then Some (c - 55)
  else if (97 <=? c) && (c <=? 102) then Some (c - 87)
  else None.

(** A string seen by [Decode] of ECMA-262: plain units and [%XX] octets. *)
Inductive uri_token := Unit (c : N) | Octet (b : N).

(** [None] is the [URIError] for a [%] without two hexadecimal digits. *)
Fixpoint uri_tokens (s : jsstring) : option (list uri_token) :=
  match s with
  | [] => Some []
  | c :: s1 =>
      if c =? 37 then
        match s1 with
        | h :: s2 =>
            match s2 with
            | l :: s3 =>
                match hex_val h, hex_val l, uri_tokens s3 with
                | Some hi, Some lo, Some ts => Some (Octet (hi * 16 + lo) :: ts)
                | _, _, _ => None
                end
            | [] => None
            end
        | [] => None
        end
      else cons (Unit c) <$> uri_tokens s1
  end.

(** The continuation octets [10xxxxxx] carry six bits each. *)
Definition continuation (t : uri_token) : option N :=
  match t with
  | Octet b => if (0x80 <=? b) && (b <=? 0xbf) then Some (b - 0x80) else None
  | Unit _ => None
  end.

(** [UTF16EncodeCodePoint] *)
Definition utf16 (cp : N) : jsstring :=
  if cp <? 0x10000 then [cp]
  else [0xd800 + (cp - 0x10000) / 0x400; 0xdc00 + (cp - 0x10000) mod 0x400].

(** The octets of one escape sequence must be the UTF-8 encoding of a code
    point: shortest form, no surrogate, at most U+10FFFF. *)
Fixpoint utf8_decode (ts : list uri_token) : option jsstring :=
  match ts with
  | [] => Some []
  | Unit c :: ts1 => cons c <$> utf8_decode ts1
  | Octet b :: ts1 =>
      if b <? 0x80 then cons b <$> utf8_decode ts1
      else if (0xc0 <=? b) && (b <? 0xe0) then
        match ts1 with
        | t1 :: ts2 =>
            match continuation t1, utf8_decode ts2 with
            | Some c1, Some r =>
                let cp := (b - 0xc0) * 0x40 + c1 in
                if 0x80 <=? cp then Some (utf16 cp ++ r) else None
            | _, _ => None
            end
        | [] => None
        end
      else if (0xe0 <=? b) && (b <? 0xf0) then
        match ts1 with
        | t1 :: ts2 =>
            match ts2 with
            | t2 :: ts3 =>
                match continuation t1, continuation t2, utf8_decode ts3 with
                | Some c1, Some c2, Some r =>
                    let cp := (b - 0xe0) * 0x1000 + c1 * 0x40 + c2 in
                    if (0x800 <=? cp) && negb ((0xd800 <=? cp) && (cp <=? 0xdfff))
                    then Some (utf16 cp ++ r) else None
                | _, _, _ => None
                end
            | [] => None
            end
        | [] => None
        end
      else if (0xf0 <=? b) && (b <? 0xf8) then
        match ts1 with
        | t1 :: ts2 =>
            match ts2 with
            | t2 :: ts3 =>
                match ts3 with
                | t3 :: ts4 =>
                    match continuation t1, continuation t2, continuation t3,
                          utf8_decode ts4 with
                    | Some c1, Some c2, Some c3, Some r =>
                        let cp := (b - 0xf0) * 0x40000 + c1 * 0x1000 + c2 * 0x40 + c3 in
                        if (0x10000 <=? cp) && (cp <=? 0x10ffff)
                        then Some (utf16 cp ++ r) else None
                    | _, _, _, _ => None
                    end
                | [] => None
                end
            | [] => None
            end
        | [] => None
        end
      else None
  end.

(** [decodeURIComponent(s)]; [None] is the [URIError] it throws. *)
Definition decodeURIComponent (s : jsstring) : option jsstring :=
  uri_tokens s ≫= utf8_decode.

Definition slash : N := 47.
Definition wave_dash_fullwidth : N := 0xff5e.
Definition wave_dash : N := 0x301c.
Definition ideographic_comma : N := 0x3001.

(** [postSlugFromWpPath]; [None] is [null]. *)
Definition postSlugFromWpPath (wpPath : jsstring) : option jsstring :=
  let segments := filter_Boolean (split_on slash wpPath) in
  match segments with
  | y :: m :: second :: _ =>
      if negb (length y =? 4)%nat || negb (length m =? 2)%nat then None
      else
        let postSegmentIndex :=
          if (length second =? 2)%nat && forallb is_digit second then 3%nat
          else 2%nat in
        match segments !! postSegmentIndex with
        | None | Some [] => None
        | Some raw =>
            match decodeURIComponent raw with
            | Some decoded =>
                Some (trim (replace_runs is_space [hyphen]
                              (replace_unit wave_dash_fullwidth [hyphen] decoded)))
            | None => Some (trim (replace_unit wave_dash_fullwidth [hyphen] raw))
            end
        end
  | _ => None
  end.

(** [s.replace(/[！-～]/g, (c) => String.fromCharCode(c.codePointAt(0) - 0xfee0))] *)
Definition narrow (lo hi : N) (s : jsstring) : jsstring :=
  (λ c, if (lo <=? c) && (c <=? hi) then c - 0xfee0 else c) <$> s.

(** [normalizeForMatch], replacement by replacement. *)
Definition normalizeForMatch (s : jsstring) : jsstring :=
  let s := replace_unit wave_dash_fullwidth [hyphen] s in
  let s := replace_unit wave_dash [hyphen] s in
  let s := replace_unit ideographic_comma [hyphen] s in
  let s := narrow 0xff01 0xff5e s in
  let s := narrow 0xff10 0xff19 s in
  let s := replace_unit 0x2460 (js "1") s in
  let s := replace_unit 0x2461 (js "2") s in
  let s := replace_unit 0x2462 (js "3") s in
  let s := replace_unit 0x2463 (js "4") s in
  let s := replace_unit 0x2464 (js "5") s in
  let s := replace_runs is_space [hyphen] s in
  let s := replace_runs is_hyphen [hyphen] s in
  trim s.

(** [.replace(/\d+/g, '')] *)
Definition strip_digits (s : jsstring) : jsstring := replace_runs is_digit [] s.

(** [.replace(/\?+/g, '').replace(/!+/g, '').replace(/-+/g, '-')] *)
Definition strip_marks (s : jsstring) : jsstring :=
  replace_runs is_hyphen [hyphen]
    (replace_runs (λ c, c =? 33) [] (replace_runs (λ c, c =? 63) [] s)).

(** The six loops of [findStaticSlug], each the first slug of the set, in
    iteration order, that passes its test. *)
Definition match_exact (wpSlug : jsstring) (staticSlugs : list jsstring)
    : option jsstring :=
  if set_has wpSlug staticSlugs then Some wpSlug else None.

Definition match_normalized (wpSlug : jsstring) (staticSlugs : list jsstring)
    : option jsstring :=
  let n := normalizeForMatch wpSlug in
  List.find (λ slug, str_eqb (normalizeForMatch slug) n) staticSlugs.

Definition match_prefix (wpSlug : jsstring) (staticSlugs : list jsstring)
    : option jsstring :=
  let n := normalizeForMatch wpSlug in
  List.find
    (λ slug, let sn := normalizeForMatch slug in startsWith sn n || startsWith n sn)
    staticSlugs.

Definition match_substring (wpSlug : jsstring) (staticSlugs : list jsstring)
    : option jsstring :=
  let n := normalizeForMatch wpSlug in
  if (8 <=? length wpSlug)%nat then
    List.find
      (λ slug,
         (includes slug wpSlug || includes wpSlug slug)
         || (includes (normalizeForMatch slug) n || includes n (normalizeForMatch slug)))
      staticSlugs
  else None.

Definition match_no_digits (wpSlug : jsstring) (staticSlugs : list jsstring)
    : option jsstring :=
  let nNoDigits := strip_digits (normalizeForMatch wpSlug) in
  List.find
    (λ slug,
       let sn := strip_digits (normalizeForMatch slug) in
       str_eqb sn nNoDigits || startsWith sn nNoDigits || startsWith nNoDigits sn)
    staticSlugs.

Definition match_clean (wpSlug : jsstring) (staticSlugs : list jsstring)
    : option jsstring :=
  let nClean := strip_marks (strip_digits (normalizeForMatch wpSlug)) in
  List.find
    (λ slug,
       let sn := strip_marks (strip_digits (normalizeForMatch slug)) in
       str_eqb sn nClean || startsWith sn nClean || startsWith nClean sn)
    staticSlugs.

Inductive strategy :=
  | Exact | Normalized | Prefix | Substring | DigitInsensitive | PunctuationInsensitive.

Global Instance strategy_eq_dec : EqDecision strategy.
Proof. solve_decision. Defined.

Definition strategies
    : list (strategy * (jsstring → list jsstring → option jsstring)) :=
  [ (Exact, match_exact); (Normalized, match_normalized); (Prefix, match_prefix);
    (Substring, match_substring); (DigitInsensitive, match_no_digits);
    (PunctuationInsensitive, match_clean) ].

(** [findStaticSlug]: the loops in order, the first [return] wins. *)
Definition findStaticSlug (wpSlug : option jsstring) (staticSlugs : list jsstring)
    : option jsstring :=
  match wpSlug with
  | None | Some [] => None
  | Some w =>
      match match_exact w staticSlugs with
      | Some s => Some s
      | None =>
      match match_normalized w staticSlugs with
      | Some s => Some s
      | None =>
      match match_prefix w staticSlugs with
      | Some s => Some s
      | None =>
      match match_substring w staticSlugs with
      | Some s => Some s
      | None =>
      match match_no_digits w staticSlugs with
      | Some s => Some s
      | None => match_clean w staticSlugs
      end end end end end
  end.

(** The same cascade, recording which loop returned. *)
Fixpoint first_match (ss : list (strategy * (jsstring → list jsstring → option jsstring)))
    (w : jsstring) (staticSlugs : list jsstring) : option (strategy * jsstring) :=
  match ss with
  | [] => None
  | (k, f) :: ss' =>
      match f w staticSlugs with
      | Some s => Some (k, s)
      | None => first_match ss' w staticSlugs
      end
  end.

Definition resolvedVia (wpSlug : option jsstring) (staticSlugs : list jsstring)
    : option (strategy * jsstring) :=
  match wpSlug with
  | None | Some [] => None
  | Some w => first_match strategies w staticSlugs
  end.

Record unmapped_entry := {
  unmapped_url : jsstring;
  unmapped_wpPath : jsstring;
  unmapped_wpSlug : option jsstring
}.

(** [`posts/${slug}.html`] *)
Definition post_target (slug : jsstring) : jsstring :=
  js "posts/" ++ slug ++ js ".html".

(** [buildUrlToRelative]; [if (slug)] also rejects the empty string. *)
Definition buildUrlToRelative (urlToPath : list (jsstring * jsstring))
    (staticSlugs : list jsstring)
    : list (jsstring * jsstring) * list unmapped_entry :=
  foldl
    (λ st e,
       let wpSlug := postSlugFromWpPath e.2 in
       match findStaticSlug wpSlug staticSlugs with
       | Some ((_ :: _) as slug) => (map_set e.1 (post_target slug) st.1, st.2)
       | _ => (st.1, st.2 ++ [{| unmapped_url := e.1; unmapped_wpPath := e.2;
                                 unmapped_wpSlug := wpSlug |}])
       end)
    ([], []) urlToPath.

(** ** Dates *)

(** Decimal digits of a natural number, as [String(n)] writes them. *)
Definition dec (n : N) : jsstring := js (NilZero.string_of_uint (N.to_uint n)).

(** [String(n).padStart(k, '0')] *)
Definition pad (k : nat) (n : N) : jsstring :=
  replicate (k - length (dec n)) 48 ++ dec n.

Definition msPerDay : Z := 86400000.

(** Day number (days since 1970-01-01) to year, month, day of the proleptic
    Gregorian calendar, which is the calendar of ECMA-262 time values. *)
Definition civil_from_days (day : Z) : Z * Z * Z :=
  (let z := day + 719468 in
   let era := z / 146097 in
   let doe := z - era * 146097 in
   let yoe := (doe - doe / 1460 + doe / 36524 - doe / 146096) / 365 in
   let doy := doe - (365 * yoe + yoe / 4 - yoe / 100) in
   let mp := (5 * doy + 2) / 153 in
   let d := doy - (153 * mp + 2) / 5 + 1 in
   let m := if mp <? 10 then mp + 3 else mp - 9 in
   let y := yoe + era * 400 + (if m <=? 2 then 1 else 0) in
   (y, m, d))%Z.

Definition days_from_civil (y m d : Z) : Z :=
  (let y := if m <=? 2 then y - 1 else y in
   let era := y / 400 in
   let yoe := y - era * 400 in
   let doy := (153 * (if m >? 2 then m - 3 else m + 9) + 2) / 5 + d - 1 in
   let doe := yoe * 365 + yoe / 4 - yoe / 100 + doy in
   era * 146097 + doe - 719468)%Z.

(** [new Date(t).toISOString()] for a time value [t]:
    [YYYY-MM-DDTHH:mm:ss.sssZ], the year with a sign and six digits outside
    0..9999. *)
Definition toISOString (t : Z) : jsstring :=
  let '(y, m, d) := civil_from_days (t / msPerDay)%Z in
  let ms := (t mod msPerDay)%Z in
  let year :=
    if (0 <=? y)%Z && (y <=? 9999)%Z then pad 4 (Z.to_N y)
    else (if (y <? 0)%Z then js "-" else js "+") ++ pad 6 (Z.to_N (Z.abs y)) in
  year ++ js "-" ++ pad 2 (Z.to_N m) ++ js "-" ++ pad 2 (Z.to_N d)
  ++ js "T" ++ pad 2 (Z.to_N (ms / 3600000))
  ++ js ":" ++ pad 2 (Z.to_N (ms / 60000 mod 60))
  ++ js ":" ++ pad 2 (Z.to_N (ms / 1000 mod 60))
  ++ js "." ++ pad 3 (Z.to_N (ms mod 1000)) ++ js "Z".

Definition digit_val (c : N) : option Z :=
  if is_digit c then Some (Z.of_N (c - 48)) else None.

Definition days_in_month (y m : Z) : Z :=
  (if m =? 2 then
     if (y mod 4 =? 0) && (negb (y mod 100 =? 0) || (y mod 400 =? 0)) then 29 else 28
   else if (m =? 4) || (m =? 6) || (m =? 9) || (m =? 11) then 30 else 31)%Z.

(** [Date.parse] on the date-only form [YYYY-MM-DD] of ECMA-262, which is
    read as UTC midnight.  What an engine does with any other string is its
    own business; this parser answers [None] (Invalid Date) there, so it
    stands for an engine only on strings of this form. *)
Definition parse_iso_date (s : jsstring) : option Z :=
  match s with
  | [y1; y2; y3; y4; h1; m1; m2; h2; d1; d2] =>
      if (h1 =? hyphen) && (h2 =? hyphen) then
        match digit_val y1, digit_val y2, digit_val y3, digit_val y4,
              digit_val m1, digit_val m2, digit_val d1, digit_val d2 with
        | Some a, Some b, Some c, Some d, Some e, Some f, Some g, Some h =>
            (let y := a * 1000 + b * 100 + c * 10 + d in
             let m := e * 10 + f in
             let dd := g * 10 + h in
             if (1 <=? m) && (m <=? 12) && (1 <=? dd) && (dd <=? days_in_month y m)
             then Some (days_from_civil y m dd * msPerDay) else None)%Z
        | _, _, _, _, _, _, _, _ => None
        end
      else None
  | _ => None
  end.

(** ** Post reconciler (build-from-markdown.js) *)

Record post := {
  post_slug : jsstring;
  title : jsstring;
  date : jsstring;
  dateRel : jsstring;
  categories : list jsstring;
  excerpt : jsstring
}.

Global Instance post_eq_dec : EqDecision post.
Proof. solve_decision. Defined.

(** What [parseFrontmatter] returns as [meta]: the [key: value] lines as
    string properties, and [categories], which it always leaves an array. *)
Record front_matter := {
  fields : gmap string jsstring;
  meta_categories : list jsstring
}.

(** A file of [content/]: its name and the [meta] of its text. *)
Record source_file := { file : jsstring; meta : front_matter }.

(** [meta.key || ''] *)
Definition field (key : string) (m : front_matter) : jsstring :=
  default [] (fields m !! key).

(** [meta.draft === true || meta.draft === 'true']; [parseFrontmatter] only
    stores strings, so the first test never holds. *)
Definition is_draft (m : front_matter) : bool :=
  bool_decide (fields m !! "draft" = Some (js "true")).

(** [file.slice(0, -3)] *)
Definition slug_of_file (file : jsstring) : jsstring :=
  take (length file - 3) file.

Section Reconciler.

(** The engine's [Date.parse]: the time value, [None] for Invalid Date. *)
Variable parseDate : jsstring → option Z.

(** The system clock: [clock i] is what the [i]-th [new Date()] of the run
    reads.  The functions that read the clock take the number of readings
    made so far and return it advanced. *)
Variable clock : nat → Z.

Definition formatDateYMD (dateStr : jsstring) : jsstring :=
  match dateStr with
  | [] => []
  | _ =>
      match parseDate dateStr with
      | None => dateStr
      | Some t => take 10 (toISOString t)
      end
  end.

(** [Math.floor((now - d) / (30 * 24 * 60 * 60 * 1000))] is the exact floor
    for time values of any two dates less than some thousand years apart.*)
Definition formatDateRel (dateStr : jsstring) (tick : nat) : jsstring * nat :=
  match dateStr with
  | [] => ([], tick)
  | _ =>
      match parseDate dateStr with
      | None => ([], tick)
      | Some d =>
          let now := clock tick in
          let months := ((now - d) / (30 * 24 * 60 * 60 * 1000))%Z in
          let text :=
            if (months <? 1)%Z then js "recently"
            else if (months <? 12)%Z then dec (Z.to_N months) ++ js " months ago"
            else
              let years := (months / 12)%Z in
              dec (Z.to_N years) ++ js " year"
              ++ (if (years >? 1)%Z then js "s" else []) ++ js " ago" in
          (text, S tick)
      end
  end.

(** [meta.date || new Date().toISOString().slice(0, 10)] *)
Definition date_or_today (m : front_matter) (tick : nat) : jsstring * nat :=
  match field "date" m with
  | [] => (take 10 (toISOString (clock tick)), S tick)
  | d => (d, tick)
  end.

(** [(a, b) => new Date(b.date) - new Date(a.date)] is negative, that is
    [a] goes strictly before [b], when both dates are valid and [a]'s is
    the later one; with an invalid date the difference is [NaN], which
    [sort] takes for 0. *)
Definition newer (a b : post) : bool :=
  match parseDate (date a), parseDate (date b) with
  | Some ta, Some tb => (tb <? ta)%Z
  | _, _ => false
  end.

(** One turn of the loop over [content/*.md].  [buildPostPage] writes the
    post's page; of it only the clock reading of its [formatDateRel] is
    kept here. *)
Definition merge_file (st : list (jsstring * post) * nat) (f : source_file)
    : list (jsstring * post) * nat :=
  let '(bySlug, tick) := st in
  let slug := slug_of_file (file f) in
  if is_draft (meta f) then st
  else
    let title := or_else (field "title" (meta f)) slug in
    let '(dateStr, tick) := date_or_today (meta f) tick in
    let categories := meta_categories (meta f) in
    let excerpt := field "excerpt" (meta f) in
    let '(_, tick) := formatDateRel dateStr tick in
    let '(rel, tick) := formatDateRel dateStr tick in
    (map_set slug
       {| post_slug := slug; title := title; date := formatDateYMD dateStr;
          dateRel := rel; categories := categories; excerpt := excerpt |}
       bySlug,
     tick).

(** The part of [main] that computes the new [postsData]: the persisted
    list keyed by slug, the Markdown files merged into it, the values
    sorted by date, newest first. *)
Definition reconcile (postsData : list post) (content : list source_file)
    : list post :=
  let bySlug := map_of ((λ p, (post_slug p, p)) <$> postsData) in
  let files := filter (λ f, endsWith (file f) (js ".md") = true) content in
  let '(bySlug, _) := foldl merge_file (bySlug, 0%nat) files in
  stable_sort newer bySlug.*2.

End Reconciler.

(** A post with its clock-relative text blanked. *)
Definition without_dateRel (p : post) : post :=
  {| post_slug := post_slug p; title := title p; date := date p; dateRel := [];
     categories := categories p; excerpt := excerpt p |}.

(** ** Notions the properties are stated with *)

(** [no_double p prev s]: no two neighbours of [s] are both in the class
    [p], where [prev] tells whether the unit before [s] was. *)
Fixpoint no_double (p : N → bool) (prev : bool) (s : jsstring) : bool :=
  match s with
  | [] => true
  | c :: s' => negb (prev && p c) && no_double p (p c) s'
  end.

(** What a window must look like: page numbers grow; two neighbours in the
    list are consecutive pages; an ellipsis stands between two pages with at
    least one page left out between them, and never next to another
    ellipsis or at an end. *)
Fixpoint gaps_ok (prev : Z) (l : list pageItem) : bool :=
  match l with
  | [] => true
  | Page q :: l' => (q =? prev + 1)%Z && gaps_ok q l'
  | Ellipsis :: Page q :: l' => (prev + 1 <? q)%Z && gaps_ok q l'
  | Ellipsis :: _ => false
  end.

Definition window_ok (l : list pageItem) : bool :=
  match l with
  | Page p :: l' => gaps_ok p l'
  | _ => false
  end.

(** [rootdist cats n d]: following parent links from [n] reaches, after [d]
    steps, a node without parent. *)
Inductive rootdist (cats : cat_map) : jsstring → nat → Prop :=
  | rootdist_root n info :
      map_get n cats = Some info → parentNicename info = None →
      rootdist cats n 0
  | rootdist_child n info p d :
      map_get n cats = Some info → parentNicename info = Some p →
      rootdist cats p d → rootdist cats n (S d).

(** The step of [catByNicename], named for the proofs. *)
Definition cat_step (m : cat_map) (c : wp_category) : cat_map :=
  let nicename := trim (textOf (wp_category_nicename c)) in
  let name := trim (textOf (wp_cat_name c)) in
  let parent := trim (textOf (wp_category_parent c)) in
  match name with
  | [] => m
  | _ => map_set nicename
           {| name := name;
              parentNicename := match parent with [] => None | _ => Some parent end |}
           m
  end.

(** The map the script builds has each key once, and a parent link in it is
    never the empty string. *)
Definition cat_map_ok (m : cat_map) : Prop :=
  NoDup m.*1 ∧ ∀ k v, (k, v) ∈ m → parentNicename v ≠ Some [].

(** What [add] does with one child, given the set so far. *)
Definition add_child (fuel : nat) (cats : cat_map)
    (acc : option (list jsstring)) (child : jsstring) : option (list jsstring) :=
  match acc with
  | None => None
  | Some names' => add fuel cats child names'
  end.

(** [f.endsWith('.md')] *)
Definition md_file (f : source_file) : bool := endsWith (file f) (js ".md").

(** The files the loop of the build turns into a record. *)
Definition published (f : source_file) : bool :=
  md_file f && negb (is_draft (meta f)).

(** The identifiers of the records the build makes from [content]. *)
Definition fresh_slugs (content : list source_file) : list jsstring :=
  (λ f, slug_of_file (file f)) <$> filter (λ f, published f = true) content.

(** The record the loop stores for a file that is no draft. *)
Definition fresh_post (parseDate : jsstring → option Z) (f : source_file)
    (dateStr rel : jsstring) : post :=
  {| post_slug := slug_of_file (file f);
     title := or_else (field "title" (meta f)) (slug_of_file (file f));
     date := formatDateYMD parseDate dateStr; dateRel := rel;
     categories := meta_categories (meta f); excerpt := field "excerpt" (meta f) |}.

(** [meta.date] is a non-empty string. *)
Definition dated (f : source_file) : bool :=
  match field "date" (meta f) with
  | [] => false
  | _ => true
  end.

(** A record with its clock-relative text blanked when it was built from a
    fresh document, and as it is when it was taken over. *)
Definition blank_fresh (fresh : list jsstring) (p : post) : post :=
  if bool_decide (post_slug p ∈ fresh) then without_dateRel p else p.

(** ** Text helpers of the page templates *)

(** [arr.slice(start, end)] and [str.slice(start, end)] of ECMA-262: a
    negative index counts from the end, both ends are clamped to the
    length. *)
Definition js_slice {A} (start stop : Z) (l : list A) : list A :=
  let len := Z.of_nat (length l) in
  let k := if (start <? 0)%Z then Z.max (len + start) 0 else Z.min start len in
  let final := if (stop <? 0)%Z then Z.max (len + stop) 0 else Z.min stop len in
  take (Z.to_nat (final - k)) (drop (Z.to_nat k) l).

(** [escapeHtml] of build-from-markdown.js and import-wp.js: four global
    replacements in a row, of [&] by [&amp;], of [<] by [&lt;], of [>] by
    [&gt;] and of the double quote (unit 34) by [&quot;]. *)
Definition escapeHtml (s : jsstring) : jsstring :=
  replace_unit 34 (js "&quot;")
    (replace_unit 62 (js "&gt;")
       (replace_unit 60 (js "&lt;")
          (replace_unit 38 (js "&amp;") s))).

(** [s.replace(/\s+\S*$/, '')]: the first place from which the rest of the
    string is white space followed by no white space is the start of the
    last run of white space; the string is cut there, and left alone when
    it has no white space. *)
Definition cut_last_word (s : jsstring) : jsstring :=
  match drop_while (λ c, negb (is_space c)) (rev s) with
  | [] => s
  | r => rev (drop_while is_space r)
  end.

Definition horizontal_ellipsis : N := 0x2026.

(** [metaDescription]; [text] is a string or missing.
<<
  const stripped = String(text || '').replace(/\s+/g, ' ').trim();
  if (stripped.length <= maxLen) return stripped;
  return stripped.slice(0, maxLen).trim().replace(/\s+\S*$/, '') + '…';
>> *)
Definition metaDescription (text : option jsstring) (maxLen : Z) : jsstring :=
  let stripped := trim (replace_runs is_space [32] (default [] text)) in
  if (Z.of_nat (length stripped) <=? maxLen)%Z then stripped
  else cut_last_word (trim (js_slice 0 maxLen stripped)) ++ [horizontal_ellipsis].

(** What [escapeHtml] writes for one code unit. *)
Definition html_entity (c : N) : jsstring :=
  if c =? 38 then js "&amp;"
  else if c =? 60 then js "&lt;"
  else if c =? 62 then js "&gt;"
  else if c =? 34 then js "&quot;"
  else [c].

(** ** Pages of a listing *)

(** [postsData.slice(start, start + PER_PAGE)] with
    [start = (pageNum - 1) * PER_PAGE], as the loops over the pages of the
    main listing, of a category listing and of the archive take it. *)
Definition pagePosts {A} (postsData : list A) (pageNum : Z) : list A :=
  let start := ((pageNum - 1) * PER_PAGE)%Z in
  js_slice start (start + PER_PAGE) postsData.

(** [String(n)] for an integer [n] (below 10^21 in size). *)
Definition num_to_string (n : Z) : jsstring :=
  if (n <? 0)%Z then js "-" ++ dec (Z.to_N (- n)) else dec (Z.to_N n).

(** [pageUrl]:
    [n === 1 ? baseUrl + 'index.html' : baseUrl + 'page/' + n + '.html'] *)
Definition pageUrl (n : Z) (baseUrl : jsstring) : jsstring :=
  if (n =? 1)%Z then baseUrl ++ js "index.html"
  else baseUrl ++ js "page/" ++ num_to_string n ++ js ".html".

(** [categoryPageUrl] of import-wp.js:
    [n === 1 ? baseUrl + 'category/' + catSlug + '.html'
             : baseUrl + 'category/' + catSlug + '-' + n + '.html'] *)
Definition categoryPageUrl (catSlug : jsstring) (n : Z) (baseUrl : jsstring)
    : jsstring :=
  if (n =? 1)%Z then baseUrl ++ js "category/" ++ catSlug ++ js ".html"
  else baseUrl ++ js "category/" ++ catSlug ++ js "-" ++ num_to_string n ++ js ".html".

(** ** Notions for the order of the list *)

(** [new Date(p.date).getTime()], [None] for Invalid Date. *)
Definition post_time (parseDate : jsstring → option Z) (p : post) : option Z :=
  parseDate (date p).

(** [a] may stand before [b] in a list sorted newest first. *)
Definition not_older (parseDate : jsstring → option Z) (a b : post) : Prop :=
  ∃ ta tb, post_time parseDate a = Some ta ∧ post_time parseDate b = Some tb
           ∧ (tb ≤ ta)%Z.

(** The map [bySlug] holds each slug once, with a record of that slug. *)
Definition keyed_by_slug (m : list (jsstring * post)) : Prop :=
  NoDup m.*1 ∧ ∀ k v, (k, v) ∈ m → post_slug v = k.

(** [descendant cats n m]: [m] is the category [n] or lies below it, each
    step going from a category to one that names it as parent. *)
Inductive descendant (cats : cat_map) : jsstring → jsstring → Prop :=
  | descendant_self n info :
      map_get n cats = Some info → descendant cats n n
  | descendant_child n c info m :
      is_Some (map_get n cats) →
      map_get c cats = Some info → parentNicename info = Some n →
      descendant cats c m → descendant cats n m.

(** The names of the categories at or below [n]. *)
Definition name_below (cats : cat_map) (n : jsstring) (y : jsstring) : Prop :=
  ∃ m info, descendant cats n m ∧ map_get m cats = Some info ∧ name info = y.

(** ** Imported posts and their slugs (import-wp.js) *)

(** One [item] of the export: the texts the script reads from it for the
    choice and the naming of the posts. *)
Record wp_item := {
  wp_post_type : option jsstring;
  wp_status : option jsstring;
  wp_title : option jsstring;
  wp_post_date : option jsstring;
  wp_post_name : option jsstring
}.

(** [getPostSlug]:
<<
  const name = textOf(item['wp:post_name']);
  if (name) {
    try {
      return decodeURIComponent(name)
        .replace(/[^\w\u3040-\u309f\u30a0-\u30ff\u4e00-\u9faf-]/g, '-')
        .replace(/-+/g, '-').slice(0, 80) || 'post';
    } catch (e) {}
  }
  return slugify(textOf(item.title));
>> *)
Definition getPostSlug (item : wp_item) : jsstring :=
  let by_title := slugify (textOf (wp_title item)) in
  match textOf (wp_post_name item) with
  | [] => by_title
  | name =>
      match decodeURIComponent name with
      | Some decoded =>
          or_else
            (take 80
               (replace_runs is_hyphen [hyphen]
                  ((λ c, if slug_char c then c else hyphen) <$> decoded)))
            (js "post")
      | None => by_title
      end
  end.

(** The filter of the items:
    [type === 'post' && status === 'publish' && title.length > 0] *)
Definition published_item (item : wp_item) : bool :=
  str_eqb (textOf (wp_post_type item)) (js "post")
  && str_eqb (textOf (wp_status item)) (js "publish")
  && negb (str_eqb (textOf (wp_title item)) []).

(** The comparator of [posts.sort]: [db - da] is negative, [a] before [b],
    when both dates are valid and [a]'s is the later one. *)
Definition newer_item (parseDate : jsstring → option Z) (a b : wp_item) : bool :=
  match parseDate (textOf (wp_post_date a)), parseDate (textOf (wp_post_date b)) with
  | Some da, Some db => (db <? da)%Z
  | _, _ => false
  end.

(** [while (slugUsed.has(slug)) slug = slug + '-' + (i + 1)], the loop run at
    most [fuel] times; [suffix] is ['-' + (i + 1)]. *)
Fixpoint free_slug (fuel : nat) (slugUsed : list jsstring) (suffix slug : jsstring)
    : option jsstring :=
  match fuel with
  | O => None
  | S fuel' =>
      if set_has slug slugUsed then free_slug fuel' slugUsed suffix (slug ++ suffix)
      else Some slug
  end.

(** The loop over the posts from index [i] on, for what it does with the
    slugs: the slugs it pushes to [postsData], in order. *)
Fixpoint importSlugs_from (fuel : nat) (i : nat) (slugUsed : list jsstring)
    (posts : list wp_item) : option (list jsstring) :=
  match posts with
  | [] => Some []
  | item :: rest =>
      match free_slug fuel slugUsed (js "-" ++ dec (N.of_nat (i + 1)))
              (getPostSlug item) with
      | None => None
      | Some slug =>
          cons slug <$> importSlugs_from fuel (S i) (set_add slug slugUsed) rest
      end
  end.

(** The posts of [main] in the order of its loop. *)
Definition import_posts (parseDate : jsstring → option Z) (items : list wp_item)
    : list wp_item :=
  stable_sort (newer_item parseDate) (filter (λ item, published_item item = true) items).

(** The slugs of [postsData] after the import. *)
Definition importSlugs (parseDate : jsstring → option Z) (fuel : nat)
    (items : list wp_item) : option (list jsstring) :=
  importSlugs_from fuel 0 [] (import_posts parseDate items).

(** ** Notions for the resolver *)

(** What [buildUrlToRelative] stores for one entry of [urlToPath], if it
    stores something. *)
Definition resolved_entry (staticSlugs : list jsstring) (e : jsstring * jsstring)
    : option (jsstring * jsstring) :=
  match findStaticSlug (postSlugFromWpPath e.2) staticSlugs with
  | Some ((_ :: _) as slug) => Some (e.1, post_target slug)
  | _ => None
  end.

(** What it pushes to [unmapped] for one entry, if it pushes something. *)
Definition unresolved_entry (staticSlugs : list jsstring) (e : jsstring * jsstring)
    : option unmapped_entry :=
  match resolved_entry staticSlugs e with
  | Some _ => None
  | None => Some {| unmapped_url := e.1; unmapped_wpPath := e.2;
                    unmapped_wpSlug := postSlugFromWpPath e.2 |}
  end.

(** The ten replacements of [normalizeForMatch] that work unit by unit. *)
Definition unit_replacements (s : jsstring) : jsstring :=
  replace_unit 0x2464 (js "5")
    (replace_unit 0x2463 (js "4")
       (replace_unit 0x2462 (js "3")
          (replace_unit 0x2461 (js "2")
             (replace_unit 0x2460 (js "1")
                (narrow 0xff10 0xff19
                   (narrow 0xff01 0xff5e
                      (replace_unit ideographic_comma [hyphen]
                         (replace_unit wave_dash [hyphen]
                            (replace_unit wave_dash_fullwidth [hyphen] s))))))))).

(** What they turn one code unit into. *)
Definition norm_unit (c : N) : jsstring :=
  if (c =? wave_dash_fullwidth) || (c =? wave_dash) || (c =? ideographic_comma)
  then [hyphen]
  else if (0xff01 <=? c) && (c <=? 0xff5e) then [c - 0xfee0]
  else if (0x2460 <=? c) && (c <=? 0x2464) then [c - 0x2460 + 49]
  else [c].

(** The units they leave alone. *)
Definition unreplaced (c : N) : bool :=
  negb ((c =? wave_dash) || (c =? ideographic_comma)
        || ((0xff01 <=? c) && (c <=? 0xff5e))
        || ((0x2460 <=? c) && (c <=? 0x2464))).

(** The units a normalized form is made of. *)
Definition plain_unit (c : N) : bool := unreplaced c && negb (is_space c).

(** Comparisons of code units are settled from what is known of the unit. *)
Ltac decide_cmp :=
  repeat match goal with
    | |- context [(?a =? ?b)] =>
        first [ rewrite (proj2 (N.eqb_eq a b)) by lia
              | rewrite (proj2 (N.eqb_neq a b)) by lia ]
    | |- context [(?a <=? ?b)] =>
        first [ rewrite (proj2 (N.leb_le a b)) by lia
              | rewrite (proj2 (N.leb_gt a b)) by lia ]
    end.

Ltac unit_eval :=
  repeat (cbn [flat_map app fmap list_fmap andb orb negb]; progress decide_cmp);
  cbn [flat_map app fmap list_fmap andb orb negb].

(** The classes of code units [normalizeForMatch] tells apart. *)
Ltac classify c :=
  destruct (N.eq_dec c 0xff5e) as [->|?];
  [|destruct (N.eq_dec c 0x301c) as [->|?];
  [|destruct (N.eq_dec c 0x3001) as [->|?];
  [|destruct (N.eq_dec c 0x2460) as [->|?];
  [|destruct (N.eq_dec c 0x2461) as [->|?];
  [|destruct (N.eq_dec c 0x2462) as [->|?];
  [|destruct (N.eq_dec c 0x2463) as [->|?];
  [|destruct (N.eq_dec c 0x2464) as [->|?];
  [|destruct (N.le_gt_cases 0xff01 c), (N.le_gt_cases c 0xff5e),
      (N.le_gt_cases 0x2460 c), (N.le_gt_cases c 0x2464); try lia]]]]]]]].

(** A path segment [postSlugFromWpPath] returns as it stands: no slash, no
    [%] escape, no white space, no full-width wave dash. *)
Definition plain_segment (seg : jsstring) : bool :=
  forallb
    (λ c, negb (c =? slash) && negb (c =? 37) && negb (is_space c)
          && negb (c =? wave_dash_fullwidth))
    seg.

Definition no_slash (s : jsstring) : bool := forallb (λ c, negb (c =? slash)) s.

(** [second.length === 2 && /^\d{2}$/.test(second)] *)
Definition day_segment (s : jsstring) : bool :=
  (length s =? 2)%nat && forallb is_digit s.

(** [a + '/' + b] *)
Definition path_join (a b : jsstring) : jsstring := a ++ slash :: b.

(** ** File names of the writer server (writer-server.js) *)

(** The class [[a-z0-9\u3040-\u309f\u30a0-\u30ff\u4e00-\u9faf-]] with the
    flag [i]: letters of both cases, digits, kana, ideographs and the
    hyphen; no underscore.  No unit outside ASCII has a case variant in the
    class. *)
Definition save_char (c : N) : bool :=
  is_digit c || ((65 <=? c) && (c <=? 90)) || ((97 <=? c) && (c <=? 122))
  || ((0x3040 <=? c) && (c <=? 0x309f))
  || ((0x30a0 <=? c) && (c <=? 0x30ff))
  || ((0x4e00 <=? c) && (c <=? 0x9faf)) || is_hyphen c.

(** The slug of [handleSave], for [data.slug] a string or missing:
<<
  (data.slug || 'post')
    .replace(/[^a-z0-9\u3040-\u309f\u30a0-\u30ff\u4e00-\u9faf-]/gi, '-')
    .replace(/-+/g, '-') || 'post'
>> *)
Definition handleSave_slug (slug : option jsstring) : jsstring :=
  or_else
    (replace_runs is_hyphen [hyphen]
       ((λ c, if save_char c then c else hyphen)
        <$> or_else (default [] slug) (js "post")))
    (js "post").

(** [slug + '.md'], the name of the file [handleSave] writes in [posts/]. *)
Definition handleSave_filename (slug : option jsstring) : jsstring :=
  handleSave_slug slug ++ js ".md".

(** ** Front matter (build-from-markdown.js, writer-server.js) *)

Definition line_feed : N := 10.
Definition carriage_return : N := 13.
Definition double_quote : N := 34.

(** What [.] of a regular expression does not match: the line terminators. *)
Definition is_line_terminator (c : N) : bool :=
  (c =? 10) || (c =? 13) || (c =? 0x2028) || (c =? 0x2029).

(** The class of the two quotes, double and single. *)
Definition is_quote (c : N) : bool := (c =? 34) || (c =? 39).

(** [[a-z]] with the flag [i] *)
Definition is_letter (c : N) : bool :=
  ((65 <=? c) && (c <=? 90)) || ((97 <=? c) && (c <=? 122)).

(** [k.toLowerCase()] for a key, which is made of letters of [[a-z]] in
    either case. *)
Definition toLowerCase_key (k : jsstring) : jsstring :=
  (λ c, if (65 <=? c) && (c <=? 90) then c + 32 else c) <$> k.

(** The name of a property as a string of the development. *)
Definition key_name (k : jsstring) : string :=
  foldr (λ c s, String (ascii_of_N c) s) EmptyString k.

(** [\r?\n] at the head of [s]: what follows it. *)
Definition eat_newline (s : jsstring) : option jsstring :=
  match s with
  | c :: r =>
      if c =? 10 then Some r
      else if c =? 13 then
        match r with
        | d :: r' => if d =? 10 then Some r' else None
        | [] => None
        end
      else None
  | [] => None
  end.

(** [---\r?\n] at the head of [s]. *)
Definition eat_fence (s : jsstring) : option jsstring :=
  match s with
  | a :: b :: c :: r =>
      if (a =? 45) && (b =? 45) && (c =? 45) then eat_newline r else None
  | _ => None
  end.

(** [\r?\n---\r?\n] at the head of [s]. *)
Definition eat_closer (s : jsstring) : option jsstring :=
  eat_newline s ≫= eat_fence.

(** The rest of the expression of [parseFrontmatter] after the opening
    fence: a lazy group of any units, the closing fence, a greedy group of
    any units up to the end.  The lazy group stops at the first place where
    the closing fence matches; the last group is the rest. *)
Fixpoint split_front (s : jsstring) : option (jsstring * jsstring) :=
  match eat_closer s with
  | Some body => Some ([], body)
  | None =>
      match s with
      | [] => None
      | c :: s' => (λ fb, (c :: fb.1, fb.2)) <$> split_front s'
      end
  end.

Definition cons_head (c : N) (lines : list jsstring) : list jsstring :=
  match lines with
  | [] => [[c]]
  | l :: ls => (c :: l) :: ls
  end.

(** [front.split(/\r?\n/)] *)
Fixpoint split_lines (s : jsstring) : list jsstring :=
  match s with
  | [] => [[]]
  | c :: r =>
      if c =? 10 then [] :: split_lines r
      else
        match r with
        | d :: r' =>
            if (c =? 13) && (d =? 10) then [] :: split_lines r'
            else cons_head c (split_lines r)
        | [] => [[c]]
        end
  end.

(** [s.replace(re, '')] for the global expression [re] of the script that
    matches a quote at the head or a quote at the end: a quote at the head
    goes, and a quote at the end of what is left. *)
Definition strip_first_quote (s : jsstring) : jsstring :=
  match s with
  | c :: s' => if is_quote c then s' else s
  | [] => []
  end.

Definition strip_last_quote (s : jsstring) : jsstring :=
  match rev s with
  | c :: r => if is_quote c then rev r else s
  | [] => []
  end.

Definition strip_quotes (s : jsstring) : jsstring :=
  strip_last_quote (strip_first_quote s).

(** [/^\s+-\s+/] on a line: what is left when the match is taken away,
    [None] when the line does not match. *)
Definition eat_bullet (line : jsstring) : option jsstring :=
  match line with
  | c :: _ =>
      if is_space c then
        match drop_while is_space line with
        | h :: d :: r =>
            if (h =? 45) && is_space d then Some (drop_while is_space r) else None
        | _ => None
        end
      else None
  | [] => None
  end.

Fixpoint take_while (p : N → bool) (s : jsstring) : jsstring :=
  match s with
  | [] => []
  | c :: s' => if p c then c :: take_while p s' else []
  end.

(** [line.match(kv)] for the expression [kv] of the script: letters of
    [[a-z]] in either case, one at least, up to a colon (the first group),
    white space, and units that are no line terminators up to the end of
    the line (the second group). *)
Definition match_kv (line : jsstring) : option (jsstring * jsstring) :=
  let key := take_while is_letter line in
  match key, drop_while is_letter line with
  | _ :: _, c :: r =>
      let v := drop_while is_space r in
      if (c =? 58) && forallb (λ x, negb (is_line_terminator x)) v
      then Some (key, v) else None
  | _, _ => None
  end.

(** The variables of the loop of [parseFrontmatter]: the properties of
    [meta] that are strings, [meta.categories] when it is set, and whether
    [list] is that array ([true]) or [null]. *)
Record front_state := {
  st_fields : gmap string jsstring;
  st_categories : option (list jsstring);
  st_list : bool
}.

(** What a line [categories: v] does in build-from-markdown.js and
    writer-server.js:
<<
  meta.categories = [v];
  if (v) list = meta.categories;
>> *)
Definition categories_line (v : jsstring) : list jsstring * bool :=
  ([v], bool_decide (v ≠ [])).

(** The same line in the writer server with revisions (unnamed/part_002):
<<
  meta.categories = v ? [v] : [];
  list = meta.categories;
>> *)
Definition categories_line_rev (v : jsstring) : list jsstring * bool :=
  (match v with [] => [] | _ => [v] end, true).

(** One turn of the loop over the lines:
<<
  if (/^\s+-\s+/.test(line) && list !== null) {
    list.push(line.replace(/^\s+-\s+/, '').replace(quotes, ''));
    continue;
  }
  list = null;
  const kv = line.match(kv_expression);
  if (kv) {
    key = kv[1].toLowerCase();
    const v = kv[2].trim().replace(quotes, '');
    if (key === 'categories') { ... } else { meta[key] = v; }
  }
>>
    where [quotes] and [kv_expression] stand for the expressions of
    [strip_quotes] and [match_kv]. *)
Definition front_line (on_categories : jsstring → list jsstring * bool)
    (st : front_state) (line : jsstring) : front_state :=
  match eat_bullet line, st_list st with
  | Some item, true =>
      {| st_fields := st_fields st;
         st_categories := (λ l, l ++ [strip_quotes item]) <$> st_categories st;
         st_list := true |}
  | _, _ =>
      match match_kv line with
      | Some (k, v0) =>
          let key := toLowerCase_key k in
          let v := strip_quotes (trim v0) in
          if bool_decide (key = js "categories") then
            {| st_fields := st_fields st;
               st_categories := Some (on_categories v).1;
               st_list := (on_categories v).2 |}
          else
            {| st_fields := <[key_name key := v]> (st_fields st);
               st_categories := st_categories st;
               st_list := false |}
      | None =>
          {| st_fields := st_fields st; st_categories := st_categories st;
             st_list := false |}
      end
  end.

(** [parseFrontmatter]: [meta] and [body].  Without the two fences [meta]
    is empty, and its readers take the missing [categories] for none. *)
Definition parseFrontmatter_with (on_categories : jsstring → list jsstring * bool)
    (raw : jsstring) : front_matter * jsstring :=
  match eat_fence raw ≫= split_front with
  | None => ({| fields := ∅; meta_categories := [] |}, raw)
  | Some (front, rest) =>
      let st :=
        foldl (front_line on_categories)
          {| st_fields := ∅; st_categories := None; st_list := false |}
          (split_lines front) in
      ({| fields := st_fields st;
          meta_categories := filter_Boolean (default [] (st_categories st)) |},
       trimEnd rest)
  end.

(** [parseFrontmatter] of build-from-markdown.js and of writer-server.js. *)
Definition parseFrontmatter : jsstring → front_matter * jsstring :=
  parseFrontmatter_with categories_line.

(** [parseFrontmatter] of the writer server with revisions. *)
Definition parseFrontmatter_rev : jsstring → front_matter * jsstring :=
  parseFrontmatter_with categories_line_rev.

(** What a request gives as [data.categories]: nothing, an array of
    strings, or one string. *)
Inductive categories_input :=
  | NoCategories
  | CategoryArray (l : list jsstring)
  | CategoryText (s : jsstring).

(** The [data] of a request to save a post; a text is a string or
    missing, [draft] is [undefined] or a value taken for its truth. *)
Record writer_data := {
  data_title : option jsstring;
  data_date : option jsstring;
  data_categories : categories_input;
  data_excerpt : option jsstring;
  data_body : option jsstring;
  data_draft : option bool
}.

(** [Array.isArray(data.categories) ? data.categories
      : (data.categories
          ? String(data.categories).split(',').map((c) => c.trim()).filter(Boolean)
          : [])] *)
Definition categories_of (c : categories_input) : list jsstring :=
  match c with
  | NoCategories => []
  | CategoryArray l => l
  | CategoryText [] => []
  | CategoryText s => filter_Boolean (trim <$> split_on 44 s)
  end.

(** [s.replace(re, r)] with [re] the global expression for a double quote
    and [r] a backslash and a double quote. *)
Definition escape_quotes (s : jsstring) : jsstring :=
  replace_unit double_quote [92; double_quote] s.

(** [buildMarkdownContent] of the writer server.  [today] is what
    [new Date().toISOString().slice(0, 10)] gives, read when the date is
    missing. *)
Definition buildMarkdownContent (today : jsstring) (data : writer_data) : jsstring :=
  let title := or_else (trim (default [] (data_title data))) (js "Untitled") in
  let date := or_else (trim (default [] (data_date data))) today in
  let categories := categories_of (data_categories data) in
  let excerpt := trim (default [] (data_excerpt data)) in
  let body := trim (default [] (data_body data)) in
  js "---" ++ [line_feed]
  ++ js "title: " ++ [double_quote] ++ escape_quotes title ++ [double_quote; line_feed]
  ++ js "date: " ++ date ++ [line_feed]
  ++ match data_draft data with
     | Some draft => js "draft: " ++ (if draft then js "true" else js "false") ++ [line_feed]
     | None => []
     end
  ++ match categories with
     | [] => []
     | _ => js "categories:" ++ [line_feed]
            ++ flat_map (λ c, js "  - " ++ c ++ [line_feed]) categories
     end
  ++ match excerpt with
     | [] => []
     | _ => js "excerpt: " ++ [double_quote]
            ++ replace_unit line_feed [32] (escape_quotes excerpt)
            ++ [double_quote; line_feed]
     end
  ++ js "---" ++ [line_feed; line_feed] ++ body ++ [line_feed].

(** The lines [buildMarkdownContent] writes between the fences. *)
Definition front_lines (today : jsstring) (data : writer_data) : list jsstring :=
  let title := or_else (trim (default [] (data_title data))) (js "Untitled") in
  let date := or_else (trim (default [] (data_date data))) today in
  let categories := categories_of (data_categories data) in
  let excerpt := trim (default [] (data_excerpt data)) in
  [js "title: " ++ [double_quote] ++ escape_quotes title ++ [double_quote];
   js "date: " ++ date]
  ++ match data_draft data with
     | Some draft => [js "draft: " ++ (if draft then js "true" else js "false")]
     | None => []
     end
  ++ match categories with
     | [] => []
     | _ => js "categories:" :: ((λ c, js "  - " ++ c) <$> categories)
     end
  ++ match excerpt with
     | [] => []
     | _ => [js "excerpt: " ++ [double_quote]
             ++ replace_unit line_feed [32] (escape_quotes excerpt) ++ [double_quote]]
     end.

(** A line with no line feed and no carriage return that does not begin
    with a hyphen. *)
Definition quiet_line (l : jsstring) : Prop :=
  Forall (λ c, c ≠ 10 ∧ c ≠ 13) l ∧ head l ≠ Some 45.

(** The string properties of [meta] read back from a text of
    [buildMarkdownContent], for the texts it wrote. *)
Definition written_fields (title date excerpt : jsstring) (draft : option bool)
    : gmap string jsstring :=
  let with_date := <["date" := strip_quotes (trim date)]> (<["title" := title]> ∅) in
  let with_draft :=
    match draft with
    | Some b => <["draft" := if b then js "true" else js "false"]> with_date
    | None => with_date
    end in
  match excerpt with
  | [] => with_draft
  | _ => <["excerpt" := excerpt]> with_draft
  end.

(** ** Entry content of a post page (the migration script, the writer
    server with revisions) *)

(** The search of [s.indexOf(t, from)]: [index_from t s i] is the index of
    the first occurrence of [t] in a text whose units from index [i] on are
    [s]; [None] is the script's [-1]. *)
Fixpoint index_from (t s : jsstring) (i : nat) : option nat :=
  if startsWith s t then Some i
  else match s with
       | [] => None
       | _ :: s' => index_from t s' (S i)
       end.

Definition indexOf (s t : jsstring) (from : nat) : option nat :=
  index_from t (drop from s) from.

(** The start tag [extractEntryContent] looks for: a [div] element with
    the class [entry-content], the class name between double quotes. *)
Definition startTag : jsstring :=
  js "<div class=" ++ [double_quote] ++ js "entry-content" ++ [double_quote] ++ js ">".

Definition div_open : jsstring := js "<div".
Definition div_close : jsstring := js "</div>".

(** The loop of [extractEntryContent], run at most [fuel] times:
<<
  while (depth > 0 && pos < len) {
    const nextOpen = html.indexOf('<div', pos);
    const nextClose = html.indexOf('</div>', pos);
    if (nextClose === -1) break;
    if (nextOpen !== -1 && nextOpen < nextClose) {
      depth++;
      pos = nextOpen + 4;
    } else {
      depth--;
      if (depth === 0) return html.slice(start, nextClose).trim();
      pos = nextClose + 6;
    }
  }
  return '';
>>
    The result is [None] when the bound is reached, [Some None] when the
    loop is left without a result, and [Some (Some nextClose)] when the
    depth comes to 0 at [nextClose]. *)
Fixpoint entry_end (fuel : nat) (html : jsstring) (depth pos : nat)
    : option (option nat) :=
  match fuel with
  | O => None
  | S fuel' =>
      if (0 <? depth)%nat && (pos <? length html)%nat then
        match indexOf html div_close pos with
        | None => Some None
        | Some nextClose =>
            let opens :=
              match indexOf html div_open pos with
              | Some nextOpen => if (nextOpen <? nextClose)%nat then Some nextOpen else None
              | None => None
              end in
            match opens with
            | Some nextOpen => entry_end fuel' html (S depth) (nextOpen + 4)
            | None =>
                if (depth - 1 =? 0)%nat then Some (Some nextClose)
                else entry_end fuel' html (depth - 1) (nextClose + 6)
            end
        end
      else Some None
  end.

(** [extractEntryContent]: the inner HTML of the first element with the
    start tag, trimmed; [start] is [html.indexOf('>', idx) + 1]. *)
Definition extractEntryContent (fuel : nat) (html : jsstring) : option jsstring :=
  match indexOf html startTag 0 with
  | None => Some []
  | Some idx =>
      let start := match indexOf html [62] idx with Some i => S i | None => O end in
      match entry_end fuel html 1 start with
      | None => None
      | Some None => Some []
      | Some (Some nextClose) =>
          Some (trim (js_slice (Z.of_nat start) (Z.of_nat nextClose) html))
      end
  end.

(** A text in which neither [<div] nor the closing tag of a [div] occurs. *)
Definition div_free (t : jsstring) : Prop :=
  includes t div_open = false ∧ includes t div_close = false.

(** Content given as its pieces: each a text without [div] tags followed by
    an opening ([true]) or a closing ([false]) [div] tag. *)
Definition render (pieces : list (jsstring * bool)) : jsstring :=
  flat_map (λ p : jsstring * bool, p.1 ++ if p.2 then div_open else div_close) pieces.

(** The tags of the pieces are well nested, [depth] elements being open
    before them. *)
Fixpoint nested (depth : nat) (pieces : list (jsstring * bool)) : bool :=
  match pieces with
  | [] => (depth =? 0)%nat
  | (_, true) :: rest => nested (S depth) rest
  | (_, false) :: rest =>
      match depth with
      | O => false
      | S depth' => nested depth' rest
      end
  end.

(** ** Notions for the category pages *)

(** [lineage cats n m names]: [m] is [n] or below it, and [names] are the
    display names on the way from [n] down to [m]. *)
Inductive lineage (cats : cat_map) : jsstring → jsstring → list jsstring → Prop :=
  | lineage_self n info :
      map_get n cats = Some info → lineage cats n n [name info]
  | lineage_child n ninfo c info m names :
      map_get n cats = Some ninfo →
      map_get c cats = Some info → parentNicename info = Some n →
      lineage cats c m names → lineage cats n m (name ninfo :: names).

(** The entry of [allCategoriesWithSlug] for the category [m] reached along
    the display names [path]. *)
Definition path_entry (cats : cat_map) (m : jsstring) (path : list jsstring)
    (e : cat_slug) : Prop :=
  ∃ info, map_get m cats = Some info
          ∧ e = {| nicename := m; cat_name := name info;
                   slug := join [hyphen] (categorySlug <$> path) |}.

(** What [addCategoryWithPath] does with one child, given the array so
    far. *)
Definition with_child (fuel : nat) (cats : cat_map) (path : list jsstring)
    (acc : option (list cat_slug)) (child : jsstring) : option (list cat_slug) :=
  match acc with
  | None => None
  | Some out => addCategoryWithPath fuel cats child path out
  end.

(** What the loop over [topLevelCats] does with one name. *)
Definition with_top (fuel : nat) (cats : cat_map)
    (acc : option (list cat_slug)) (top : jsstring) : option (list cat_slug) :=
  match acc with
  | None => None
  | Some out =>
      match map_get top (nameToNicename cats) with
      | None | Some [] => Some out
      | Some nicename => addCategoryWithPath fuel cats nicename [] out
      end
  end.

(** Every category of the map has a display name. *)
Definition all_named (cats : cat_map) : Prop :=
  ∀ k v, (k, v) ∈ cats → name v ≠ [].

(** Every category of the map leads to a root along the parent links. *)
Definition forest (cats : cat_map) : Prop :=
  ∀ n, n ∈ cats.*1 → ∃ d, rootdist cats n d.

(** ** Relative dates of the writer's preview (the writer server with
    revisions) *)

Section PreviewDates.

Variable parseDate : jsstring → option Z.
Variable clock : nat → Z.

(** [formatDateRel] of the writer server with revisions; it differs from
    the one of the build in its last line,
    [Math.floor(months / 12) + ' year' + (months >= 24 ? 's' : '') + ' ago']. *)
Definition formatDateRel_preview (dateStr : jsstring) (tick : nat) : jsstring * nat :=
  match dateStr with
  | [] => ([], tick)
  | _ =>
      match parseDate dateStr with
      | None => ([], tick)
      | Some d =>
          let now := clock tick in
          let months := ((now - d) / (30 * 24 * 60 * 60 * 1000))%Z in
          let text :=
            if (months <? 1)%Z then js "recently"
            else if (months <? 12)%Z then dec (Z.to_N months) ++ js " months ago"
            else
              dec (Z.to_N (months / 12)) ++ js " year"
              ++ (if (months >=? 24)%Z then js "s" else []) ++ js " ago" in
          (text, S tick)
      end
  end.

End PreviewDates.

(** ** List of posts of the writer server *)

Inductive post_status := Published | Draft.

Global Instance post_status_eq_dec : EqDecision post_status.
Proof. solve_decision. Defined.

(** An entry of [listPosts]: the record and its [status]. *)
Record listed := { entry : post; entry_status : post_status }.

(** A file of [drafts/]: its name and its text, [None] when reading it
    throws. *)
Record draft_file := { draft_name : jsstring; draft_raw : option jsstring }.

Definition listed_slug (e : listed) : jsstring := post_slug (entry e).

Section WriterList.

(** The engine's [Date.parse], and the [parseFrontmatter] of the file (the
    two writer servers have the same [listPosts] and each its own
    parser). *)
Variable parseDate : jsstring → option Z.
Variable parse : jsstring → front_matter * jsstring.

(** The entry pushed for a draft: from its front matter, or with the slug
    as title when the file cannot be read. *)
Definition draft_entry (f : draft_file) : listed :=
  let slug := slug_of_file (draft_name f) in
  match draft_raw f with
  | Some raw =>
      let meta := (parse raw).1 in
      {| entry := {| post_slug := slug; title := or_else (field "title" meta) slug;
                     date := field "date" meta; dateRel := [];
                     categories := meta_categories meta;
                     excerpt := field "excerpt" meta |};
         entry_status := Draft |}
  | None =>
      {| entry := {| post_slug := slug; title := slug; date := []; dateRel := [];
                     categories := []; excerpt := [] |};
         entry_status := Draft |}
  end.

(** One turn of the loop over the files of [drafts/]:
    [if (list.some((p) => p.slug === slug)) return;], then the push. *)
Definition add_draft (entries : list listed) (f : draft_file) : list listed :=
  if bool_decide (slug_of_file (draft_name f) ∈ listed_slug <$> entries) then entries
  else entries ++ [draft_entry f].

(** [new Date(a.date || 0).getTime()], [None] for Invalid Date. *)
Definition listed_time (e : listed) : option Z :=
  match date (entry e) with
  | [] => Some 0%Z
  | d => parseDate d
  end.

(** The comparator of the sort: [db - da] is negative when both dates are
    valid and [a]'s is the later one. *)
Definition listed_newer (a b : listed) : bool :=
  match listed_time a, listed_time b with
  | Some ta, Some tb => (tb <? ta)%Z
  | _, _ => false
  end.

(** [listPosts], for the posts of [data/posts.json] (none when the file is
    missing or cannot be parsed) and the files of [drafts/]. *)
Definition listPosts (published : list post) (drafts : list draft_file) : list listed :=
  stable_sort listed_newer
    (foldl add_draft
       ((λ p, {| entry := p; entry_status := Published |}) <$> published)
       (filter (λ f, endsWith (draft_name f) (js ".md") = true) drafts)).

End WriterList.

(** The slugs of the drafts of a list. *)
Definition draft_slugs (entries : list listed) : list jsstring :=
  listed_slug <$> filter (λ e, entry_status e = Draft) entries.

(** [ancestor cats n a]: the parent links lead from the category [n] to
    [a], in one step or more, through categories of the map. *)
Inductive ancestor (cats : cat_map) : jsstring → jsstring → Prop :=
  | ancestor_parent n info p :
      map_get n cats = Some info → parentNicename info = Some p →
      ancestor cats n p
  | ancestor_step n info p a :
      map_get n cats = Some info → parentNicename info = Some p →
      ancestor cats p a → ancestor cats n a.

(** The category lies on a parent cycle: its parent links lead back to
    it. *)
Definition on_cycle (cats : cat_map) (n : jsstring) : Prop := ancestor cats n n.

(** The pages of the main listing the two scripts write: [index.html] is
    page 1, made of [postsData.slice(0, PER_PAGE)] whatever the posts are;
    the others come from
    [for (let pageNum = 2; pageNum <= totalPages; pageNum++)]. *)
Definition main_pages {A} (postsData : list A) : list Z :=
  1%Z :: seqZ 2 (totalPages postsData - 1).

(** ** Inputs of the scenarios *)

Definition sample_urlToPath : list (jsstring * jsstring) :=
  [ (js "https://futarigurashi.com/2013/06/sample-post", js "2013/06/sample-post");
    (js "https://futarigurashi.com/2013/07/gone", js "2013/07/gone") ].

(** The path and the identifier of the specification's scenario: the three
    units U+8A18 U+4E8B U+540D, and the same followed by [-2]. *)
Definition kiji : jsstring := [0x8a18; 0x4e8b; 0x540d].
Definition kiji_path : jsstring := js "2012/06/17/" ++ kiji.
Definition kiji_2 : jsstring := kiji ++ js "-2".

Definition wp_cat (nicename name parent : string) : wp_category :=
  {| wp_category_nicename := Some (js nicename); wp_cat_name := Some (js name);
     wp_category_parent := Some (js parent) |}.

(** A category whose parent is not in the export. *)
Definition dangling_wp : list wp_category :=
  [ wp_cat "travel" "Travel" ""; wp_cat "brazil" "Brazil" "ghost" ].

(** Two categories whose paths normalize to the same identifier. *)
Definition colliding_wp : list wp_category :=
  [ wp_cat "travel" "Travel" ""; wp_cat "brazil" "Brazil" "travel";
    wp_cat "travel-brazil" "Travel Brazil" "" ].

(** Two categories that are each other's parent, next to a sound tree. *)
Definition cyclic_wp : list wp_category :=
  [ wp_cat "travel" "Travel" ""; wp_cat "brazil" "Brazil" "travel";
    wp_cat "food" "Food" "drink"; wp_cat "drink" "Drink" "food" ].

Definition front (kvs : list (string * string)) (cats : list string) : front_matter :=
  {| fields := list_to_map ((λ kv, (kv.1, js kv.2)) <$> kvs);
     meta_categories := js <$> cats |}.

(** A persisted list of one post, and a draft with that post's file name. *)
Definition old_post : post :=
  {| post_slug := js "hello"; title := js "Hello"; date := js "2024-01-01";
     dateRel := js "recently"; categories := [js "Travel"]; excerpt := [] |}.

Definition hello_draft : source_file :=
  {| file := js "hello.md";
     meta := front [("title", "Hello again"); ("date", "2024-03-01");
                    ("draft", "true")] [] |}.

Definition other_file : source_file :=
  {| file := js "other.md";
     meta := front [("title", "Other"); ("date", "2024-02-01")] ["Food"] |}.

(** Two clocks: every reading on 2024-02-15, every reading on 2025-06-01. *)
Definition clock_2024 : nat → Z := λ _, 1707955200000%Z.
Definition clock_2025 : nat → Z := λ _, 1748736000000%Z.

(** Items of an export: two published posts of one name, a draft, a post
    whose name is the slug the second one is given, and a page. *)
Definition sample_items : list wp_item :=
  [ {| wp_post_type := Some (js "post"); wp_status := Some (js "publish");
       wp_title := Some (js "Ramen"); wp_post_date := Some (js "2012-06-17");
       wp_post_name := Some (js "ramen") |};
    {| wp_post_type := Some (js "post"); wp_status := Some (js "draft");
       wp_title := Some (js "Hidden"); wp_post_date := Some (js "2012-06-18");
       wp_post_name := Some (js "hidden") |};
    {| wp_post_type := Some (js "post"); wp_status := Some (js "publish");
       wp_title := Some (js "Ramen"); wp_post_date := Some (js "2013-01-01");
       wp_post_name := Some (js "ramen") |};
    {| wp_post_type := Some (js "post"); wp_status := Some (js "publish");
       wp_title := Some (js "Ramen 3"); wp_post_date := Some (js "2011-01-01");
       wp_post_name := Some (js "ramen-2") |};
    {| wp_post_type := Some (js "page"); wp_status := Some (js "publish");
       wp_title := Some (js "About"); wp_post_date := Some (js "2010-01-01");
       wp_post_name := None |} ].

(** The post of the scenarios of the writer. *)
Definition sample_data : writer_data :=
  {| data_title := Some (js " A " ++ [double_quote] ++ js "quoted" ++ [double_quote] ++ js " title ");
     data_date := Some (js "2025-02-08");
     data_categories := CategoryText (js "Travel, Brazil");
     data_excerpt := Some (js "one" ++ [line_feed] ++ js "two");
     data_body := Some (js "Body" ++ [line_feed; line_feed] ++ js "text  ");
     data_draft := Some false |}.

(** A page of the scenarios, in its parts: what stands before the start
    tag, the pieces of the content, the text behind the last piece, and
    what follows the closing tag. *)
Definition sample_pre : jsstring := js "<html><div class='site-wrap'>".
Definition sample_pieces : list (jsstring * bool) :=
  [(js "<p>Hello</p>", true); (js " class='a'>x", true); (js ">y", false);
   ([], false)].
Definition sample_last : jsstring := js " tail ".
Definition sample_post : jsstring := js "</article></div></html>".

(** The files of [drafts/] in the scenarios of the writer: a draft with the
    slug of the persisted post, a new draft, and a file that is no
    Markdown. *)
Definition sample_drafts : list draft_file :=
  [ {| draft_name := js "hello.md"; draft_raw := Some (buildMarkdownContent (js "2024-03-01") sample_data) |};
    {| draft_name := js "new.md"; draft_raw := Some (buildMarkdownContent (js "2024-03-01") sample_data) |};
    {| draft_name := js "notes.txt"; draft_raw := None |} ].

(** Closed decidable facts about the scenarios are settled by evaluation. *)
Ltac by_evaluation := apply (bool_decide_unpack _); vm_compute; exact I.

(** * Properties *)

(** ** The embedding on the scenarios of the specification *)

Example slugify_samples :
  slugify (js "  Hello,  World! - x  ") = js "Hello-World-x"
  ∧ slugify (js "?!") = js "post"
  ∧ slugify (js "a" ++ [0x3000; 0x65e5; 0x672c] ++ js "--b") = js "a-" ++ [0x65e5; 0x672c] ++ js "-b".
Proof. repeat split; vm_compute; reflexivity. Qed.

Example decodeURIComponent_samples :
  decodeURIComponent (js "%E8%A8%98a%20b") = Some ([0x8a18] ++ js "a b")
  ∧ decodeURIComponent (js "%F0%9F%98%80") = Some [0xd83d; 0xde00]
  ∧ decodeURIComponent (js "%E8%A8") = None
  ∧ decodeURIComponent (js "100%") = None
  ∧ decodeURIComponent (js "%C0%80") = None.
Proof. repeat split; vm_compute; reflexivity. Qed.

Example date_samples :
  parse_iso_date (js "2024-01-01") = Some 1704067200000%Z
  ∧ toISOString 1704067200000 = js "2024-01-01T00:00:00.000Z"
  ∧ toISOString 951782400123 = js "2000-02-29T00:00:00.123Z"
  ∧ toISOString (-1) = js "1969-12-31T23:59:59.999Z"
  ∧ parse_iso_date (js "2023-02-29") = None
  ∧ formatDateYMD parse_iso_date (js "2024-03-01") = js "2024-03-01"
  ∧ formatDateYMD parse_iso_date (js "soon") = js "soon".
Proof. repeat split; vm_compute; reflexivity. Qed.

Example totalPages_samples :
  totalPages (replicate 20 old_post) = 2%Z
  ∧ totalPages (replicate 21 old_post) = 3%Z
  ∧ totalCatPages (replicate 20 old_post) = 2%Z.
Proof. repeat split; vm_compute; reflexivity. Qed.

Example resolver_samples :
  resolvedVia (postSlugFromWpPath (js "2013/06/sample-post")) [js "other"; js "sample-post"]
  = Some (Exact, js "sample-post")
  ∧ findStaticSlug (postSlugFromWpPath (js "2013/06/xyz")) [js "sample-post"] = None
  ∧ postSlugFromWpPath (js "2013/6/sample-post") = None
  ∧ postSlugFromWpPath (js "2013/06") = None.
Proof. repeat split; vm_compute; reflexivity. Qed.

(** A post tagged [Brazil] is in the listing of [Travel]: the name set of
    the root holds the names of its descendants. *)
Example category_samples :
  getDescendantNames 3 (catByNicename colliding_wp) (js "travel")
  = Some [js "Travel"; js "Brazil"]
  ∧ topLevelCats (catByNicename colliding_wp) = [js "Travel"; js "Travel Brazil"].
Proof. repeat split; vm_compute; reflexivity. Qed.

(** ** Paginator *)

Lemma ceil_div_least (n d : Z) :
  (0 < d)%Z → (n ≤ ceil_div n d * d)%Z ∧ ((ceil_div n d - 1) * d < n)%Z.
Proof.
  intros Hd. unfold ceil_div.
  pose proof (Z.div_mod n d) as Hdm.
  pose proof (Z.mod_pos_bound n d Hd) as Hb.
  destruct (Z.eqb_spec (n mod d) 0); nia.
Qed.

(** A category listing always has a first page, and as many pages as the
    posts need. *)
Lemma totalCatPages_least {A} (catPosts : list A) :
  let n := Z.of_nat (length catPosts) in
  (1 ≤ totalCatPages catPosts)%Z
  ∧ (n ≤ totalCatPages catPosts * PER_PAGE)%Z
  ∧ (n = 0 → totalCatPages catPosts = 1)%Z
  ∧ (0 < n → (totalCatPages catPosts - 1) * PER_PAGE < n)%Z.
Proof.
  intros n. unfold totalCatPages. fold n.
  destruct (ceil_div_least n PER_PAGE) as [H1 H2]; [done|].
  unfold PER_PAGE in *. repeat split; lia.
Qed.

Lemma totalPages_least {A} (postsData : list A) :
  let n := Z.of_nat (length postsData) in
  (n ≤ totalPages postsData * PER_PAGE)%Z
  ∧ ((totalPages postsData - 1) * PER_PAGE < n)%Z.
Proof. intros n. apply ceil_div_least. done. Qed.

(** With at least one post the two listings count pages alike. *)
Lemma totalPages_nonempty {A} (postsData : list A) :
  postsData ≠ [] → totalPages postsData = totalCatPages postsData.
Proof.
  intros Hne. unfold totalCatPages. fold (totalPages postsData).
  destruct (totalPages_least postsData) as [H1 H2]. unfold PER_PAGE in *.
  destruct postsData; [done|]. simpl length in *. lia.
Qed.

(** C2 (the code departs from the claim on the main listing).  The claim
    gives every listing at least one page.  The category listing computes
    [Math.max(1, Math.ceil(N / 10))] and has one page for no post; the main
    listing computes [Math.ceil(N / 10)] alone, which is 0 for no post, while
    the page-number control it renders with that total shows page 1. *)
Theorem totalPages_empty_main_listing :
  totalPages (@nil post) = 0%Z
  ∧ totalCatPages (@nil post) = 1%Z
  ∧ getPageNumbers 1 (totalPages (@nil post)) = [Page 1].
Proof. repeat split; reflexivity. Qed.

Lemma gaps_ok_range (n : nat) (prev : Z) (rest : list pageItem) :
  gaps_ok prev ((Page <$> seqZ (prev + 1) (Z.of_nat n)) ++ rest)
  = gaps_ok (prev + Z.of_nat n) rest.
Proof.
  revert prev. induction n as [|n IH]; intros prev.
  - simpl. by rewrite Z.add_0_r.
  - rewrite seqZ_cons by lia. cbn [fmap list_fmap app gaps_ok].
    rewrite Z.eqb_refl. cbn [andb].
    replace (Z.pred (Z.of_nat (S n))) with (Z.of_nat n) by lia.
    replace (Z.succ (prev + 1)) with (prev + 1 + 1)%Z by lia.
    rewrite IH. f_equal. lia.
Qed.

Lemma gaps_ok_pages (prev k : Z) (rest : list pageItem) :
  (0 ≤ k)%Z →
  gaps_ok prev ((Page <$> seqZ (prev + 1) k) ++ rest) = gaps_ok (prev + k) rest.
Proof.
  intros Hk. rewrite <- (Z2Nat.id k) by done. apply gaps_ok_range.
Qed.

Lemma getPageNumbers_one (c T : Z) : (T ≤ 1)%Z → getPageNumbers c T = [Page 1].
Proof. intros H. unfold getPageNumbers. by destruct (Z.leb_spec T 1); [|lia]. Qed.

Lemma getPageNumbers_many (c T : Z) :
  (1 < T)%Z →
  getPageNumbers c T =
    let left := Z.max 2 (c - 2) in
    let right := Z.min (T - 1) (c + 2) in
    [Page 1] ++ (if (left >? 2)%Z then [Ellipsis] else [])
    ++ (Page <$> seqZ left (right - left + 1))
    ++ (if (right <? T - 1)%Z then [Ellipsis] else []) ++ [Page T].
Proof.
  intros H. unfold getPageNumbers.
  destruct (Z.leb_spec T 1); [lia|].
  by destruct (Z.gtb_spec T 1); [|lia].
Qed.

Lemma getPageNumbers_window_ok (c T : Z) :
  (1 ≤ c ≤ T)%Z → window_ok (getPageNumbers c T) = true.
Proof.
  intros Hc. destruct (decide (T ≤ 1)%Z) as [HT|HT].
  { by rewrite getPageNumbers_one. }
  rewrite getPageNumbers_many by lia. cbv zeta.
  remember (Z.max 2 (c - 2)) as left eqn:Hleft.
  remember (Z.min (T - 1) (c + 2)) as right eqn:Hright.
  cbn [app window_ok].
  assert (Htail :
    gaps_ok right ((if (right <? T - 1)%Z then [Ellipsis] else []) ++ [Page T]) = true).
  { destruct (Z.ltb_spec right (T - 1)); cbn [app gaps_ok].
    - by destruct (Z.ltb_spec (right + 1) T); [|lia].
    - replace (right + 1)%Z with T by lia. by rewrite Z.eqb_refl. }
  destruct (Z.gtb_spec left 2) as [Hl|Hl]; cbn [app].
  - assert (left ≤ right)%Z by lia.
    rewrite seqZ_cons by lia. cbn [fmap list_fmap app gaps_ok].
    destruct (Z.ltb_spec (1 + 1) left); [|lia]. cbn [andb].
    replace (Z.succ left) with (left + 1)%Z by lia.
    rewrite gaps_ok_pages by lia.
    by replace (left + Z.pred (right - left + 1))%Z with right by lia.
  - assert (left = 1 + 1)%Z as -> by lia. clear Hleft.
    destruct (decide (2 ≤ right)%Z).
    + rewrite gaps_ok_pages by lia.
      replace (1 + (right - (1 + 1) + 1))%Z with right by lia. done.
    + rewrite seqZ_nil by lia. cbn [fmap list_fmap app].
      replace 1%Z with right at 1 by lia. done.
Qed.

(** C9.  The window always holds page 1, holds page [T] whenever there is
    one, holds every page within two of the current one, has one ellipsis
    for each run of pages left out and none elsewhere, and is [[1]] for
    [T ≤ 1]; the two windows of the specification are computed. *)
Theorem getPageNumbers_window (c T : Z) :
  ((T ≤ 1)%Z → getPageNumbers c T = [Page 1])
  ∧ Page 1 ∈ getPageNumbers c T
  ∧ ((1 ≤ T)%Z → Page T ∈ getPageNumbers c T)
  ∧ (∀ p, (1 ≤ p ≤ T)%Z → (c - 2 ≤ p ≤ c + 2)%Z → Page p ∈ getPageNumbers c T)
  ∧ ((1 ≤ c ≤ T)%Z → window_ok (getPageNumbers c T) = true)
  ∧ getPageNumbers 1 10 = [Page 1; Page 2; Page 3; Ellipsis; Page 10]
  ∧ getPageNumbers 5 10
    = [Page 1; Ellipsis; Page 3; Page 4; Page 5; Page 6; Page 7; Ellipsis; Page 10].
Proof.
  split; [apply getPageNumbers_one|].
  assert (H1 : Page 1 ∈ getPageNumbers c T).
  { destruct (decide (T ≤ 1)%Z).
    - rewrite getPageNumbers_one by done. set_solver.
    - rewrite getPageNumbers_many by lia. set_solver. }
  assert (HT : (1 ≤ T)%Z → Page T ∈ getPageNumbers c T).
  { intros. destruct (decide (T ≤ 1)%Z).
    - assert (T = 1)%Z as -> by lia. done.
    - rewrite getPageNumbers_many by lia. cbv zeta.
      rewrite !elem_of_app. do 4 right. set_solver. }
  split; [done|]. split; [done|]. split; [|split; [apply getPageNumbers_window_ok|done]].
  intros p Hp Hc.
  destruct (decide (p = 1)%Z) as [->|]; [done|].
  destruct (decide (p = T)) as [->|]; [apply HT; lia|].
  rewrite getPageNumbers_many by lia. cbv zeta.
  rewrite !elem_of_app. right. right. left.
  apply list_elem_of_fmap. exists p. split; [done|].
  apply elem_of_seqZ. lia.
Qed.

Lemma getPageNumbers_window_witness :
  getPageNumbers 7 1 = [Page 1]
  ∧ Page 20 ∈ getPageNumbers 7 20
  ∧ Page 9 ∈ getPageNumbers 7 20
  ∧ window_ok (getPageNumbers 7 20) = true.
Proof.
  destruct (getPageNumbers_window 7 1) as (Hone & _).
  destruct (getPageNumbers_window 7 20) as (_ & _ & HT & Hnear & Hok & _).
  split; [apply Hone; lia|].
  split; [apply HT; lia|].
  split; [apply Hnear; lia|apply Hok; lia].
Defined.

(** ** JavaScript [Map] and sorting: general facts *)

Lemma elem_of_map_set {V} (k : jsstring) (v : V) (m : list (jsstring * V)) e :
  e ∈ map_set k v m → e = (k, v) ∨ e ∈ m.
Proof.
  induction m as [|[k' v'] m IH]; cbn [map_set].
  - intros ->%list_elem_of_singleton. by left.
  - case_bool_decide.
    + intros [->|H']%elem_of_cons; [by left|]. right. by right.
    + intros [->|H']%elem_of_cons; [right; by left|].
      destruct (IH H') as [->|?]; [by left|]. right. by right.
Qed.

Lemma map_set_keys {V} (k : jsstring) (v : V) (m : list (jsstring * V)) :
  (map_set k v m).*1 = if bool_decide (k ∈ m.*1) then m.*1 else m.*1 ++ [k].
Proof.
  induction m as [|[k' v'] m IH]; cbn [map_set]; [done|].
  destruct (decide (k' = k)) as [->|Hne].
  - rewrite bool_decide_eq_true_2 by done. cbn.
    by rewrite bool_decide_eq_true_2 by left.
  - rewrite bool_decide_eq_false_2 by done. cbn [fmap list_fmap fst]. rewrite IH.
    destruct (decide (k ∈ m.*1)).
    + rewrite !bool_decide_eq_true_2; [done|by right|done].
    + rewrite !bool_decide_eq_false_2; [done| |done].
      intros [?|?]%elem_of_cons; congruence.
Qed.

Lemma map_set_NoDup {V} (k : jsstring) (v : V) (m : list (jsstring * V)) :
  NoDup m.*1 → NoDup (map_set k v m).*1.
Proof.
  intros Hm. rewrite map_set_keys. case_bool_decide; [done|].
  apply NoDup_app. split; [done|]. split; [|apply NoDup_singleton].
  intros x Hx ->%list_elem_of_singleton. done.
Qed.

Lemma map_get_elem_of {V} (k : jsstring) (v : V) (m : list (jsstring * V)) :
  map_get k m = Some v → (k, v) ∈ m.
Proof.
  induction m as [|[k' v'] m IH]; cbn [map_get]; [done|].
  case_bool_decide as Hk.
  - intros [= ->]. subst. by left.
  - intros H'. right. by apply IH.
Qed.

Lemma elem_of_map_get {V} (k : jsstring) (v : V) (m : list (jsstring * V)) :
  NoDup m.*1 → (k, v) ∈ m → map_get k m = Some v.
Proof.
  induction m as [|[k' v'] m IH]; cbn [map_get]; [by intros _ ?%elem_of_nil|].
  cbn [fmap list_fmap fst]. intros [Hk' Hm]%NoDup_cons [[= -> ->]|Hin]%elem_of_cons.
  - by rewrite bool_decide_eq_true_2.
  - rewrite bool_decide_eq_false_2; [by apply IH|].
    intros ->. apply Hk'. apply list_elem_of_fmap. by exists (k, v).
Qed.

Lemma map_get_None {V} (k : jsstring) (m : list (jsstring * V)) :
  map_get k m = None ↔ k ∉ m.*1.
Proof.
  induction m as [|[k' v'] m IH]; cbn [map_get fmap list_fmap fst].
  - split; [intros _ ?%elem_of_nil; done|done].
  - case_bool_decide as Hk; subst.
    + split; [done|]. intros H'. exfalso. apply H'. by left.
    + rewrite IH, not_elem_of_cons. split; [intros ?; split; [congruence|done]|by intros [_ ?]].
Qed.

Lemma elem_of_map_set_ne {V} (k k' : jsstring) (v v' : V) (m : list (jsstring * V)) :
  k ≠ k' → (k, v) ∈ m → (k, v) ∈ map_set k' v' m.
Proof.
  intros Hne. induction m as [|[k0 v0] m IH]; cbn [map_set]; [by intros ?%elem_of_nil|].
  intros [[= -> ->]|Hin]%elem_of_cons.
  - rewrite bool_decide_eq_false_2 by done. by left.
  - case_bool_decide; right; [done|by apply IH].
Qed.

Lemma map_set_new {V} (k : jsstring) (v : V) (m : list (jsstring * V)) :
  k ∉ m.*1 → map_set k v m = m ++ [(k, v)].
Proof.
  induction m as [|[k0 v0] m IH]; cbn [map_set fmap list_fmap fst]; [done|].
  intros [Hne Hm]%not_elem_of_cons. rewrite bool_decide_eq_false_2 by done.
  by rewrite IH.
Qed.

(** [new Map(entries)] of entries with different keys keeps them all. *)
Lemma map_of_NoDup {V} (entries : list (jsstring * V)) :
  NoDup entries.*1 → map_of entries = entries.
Proof.
  unfold map_of.
  assert (H : ∀ m, NoDup (m.*1 ++ entries.*1) →
    foldl (λ m e, map_set e.1 e.2 m) m entries = m ++ entries).
  { induction entries as [|[k v] l IH]; intros m Hnd; cbn [foldl fst snd].
    - by rewrite app_nil_r.
    - cbn [fmap list_fmap fst] in Hnd.
      rewrite map_set_new.
      + rewrite IH; [by rewrite <- app_assoc|].
        rewrite fmap_app. cbn [fmap list_fmap fst]. by rewrite <- app_assoc.
      + apply NoDup_app in Hnd as (_ & Hnd & _). intros Hk.
        apply (Hnd k Hk). by left. }
  intros Hnd. by apply (H []).
Qed.

Lemma sort_insert_Permutation {A} (before : A → A → bool) (x : A) (l : list A) :
  sort_insert before x l ≡ₚ x :: l.
Proof.
  induction l as [|y l IH]; cbn [sort_insert]; [done|].
  destruct (before y x); [|done]. rewrite IH. apply Permutation_swap.
Qed.

Lemma stable_sort_Permutation {A} (before : A → A → bool) (l : list A) :
  stable_sort before l ≡ₚ l.
Proof.
  induction l as [|x l IH]; [done|].
  unfold stable_sort in *. cbn [foldr].
  rewrite sort_insert_Permutation. by rewrite IH.
Qed.

Lemma elem_of_stable_sort {A} (before : A → A → bool) (l : list A) (x : A) :
  x ∈ stable_sort before l ↔ x ∈ l.
Proof. by rewrite stable_sort_Permutation. Qed.

(** ** Legacy identifier resolver *)

(** A replacement by the empty string deletes the units of the class. *)
Lemma replace_runs_from_delete (p : N → bool) (b : bool) (s : jsstring) :
  replace_runs_from p [] b s = filter (λ c, p c = false) s.
Proof.
  revert b. induction s as [|c s IH]; intros b; [done|].
  cbn [replace_runs_from]. destruct (p c) eqn:Hc.
  - rewrite filter_cons_False by (by rewrite Hc). destruct b; apply IH.
  - rewrite filter_cons_True by done. by rewrite IH.
Qed.

Lemma strip_digits_filter (s : jsstring) :
  strip_digits s = filter (λ c, is_digit c = false) s.
Proof. apply replace_runs_from_delete. Qed.

(** [decodeURIComponent] leaves a string without [%] as it is. *)
Lemma decodeURIComponent_plain (s : jsstring) :
  Forall (λ c, (c =? 37) = false) s → decodeURIComponent s = Some s.
Proof.
  intros Hs. unfold decodeURIComponent.
  assert (Ht : uri_tokens s = Some (Unit <$> s)).
  { induction Hs as [|c s Hc Hs IH]; [done|].
    cbn [uri_tokens]. by rewrite Hc, IH. }
  rewrite Ht. cbn [mbind option_bind]. clear.
  induction s as [|c s IH]; [done|]. cbn [fmap list_fmap utf8_decode].
  cbn [fmap list_fmap] in IH. by rewrite IH.
Qed.

Lemma find_elem_of {A} (f : A → bool) (l : list A) (x : A) :
  List.find f l = Some x → x ∈ l ∧ f x = true.
Proof.
  intros [H1 H2]%find_some. split; [|done]. by apply list_elem_of_In.
Qed.

Lemma match_exact_in w S s : match_exact w S = Some s → s ∈ S.
Proof.
  unfold match_exact, set_has. case_bool_decide; [|done]. by intros [= <-].
Qed.

Lemma match_normalized_in w S s : match_normalized w S = Some s → s ∈ S.
Proof. intros H. by apply find_elem_of in H as [? _]. Qed.

Lemma match_prefix_in w S s : match_prefix w S = Some s → s ∈ S.
Proof. intros H. by apply find_elem_of in H as [? _]. Qed.

Lemma match_substring_in w S s : match_substring w S = Some s → s ∈ S.
Proof.
  unfold match_substring. destruct (8 <=? length w)%nat; [|done].
  intros H. by apply find_elem_of in H as [? _].
Qed.

Lemma match_no_digits_in w S s : match_no_digits w S = Some s → s ∈ S.
Proof. intros H. by apply find_elem_of in H as [? _]. Qed.

Lemma match_clean_in w S s : match_clean w S = Some s → s ∈ S.
Proof. intros H. by apply find_elem_of in H as [? _]. Qed.

Create HintDb resolver.
#[local] Hint Resolve match_exact_in match_normalized_in match_prefix_in
  match_substring_in match_no_digits_in match_clean_in : resolver.

Lemma findStaticSlug_Some w S s : findStaticSlug w S = Some s → s ∈ S.
Proof.
  unfold findStaticSlug. destruct w as [[|c w]|]; [done| |done].
  destruct (match_exact _ S) eqn:E1; [intros [= <-]; eauto with resolver|].
  destruct (match_normalized _ S) eqn:E2; [intros [= <-]; eauto with resolver|].
  destruct (match_prefix _ S) eqn:E3; [intros [= <-]; eauto with resolver|].
  destruct (match_substring _ S) eqn:E4; [intros [= <-]; eauto with resolver|].
  destruct (match_no_digits _ S) eqn:E5; [intros [= <-]; eauto with resolver|].
  eauto with resolver.
Qed.

(** The recorded strategy is only a label: the slug is the one
    [findStaticSlug] returns. *)
Lemma resolvedVia_findStaticSlug w S : snd <$> resolvedVia w S = findStaticSlug w S.
Proof.
  unfold resolvedVia, findStaticSlug. destruct w as [[|c w]|]; [done| |done].
  cbn [strategies first_match].
  destruct (match_exact _ S); [done|]. destruct (match_normalized _ S); [done|].
  destruct (match_prefix _ S); [done|]. destruct (match_substring _ S); [done|].
  destruct (match_no_digits _ S); [done|]. by destruct (match_clean _ S).
Qed.

Lemma buildUrlToRelative_targets (urlToPath : list (jsstring * jsstring))
    (S : list jsstring) (url target : jsstring) :
  (url, target) ∈ (buildUrlToRelative urlToPath S).1 →
  ∃ s, s ∈ S ∧ target = post_target s.
Proof.
  unfold buildUrlToRelative.
  assert (Hgen : ∀ st : list (jsstring * jsstring) * list unmapped_entry,
    (∀ u t, (u, t) ∈ st.1 → ∃ s, s ∈ S ∧ t = post_target s) →
    ∀ u t,
      (u, t) ∈ (foldl
        (λ st e,
           let wpSlug := postSlugFromWpPath e.2 in
           match findStaticSlug wpSlug S with
           | Some ((_ :: _) as slug) => (map_set e.1 (post_target slug) st.1, st.2)
           | _ => (st.1, st.2 ++ [{| unmapped_url := e.1; unmapped_wpPath := e.2;
                                     unmapped_wpSlug := wpSlug |}])
           end) st urlToPath).1 →
      ∃ s, s ∈ S ∧ t = post_target s).
  { induction urlToPath as [|e l IH]; intros st Hst u t; cbn [foldl]; [apply Hst|].
    apply IH. cbv zeta.
    destruct (findStaticSlug (postSlugFromWpPath e.2) S) as [[|c s]|] eqn:E;
      cbn [fst snd]; [done| |done].
    intros u' t' [[= -> ->]|?]%elem_of_map_set; [|by eapply Hst].
    exists (c :: s). split; [|done]. by apply findStaticSlug_Some in E. }
  apply (Hgen ([], [])). intros u t ?%elem_of_nil. done.
Qed.

(** C10.  [findStaticSlug] answers [null] or a member of the set it was
    given, and every target of the mapping [buildUrlToRelative] emits is the
    page of a slug of that set. *)
Theorem findStaticSlug_in_set :
  (∀ w S, findStaticSlug w S = None ∨ ∃ s, findStaticSlug w S = Some s ∧ s ∈ S)
  ∧ (∀ urlToPath S url target,
       (url, target) ∈ (buildUrlToRelative urlToPath S).1 →
       ∃ s, s ∈ S ∧ target = post_target s).
Proof.
  split; [|apply buildUrlToRelative_targets].
  intros w S. destruct (findStaticSlug w S) as [s|] eqn:E; [right|by left].
  exists s. split; [done|]. by apply findStaticSlug_Some in E.
Qed.

Lemma findStaticSlug_in_set_witness :
  ∃ s, s ∈ [js "sample-post"; js "other"]
       ∧ js "posts/sample-post.html" = post_target s.
Proof.
  apply (proj2 findStaticSlug_in_set sample_urlToPath [js "sample-post"; js "other"]
           (js "https://futarigurashi.com/2013/06/sample-post")).
  vm_compute. left.
Defined.

(** C5, as stated, fails: the digit-insensitive loop is not the one that
    returns. *)
Lemma kiji_not_digit_insensitive :
  resolvedVia (postSlugFromWpPath kiji_path) [kiji_2] ≠ Some (DigitInsensitive, kiji_2).
Proof. vm_compute. discriminate. Qed.

(** C5, amended.  With a two-digit third segment the candidate is the fourth
    segment, and against the one identifier [kiji_2] the path resolves to
    it; the loop that returns is the prefix test on the normalized forms
    (the third), which stands before the digit-insensitive one (the fifth)
    in the cascade.  The digit-insensitive test accepts the pair as well,
    but is not reached. *)
Theorem kiji_resolves_by_prefix :
  postSlugFromWpPath kiji_path = Some kiji
  ∧ findStaticSlug (postSlugFromWpPath kiji_path) [kiji_2] = Some kiji_2
  ∧ resolvedVia (postSlugFromWpPath kiji_path) [kiji_2] = Some (Prefix, kiji_2)
  ∧ match_exact kiji [kiji_2] = None
  ∧ match_normalized kiji [kiji_2] = None
  ∧ match_no_digits kiji [kiji_2] = Some kiji_2.
Proof. repeat split; vm_compute; reflexivity. Qed.

(** ** Identifier normalizer *)

Lemma slug_char_not_space (c : N) : slug_char c = true → is_space c = false.
Proof.
  intros Hc. apply not_true_is_false. intros Hs.
  unfold slug_char, is_word, is_digit, is_hyphen, hyphen in Hc.
  unfold is_space in Hs.
  repeat (rewrite ?orb_true_iff, ?andb_true_iff, ?N.eqb_eq, ?N.leb_le in Hc).
  repeat (rewrite ?orb_true_iff, ?andb_true_iff, ?N.eqb_eq, ?N.leb_le in Hs).
  lia.
Qed.

Lemma is_hyphen_eq (c : N) : is_hyphen c = true → c = hyphen.
Proof. apply N.eqb_eq. Qed.

Lemma drop_while_head (p : N → bool) (s : jsstring) :
  match s with [] => True | c :: _ => p c = false end → drop_while p s = s.
Proof. destruct s as [|c s]; [done|]. cbn [drop_while]. by intros ->. Qed.

Lemma trim_id (s : jsstring) : Forall (λ c, is_space c = false) s → trim s = s.
Proof.
  intros Hs. unfold trim, trimEnd, trimStart.
  rewrite (drop_while_head _ s) by (by destruct Hs).
  rewrite drop_while_head; [apply rev_involutive|].
  apply Forall_rev in Hs. by destruct Hs.
Qed.

Lemma replace_runs_from_id (p : N → bool) (r : jsstring) (b : bool) (s : jsstring) :
  Forall (λ c, p c = false) s → replace_runs_from p r b s = s.
Proof.
  intros Hs. revert b. induction Hs as [|c s Hc Hs IH]; intros b; [done|].
  cbn [replace_runs_from]. rewrite Hc. by rewrite IH.
Qed.

Lemma filter_id (p : N → bool) (s : jsstring) :
  Forall (λ c, p c = true) s → filter (λ c, p c = true) s = s.
Proof.
  induction 1 as [|c s Hc Hs IH]; [done|].
  rewrite filter_cons_True by done. by rewrite IH.
Qed.

Lemma Forall_filter_true (p : N → bool) (s : jsstring) :
  Forall (λ c, p c = true) (filter (λ c, p c = true) s).
Proof. apply Forall_forall. by intros c [? _]%list_elem_of_filter. Qed.

Lemma Forall_replace_runs_from (P : N → Prop) (p : N → bool) (x : N) (b : bool)
    (s : jsstring) :
  P x → Forall P s → Forall P (replace_runs_from p [x] b s).
Proof.
  intros Hx Hs. revert b. induction Hs as [|c s Hc Hs IH]; intros b; [done|].
  cbn [replace_runs_from]. destruct (p c).
  - destruct b; cbn [app]; [apply IH|]. constructor; [done|apply IH].
  - constructor; [done|apply IH].
Qed.

Lemma no_double_replace_runs_from (p : N → bool) (x : N) (b : bool) (s : jsstring) :
  p x = true → no_double p b (replace_runs_from p [x] b s) = true.
Proof.
  intros Hx. revert b. induction s as [|c s IH]; intros b; [done|].
  cbn [replace_runs_from]. destruct (p c) eqn:Hc.
  - destruct b; cbn [app]; [apply IH|].
    cbn [no_double andb negb]. rewrite Hx. apply IH.
  - cbn [no_double]. rewrite Hc, andb_false_r. apply IH.
Qed.

Lemma no_double_take (p : N → bool) (n : nat) (b : bool) (s : jsstring) :
  no_double p b s = true → no_double p b (take n s) = true.
Proof.
  revert b s. induction n as [|n IH]; intros b [|c s]; try done.
  cbn [take firstn no_double]. intros [H1 H2]%andb_true_iff.
  rewrite H1. by apply IH.
Qed.

Lemma collapse_hyphens_id (b : bool) (s : jsstring) :
  no_double is_hyphen b s = true → replace_runs_from is_hyphen [hyphen] b s = s.
Proof.
  revert b. induction s as [|c s IH]; intros b; [done|].
  cbn [no_double replace_runs_from]. intros [H1 H2]%andb_true_iff.
  destruct (is_hyphen c) eqn:Hc.
  - apply is_hyphen_eq in Hc as ->. destruct b; [done|].
    cbn [app]. by rewrite IH.
  - by rewrite IH.
Qed.

(** What [slugify] returns before its [|| 'post']: units of the kept class
    only, no two hyphens in a row, at most 80 units. *)
Lemma slugify_shape (s : jsstring) :
  let r := take 80 (replace_runs is_hyphen [hyphen]
             (filter (λ c, slug_char c = true)
                (replace_runs is_space [hyphen] (trim s)))) in
  Forall (λ c, slug_char c = true) r
  ∧ no_double is_hyphen false r = true
  ∧ (length r ≤ 80)%nat.
Proof.
  intros r. subst r. split; [|split].
  - apply Forall_take, Forall_replace_runs_from; [done|apply Forall_filter_true].
  - apply no_double_take, no_double_replace_runs_from. done.
  - rewrite length_take. lia.
Qed.

Lemma slugify_fixes_slug (r : jsstring) :
  r ≠ [] → Forall (λ c, slug_char c = true) r →
  no_double is_hyphen false r = true → (length r ≤ 80)%nat →
  slugify r = r.
Proof.
  intros Hne Hc Hd Hl. unfold slugify, replace_runs.
  assert (Hsp : Forall (λ c, is_space c = false) r).
  { eapply Forall_impl; [exact Hc|]. apply slug_char_not_space. }
  rewrite trim_id by done.
  rewrite (replace_runs_from_id is_space) by done.
  rewrite (filter_id slug_char) by done.
  rewrite collapse_hyphens_id by done.
  rewrite take_ge by done.
  by destruct r.
Qed.

(** C8.  [slugify] is idempotent, in its copy of the build scripts and in
    the copy of the writer server. *)
Theorem slugify_idempotent :
  (∀ s : jsstring, slugify (slugify s) = slugify s)
  ∧ (∀ o : option jsstring,
       slugify_writer (Some (slugify_writer o)) = slugify_writer o).
Proof.
  assert (H : ∀ s : jsstring, slugify (slugify s) = slugify s).
  { intros s. destruct (slugify_shape s) as (Hc & Hd & Hl). cbv zeta in *.
    unfold slugify at 2 3.
    destruct (take 80 _) as [|c r] eqn:E; cbn [or_else].
    - vm_compute. reflexivity.
    - by apply slugify_fixes_slug. }
  split; [done|]. intros o. unfold slugify_writer. cbn [default]. apply H.
Qed.

(** ** Category tree builder *)

Lemma catByNicename_fold (wpCategories : list wp_category) :
  catByNicename wpCategories = foldl cat_step [] wpCategories.
Proof. reflexivity. Qed.

Lemma cat_step_ok (m : cat_map) (c : wp_category) :
  cat_map_ok m → cat_map_ok (cat_step m c).
Proof.
  intros [Hnd Hp]. unfold cat_step.
  destruct (trim (textOf (wp_cat_name c))) as [|x nm]; [done|].
  split; [by apply map_set_NoDup|].
  intros k v [[= -> ->]|Hin]%elem_of_map_set; [|by eapply Hp].
  cbn. by destruct (trim (textOf (wp_category_parent c))).
Qed.

Lemma catByNicename_ok (wpCategories : list wp_category) :
  cat_map_ok (catByNicename wpCategories).
Proof.
  rewrite catByNicename_fold.
  assert (H : ∀ m, cat_map_ok m → cat_map_ok (foldl cat_step m wpCategories)).
  { induction wpCategories as [|c l IH]; intros m Hm; [done|].
    cbn [foldl]. by apply IH, cat_step_ok. }
  apply H. split; [constructor|]. by intros k v ?%elem_of_nil.
Qed.

Lemma elem_of_topLevelNicenames (cats : cat_map) (n : jsstring) :
  cat_map_ok cats →
  n ∈ topLevelNicenames cats
  ↔ ∃ info, map_get n cats = Some info ∧ parentNicename info = None.
Proof.
  intros [Hnd Hp]. unfold topLevelNicenames. rewrite list_elem_of_fmap. split.
  - intros ([k v] & -> & [Hnp Hin]%list_elem_of_filter). cbn [fst snd] in *.
    exists v. split; [by apply elem_of_map_get|].
    unfold no_parent in Hnp. specialize (Hp k v Hin).
    by destruct (parentNicename v) as [[|??]|].
  - intros (info & Hget%map_get_elem_of & Hnone). exists (n, info).
    split; [done|]. apply list_elem_of_filter. split; [|done].
    cbn. unfold no_parent. by rewrite Hnone.
Qed.

(** C3, as stated, fails: [brazil] names the parent [ghost], no category
    [ghost] is in the export, and [brazil] is not among the roots; the
    builder gives it no path identifier either. *)
Lemma dangling_parent_is_no_root :
  let cats := catByNicename dangling_wp in
  map_get (js "brazil") cats
  = Some {| name := js "Brazil"; parentNicename := Some (js "ghost") |}
  ∧ map_get (js "ghost") cats = None
  ∧ topLevelNicenames cats = [js "travel"]
  ∧ (js "brazil" ∉ topLevelNicenames cats)
  ∧ allCategoriesWithSlug 3 cats
    = Some [ {| nicename := js "travel"; cat_name := js "Travel";
                slug := js "Travel" |} ].
Proof.
  cbv zeta. repeat split; try (vm_compute; reflexivity).
  by_evaluation.
Qed.

(** C3, amended.  The roots the builder computes are exactly the categories
    that declare no parent.  A category whose declared parent is not in the
    export is therefore not a root; it stays in the map, and nothing in the
    computation can fail on it. *)
Theorem topLevelNicenames_parentless (wpCategories : list wp_category) (n : jsstring) :
  let cats := catByNicename wpCategories in
  (n ∈ topLevelNicenames cats
   ↔ ∃ info, map_get n cats = Some info ∧ parentNicename info = None)
  ∧ (∀ info p,
       map_get n cats = Some info → parentNicename info = Some p →
       map_get p cats = None →
       (n ∉ topLevelNicenames cats) ∧ n ∈ cats.*1).
Proof.
  intros cats. pose proof (catByNicename_ok wpCategories) as Hok. fold cats in Hok.
  split; [by apply elem_of_topLevelNicenames|].
  intros info p Hget Hp _. split.
  - intros (info' & Hget' & Hnone)%elem_of_topLevelNicenames; [|done]. congruence.
  - apply list_elem_of_fmap. exists (n, info). split; [done|].
    by apply map_get_elem_of.
Qed.

Lemma topLevelNicenames_parentless_witness :
  (js "brazil" ∉ topLevelNicenames (catByNicename dangling_wp))
  ∧ js "brazil" ∈ (catByNicename dangling_wp).*1.
Proof.
  apply (proj2 (topLevelNicenames_parentless dangling_wp (js "brazil"))
           {| name := js "Brazil"; parentNicename := Some (js "ghost") |}
           (js "ghost")); vm_compute; reflexivity.
Defined.

(** C4 (the code departs from the claim).  The child [Brazil] of the root
    [Travel] and the root [Travel Brazil] are two categories of a forest,
    and both get the path identifier [Travel-Brazil]. *)
Theorem path_identifiers_collide :
  allCategoriesWithSlug 3 (catByNicename colliding_wp)
  = Some [ {| nicename := js "travel"; cat_name := js "Travel";
              slug := js "Travel" |};
           {| nicename := js "brazil"; cat_name := js "Brazil";
              slug := js "Travel-Brazil" |};
           {| nicename := js "travel-brazil"; cat_name := js "Travel Brazil";
              slug := js "Travel-Brazil" |} ].
Proof. vm_compute. reflexivity. Qed.

(** *** The traversal of [getDescendantNames] *)

Lemma add_S (fuel : nat) (cats : cat_map) (n : jsstring) (names : list jsstring) :
  add (S fuel) cats n names
  = match map_get n cats with
    | None => Some names
    | Some info =>
        foldl (add_child fuel cats) (Some (set_add (name info) names))
          (children cats n)
    end.
Proof. reflexivity. Qed.

Lemma foldl_add_child_None (fuel : nat) (cats : cat_map) (l : list jsstring) :
  foldl (add_child fuel cats) None l = None.
Proof. by induction l. Qed.

Lemma rootdist_in_map (cats : cat_map) (n : jsstring) (d : nat) :
  rootdist cats n d → ∃ info, map_get n cats = Some info.
Proof. destruct 1; eauto. Qed.

Lemma rootdist_functional (cats : cat_map) (n : jsstring) (d d' : nat) :
  rootdist cats n d → rootdist cats n d' → d = d'.
Proof.
  intros H. revert d'.
  induction H as [n info Hget Hp|n info p d Hget Hp Hr IH]; intros d' H';
    destruct H' as [n info' Hget' Hp'|n info' p' d' Hget' Hp' Hr']; try congruence.
  f_equal. apply IH. congruence.
Qed.

(** The parent links from a node down to its root pass through as many
    different categories as there are steps, so the distance is below the
    number of categories. *)
Lemma rootdist_chain (cats : cat_map) (n : jsstring) (d : nat) :
  rootdist cats n d →
  ∃ chain : list jsstring,
    length chain = S d ∧ NoDup chain
    ∧ (∀ x, x ∈ chain → x ∈ cats.*1 ∧ ∃ j, (j ≤ d)%nat ∧ rootdist cats x j).
Proof.
  induction 1 as [n info Hget Hp|n info p d Hget Hp Hr (chain & Hlen & Hnd & Hch)].
  - exists [n]. split; [done|]. split; [apply NoDup_singleton|].
    intros x ->%list_elem_of_singleton. split.
    + apply list_elem_of_fmap. exists (n, info). split; [done|].
      by apply map_get_elem_of.
    + exists 0%nat. split; [done|]. by eapply rootdist_root.
  - assert (Hn : rootdist cats n (S d)) by (by eapply rootdist_child).
    exists (n :: chain). split; [cbn; by rewrite Hlen|]. split.
    + apply NoDup_cons. split; [|done].
      intros (_ & j & Hj & Hrj)%Hch.
      pose proof (rootdist_functional _ _ _ _ Hn Hrj). lia.
    + intros x [->|Hx]%elem_of_cons.
      * split; [|by exists (S d)].
        apply list_elem_of_fmap. exists (n, info). split; [done|].
        by apply map_get_elem_of.
      * destruct (Hch x Hx) as (? & j & ? & ?). split; [done|].
        exists j. split; [lia|done].
Qed.

Lemma rootdist_bound (cats : cat_map) (n : jsstring) (d : nat) :
  rootdist cats n d → (d < length cats)%nat.
Proof.
  intros (chain & Hlen & Hnd & Hch)%rootdist_chain.
  assert (Hle : (length chain ≤ length cats.*1)%nat).
  { apply submseteq_length, NoDup_submseteq; [done|]. intros x Hx. by apply Hch. }
  rewrite length_fmap in Hle. lia.
Qed.

Lemma elem_of_children (cats : cat_map) (n c : jsstring) :
  cat_map_ok cats → c ∈ children cats n →
  ∃ info, map_get c cats = Some info ∧ parentNicename info = Some n.
Proof.
  intros [Hnd _]. unfold children. rewrite list_elem_of_fmap.
  intros ([k v] & -> & [Hp Hin]%list_elem_of_filter). cbn [fst snd] in *.
  exists v. split; [by apply elem_of_map_get|].
  unfold has_parent in Hp. by apply bool_decide_eq_true in Hp.
Qed.

Lemma rootdist_children (cats : cat_map) (n c : jsstring) (d : nat) :
  cat_map_ok cats → rootdist cats n d → c ∈ children cats n →
  rootdist cats c (S d).
Proof.
  intros Hok Hr (info & Hget & Hp)%elem_of_children; [|done].
  by eapply rootdist_child.
Qed.

(** Below a root the recursion is at most as deep as the map is long. *)
Lemma add_terminates (cats : cat_map) :
  cat_map_ok cats →
  ∀ fuel n d names,
    rootdist cats n d → (length cats < fuel + d)%nat →
    ∃ r, add fuel cats n names = Some r.
Proof.
  intros Hok. induction fuel as [|fuel IH]; intros n d names Hr Hfuel.
  { apply rootdist_bound in Hr. lia. }
  rewrite add_S. destruct (rootdist_in_map _ _ _ Hr) as [info ->].
  generalize (set_add (name info) names).
  assert (Hsub : ∀ c, c ∈ children cats n → c ∈ children cats n) by done.
  revert Hsub. generalize (children cats n) at 1 3.
  induction l as [|c l IHl]; intros Hsub acc; cbn [foldl]; [by exists acc|].
  destruct (IH c (S d) acc) as [r' Hr'].
  { eapply rootdist_children; [done..|]. apply Hsub. by left. }
  { lia. }
  cbn [add_child]. rewrite Hr'. apply IHl. intros c' Hc'. apply Hsub. by right.
Qed.

Lemma add_fuel_S (cats : cat_map) (fuel : nat) (n : jsstring)
    (names r : list jsstring) :
  add fuel cats n names = Some r → add (S fuel) cats n names = Some r.
Proof.
  revert n names r. induction fuel as [|fuel IH]; intros n names r; [done|].
  rewrite (add_S (S fuel)), (add_S fuel).
  destruct (map_get n cats) as [info|]; [|done].
  generalize (set_add (name info) names). generalize (children cats n).
  induction l as [|c l IHl]; intros acc; cbn [foldl]; [done|].
  cbn [add_child]. destruct (add fuel cats c acc) as [r'|] eqn:E.
  - rewrite (IH _ _ _ E). apply IHl.
  - by rewrite foldl_add_child_None.
Qed.

Lemma add_fuel_le (cats : cat_map) (fuel fuel' : nat) (n : jsstring)
    (names r : list jsstring) :
  (fuel ≤ fuel')%nat → add fuel cats n names = Some r →
  add fuel' cats n names = Some r.
Proof. induction 1; [done|]. intros. by apply add_fuel_S, IHle. Qed.

Lemma set_add_incl (x : jsstring) (s : list jsstring) :
  x ∈ set_add x s ∧ ∀ y, y ∈ s → y ∈ set_add x s.
Proof.
  unfold set_add, set_has. case_bool_decide; [done|].
  split; [|intros y Hy]; apply elem_of_app; [right; by left|by left].
Qed.

Lemma add_grows (cats : cat_map) (fuel : nat) (n : jsstring)
    (names r : list jsstring) :
  add fuel cats n names = Some r → ∀ y, y ∈ names → y ∈ r.
Proof.
  revert n names r. induction fuel as [|fuel IH]; intros n names r; [done|].
  rewrite add_S. destruct (map_get n cats) as [info|]; [|by intros [= ->]].
  intros Hfold y Hy.
  assert (Hy' : y ∈ set_add (name info) names).
  { by apply (set_add_incl (name info) names). }
  revert Hfold Hy'. generalize (set_add (name info) names).
  generalize (children cats n).
  induction l as [|c l IHl]; intros acc; cbn [foldl]; [by intros [= ->]|].
  cbn [add_child]. destruct (add fuel cats c acc) as [r'|] eqn:E.
  - intros Hfold Hacc. apply (IHl r'); [done|]. by eapply IH.
  - by rewrite foldl_add_child_None.
Qed.

Lemma add_own_name (cats : cat_map) (fuel : nat) (n : jsstring) (info : cat_info)
    (names r : list jsstring) :
  add fuel cats n names = Some r → map_get n cats = Some info → name info ∈ r.
Proof.
  destruct fuel as [|fuel]; [done|]. rewrite add_S. intros Hfold Hget.
  rewrite Hget in Hfold.
  destruct (set_add_incl (name info) names) as [Hy _].
  revert Hfold Hy. generalize (set_add (name info) names).
  generalize (children cats n).
  induction l as [|c l IHl]; intros acc; cbn [foldl]; [by intros [= ->]|].
  cbn [add_child]. destruct (add fuel cats c acc) as [r'|] eqn:E.
  - intros Hfold Hacc. apply (IHl r'); [done|]. by eapply add_grows.
  - by rewrite foldl_add_child_None.
Qed.

(** C6, as stated, fails: [food] and [drink] are each other's parent, and
    the traversal started at [food] reaches every bound on its depth; the
    script, which has no bound and no visited set, recurses until the
    engine's stack is full. *)
Lemma cycle_never_returns :
  let cats := catByNicename cyclic_wp in
  map_get (js "food") cats
  = Some {| name := js "Food"; parentNicename := Some (js "drink") |}
  ∧ map_get (js "drink") cats
    = Some {| name := js "Drink"; parentNicename := Some (js "food") |}
  ∧ ∀ fuel, getDescendantNames fuel cats (js "food") = None.
Proof.
  cbv zeta. set (cats := catByNicename cyclic_wp).
  assert (Hfood : map_get (js "food") cats
    = Some {| name := js "Food"; parentNicename := Some (js "drink") |})
    by (vm_compute; reflexivity).
  assert (Hdrink : map_get (js "drink") cats
    = Some {| name := js "Drink"; parentNicename := Some (js "food") |})
    by (vm_compute; reflexivity).
  assert (Hcf : children cats (js "food") = [js "drink"]) by (vm_compute; reflexivity).
  assert (Hcd : children cats (js "drink") = [js "food"]) by (vm_compute; reflexivity).
  split; [done|]. split; [done|].
  assert (H : ∀ fuel names,
    add fuel cats (js "food") names = None ∧ add fuel cats (js "drink") names = None).
  { induction fuel as [|fuel IH]; intros names; [done|].
    rewrite !add_S, Hfood, Hdrink, Hcf, Hcd. cbn [foldl add_child name].
    split; apply IH. }
  intros fuel. apply H.
Qed.

Lemma children_elem_of (cats : cat_map) (n c : jsstring) (info : cat_info) :
  map_get c cats = Some info → parentNicename info = Some n → c ∈ children cats n.
Proof.
  intros Hget%map_get_elem_of Hp. unfold children.
  apply list_elem_of_fmap. exists (c, info). split; [done|].
  apply list_elem_of_filter. split; [|done].
  cbn. unfold has_parent. by apply bool_decide_eq_true.
Qed.

Lemma ancestor_trans (cats : cat_map) (n a b : jsstring) :
  ancestor cats n a → ancestor cats a b → ancestor cats n b.
Proof.
  induction 1 as [n info p Hget Hp|n info p a Hget Hp Hpa IH]; intros Hab.
  - by eapply ancestor_step.
  - eapply ancestor_step; [done..|]. by apply IH.
Qed.

(** The last link of a chain of parent links. *)
Lemma ancestor_last (cats : cat_map) (n a : jsstring) :
  ancestor cats n a →
  ∃ c info, map_get c cats = Some info ∧ parentNicename info = Some a
            ∧ (c = n ∨ ancestor cats n c).
Proof.
  induction 1 as [n info p Hget Hp|n info p a Hget Hp Hpa (c & ic & Hc & Hpc & Hor)].
  - exists n, info. split; [done|]. split; [done|by left].
  - exists c, ic. split; [done|]. split; [done|]. right.
    destruct Hor as [->|Hpc']; [by eapply ancestor_parent|].
    by eapply ancestor_step.
Qed.

(** A category on a cycle is in the map and has a child on the cycle. *)
Lemma on_cycle_child (cats : cat_map) (n : jsstring) :
  on_cycle cats n →
  is_Some (map_get n cats) ∧ ∃ c, c ∈ children cats n ∧ on_cycle cats c.
Proof.
  intros Hn.
  assert (Hin : is_Some (map_get n cats)) by (inversion Hn; eauto).
  split; [exact Hin|].
  destruct (ancestor_last _ _ _ Hn) as (c & ic & Hc & Hpc & Hor).
  exists c. split; [by eapply children_elem_of|].
  destruct Hor as [->|Hnc]; [done|].
  unfold on_cycle. eapply ancestor_step; [done..|]. done.
Qed.

Lemma foldl_add_child_cycle (fuel : nat) (cats : cat_map) (l : list jsstring)
    (c : jsstring) :
  (∀ names, add fuel cats c names = None) → c ∈ l →
  ∀ acc, foldl (add_child fuel cats) acc l = None.
Proof.
  intros Hc. induction l as [|x l IH]; intros Hin acc; [by apply elem_of_nil in Hin|].
  cbn [foldl]. apply elem_of_cons in Hin as [<-|Hin]; [|by apply IH].
  destruct acc as [names|]; cbn [add_child].
  - rewrite Hc. apply foldl_add_child_None.
  - apply foldl_add_child_None.
Qed.

(** Started on a cycle, [add] reaches every bound on its depth. *)
Lemma add_cycle (cats : cat_map) (fuel : nat) :
  ∀ n names, on_cycle cats n → add fuel cats n names = None.
Proof.
  induction fuel as [|fuel IH]; intros n names Hn; [done|].
  destruct (on_cycle_child _ _ Hn) as [[info Hget] (c & Hc & Hcyc)].
  rewrite add_S, Hget.
  apply (foldl_add_child_cycle fuel cats _ c); [|done].
  intros names'. by apply IH.
Qed.

(** C6, amended.  [getDescendantNames] has no visited set.  Started at a
    category that lies on a parent cycle it never returns: it reaches every
    bound on the depth of its recursion.  Started at a category from which
    the parent links lead to a category without parent (every root is
    one), it returns: a recursion depth of one more than the number of
    categories is never reached, whatever cycles the other categories form,
    and the set it returns holds the category's own name. *)
Theorem getDescendantNames_cycle_or_root (wpCategories : list wp_category) :
  let cats := catByNicename wpCategories in
  (∀ n, on_cycle cats n → ∀ fuel, getDescendantNames fuel cats n = None)
  ∧ (∀ n d, rootdist cats n d →
       ∃ names,
         (∀ fuel, (length cats < fuel)%nat →
            getDescendantNames fuel cats n = Some names)
         ∧ (∀ info, map_get n cats = Some info → name info ∈ names)).
Proof.
  intros cats. split.
  { intros n Hn fuel. by apply add_cycle. }
  intros n d Hr.
  pose proof (catByNicename_ok wpCategories) as Hok. fold cats in Hok.
  destruct (add_terminates cats Hok (S (length cats)) n d [] Hr) as [names Hn]; [lia|].
  exists names. split.
  - intros fuel Hfuel. unfold getDescendantNames.
    eapply add_fuel_le; [|exact Hn]. lia.
  - intros info Hget. by eapply add_own_name.
Qed.

Lemma getDescendantNames_cycle_or_root_witness :
  (∀ fuel, getDescendantNames fuel (catByNicename cyclic_wp) (js "food") = None)
  ∧ ∃ names,
      (∀ fuel, (length (catByNicename cyclic_wp) < fuel)%nat →
         getDescendantNames fuel (catByNicename cyclic_wp) (js "travel") = Some names)
      ∧ (∀ info, map_get (js "travel") (catByNicename cyclic_wp) = Some info →
           name info ∈ names).
Proof.
  destruct (getDescendantNames_cycle_or_root cyclic_wp) as [Hcycle Hroot].
  split.
  - apply Hcycle. eapply ancestor_step; [vm_compute; reflexivity..|].
    eapply ancestor_parent; vm_compute; reflexivity.
  - apply (Hroot (js "travel") 0%nat).
    eapply rootdist_root; vm_compute; reflexivity.
Defined.

(** ** Post reconciler *)

Lemma elem_of_map_of {V} (entries : list (jsstring * V)) e :
  e ∈ map_of entries → e ∈ entries.
Proof.
  unfold map_of.
  assert (H : ∀ m, e ∈ foldl (λ m e, map_set e.1 e.2 m) m entries → e ∈ m ∨ e ∈ entries).
  { induction entries as [|[k v] l IH]; intros m; cbn [foldl]; [by left|].
    intros [[->|?]%elem_of_map_set|?]%IH; [right; by left|by left|right; by right]. }
  intros [?%elem_of_nil|?]%H; done.
Qed.

Lemma map_set_fmap {V W} (h : V → W) (k : jsstring) (v : V) (m : list (jsstring * V)) :
  prod_map id h <$> map_set k v m = map_set k (h v) (prod_map id h <$> m).
Proof.
  induction m as [|[k' v'] m IH]; [done|]. cbn [map_set fmap list_fmap prod_map fst snd id].
  case_bool_decide; [done|]. cbn [fmap list_fmap] in *. by rewrite <- IH.
Qed.

Lemma sort_insert_fmap {A B} (h : A → B) (before : A → A → bool)
    (before' : B → B → bool) (x : A) (l : list A) :
  (∀ a b, before' (h a) (h b) = before a b) →
  h <$> sort_insert before x l = sort_insert before' (h x) (h <$> l).
Proof.
  intros Hb. induction l as [|y l IH]; [done|].
  cbn [sort_insert fmap list_fmap]. rewrite Hb.
  destruct (before y x); [|done]. cbn [fmap list_fmap] in *. by rewrite <- IH.
Qed.

Lemma stable_sort_fmap {A B} (h : A → B) (before : A → A → bool)
    (before' : B → B → bool) (l : list A) :
  (∀ a b, before' (h a) (h b) = before a b) →
  h <$> stable_sort before l = stable_sort before' (h <$> l).
Proof.
  intros Hb. unfold stable_sort. induction l as [|x l IH]; [done|].
  cbn [foldr fmap list_fmap]. rewrite (sort_insert_fmap h before before') by done.
  cbn [fmap list_fmap] in *. by rewrite IH.
Qed.

Section ReconcilerFacts.

Variable parseDate : jsstring → option Z.

Lemma merge_file_draft clock st f :
  is_draft (meta f) = true → merge_file parseDate clock st f = st.
Proof. intros Hd. destruct st as [m t]. unfold merge_file. by rewrite Hd. Qed.

Lemma merge_file_fresh clock m t f :
  is_draft (meta f) = false →
  ∃ dateStr rel t',
    merge_file parseDate clock (m, t) f
    = (map_set (slug_of_file (file f)) (fresh_post parseDate f dateStr rel) m, t')
    ∧ (dated f = true → dateStr = field "date" (meta f)).
Proof.
  intros Hd. unfold merge_file. rewrite Hd.
  destruct (date_or_today clock (meta f) t) as [dateStr t1] eqn:E1.
  destruct (formatDateRel parseDate clock dateStr t1) as [r0 t2].
  destruct (formatDateRel parseDate clock dateStr t2) as [rel t3].
  exists dateStr, rel, t3. split; [done|].
  unfold dated, date_or_today in *. destruct (field "date" (meta f)); [done|].
  intros _. congruence.
Qed.

(** Whatever the loop leaves in the map was there before or is the record of
    a file that is no draft, stored under the file's slug. *)
Lemma merge_files_elem clock (files : list source_file) m t k v :
  (k, v) ∈ (foldl (merge_file parseDate clock) (m, t) files).1 →
  (k, v) ∈ m
  ∨ ∃ f, f ∈ files ∧ is_draft (meta f) = false
         ∧ k = slug_of_file (file f) ∧ post_slug v = k.
Proof.
  revert m t. induction files as [|f files IH]; intros m t; cbn [foldl]; [by left|].
  destruct (is_draft (meta f)) eqn:Hd.
  - rewrite merge_file_draft by done.
    intros [?|(f' & ? & ?)]%IH; [by left|]. right. exists f'. split; [by right|done].
  - destruct (merge_file_fresh clock m t f Hd) as (dateStr & rel & t' & -> & _).
    intros [[[= -> ->]|?]%elem_of_map_set|(f' & ? & ?)]%IH.
    + right. exists f. split; [by left|done].
    + by left.
    + right. exists f'. split; [by right|done].
Qed.

Lemma reconcile_unfold clock postsData content :
  reconcile parseDate clock postsData content
  = stable_sort (newer parseDate)
      (foldl (merge_file parseDate clock)
         (map_of ((λ p, (post_slug p, p)) <$> postsData), 0%nat)
         (filter (λ f, endsWith (file f) (js ".md") = true) content)).1.*2.
Proof. unfold reconcile. by destruct (foldl _ _ _). Qed.

(** A record of the new list was in the persisted list or carries the slug
    of a published file. *)
Lemma reconcile_elem clock postsData content p :
  p ∈ reconcile parseDate clock postsData content →
  p ∈ postsData ∨ post_slug p ∈ fresh_slugs content.
Proof.
  rewrite reconcile_unfold, elem_of_stable_sort, list_elem_of_fmap.
  intros ([k v] & -> & [Hin|(f & Hf & Hd & -> & Hs)]%merge_files_elem); cbn [snd].
  - left. apply elem_of_map_of, list_elem_of_fmap in Hin as (q & [= _ ->] & ?). done.
  - right. rewrite Hs. apply list_elem_of_fmap. exists f. split; [done|].
    apply list_elem_of_filter in Hf as [Hmd ?].
    apply list_elem_of_filter. split; [|done].
    unfold published, md_file. by rewrite Hmd, Hd.
Qed.

Lemma reconcile_skips_draft clock postsData before d after :
  is_draft (meta d) = true →
  reconcile parseDate clock postsData (before ++ d :: after)
  = reconcile parseDate clock postsData (before ++ after).
Proof.
  intros Hd. rewrite !reconcile_unfold, !filter_app, !foldl_app.
  destruct (decide (endsWith (file d) (js ".md") = true)).
  - rewrite filter_cons_True by done. cbn [foldl].
    by rewrite merge_file_draft.
  - by rewrite filter_cons_False by done.
Qed.

(** A stored entry stays where no file that is no draft has its key. *)
Lemma merge_files_keep clock (files : list source_file) m t k v :
  (k, v) ∈ m →
  (∀ f, f ∈ files → is_draft (meta f) = false → slug_of_file (file f) ≠ k) →
  (k, v) ∈ (foldl (merge_file parseDate clock) (m, t) files).1.
Proof.
  revert m t. induction files as [|f files IH]; intros m t Hin Hf; cbn [foldl]; [done|].
  destruct (is_draft (meta f)) eqn:Hd.
  - rewrite merge_file_draft by done. apply IH; [done|].
    intros f' ?. apply Hf. by right.
  - destruct (merge_file_fresh clock m t f Hd) as (dateStr & rel & t' & -> & _).
    apply IH.
    + apply elem_of_map_set_ne; [|done]. intros ->. by eapply Hf; [left|..].
    + intros f' ?. apply Hf. by right.
Qed.

(** A post of a persisted list without repeated slugs is taken over as it
    is when no published file has its slug. *)
Lemma reconcile_keeps clock postsData content p :
  NoDup (post_slug <$> postsData) → p ∈ postsData →
  post_slug p ∉ fresh_slugs content →
  p ∈ reconcile parseDate clock postsData content.
Proof.
  intros Hnd Hp Hfresh.
  rewrite reconcile_unfold, elem_of_stable_sort, list_elem_of_fmap.
  exists (post_slug p, p). split; [done|]. apply merge_files_keep.
  - rewrite map_of_NoDup.
    + apply list_elem_of_fmap. by exists p.
    + rewrite <- list_fmap_compose. exact Hnd.
  - intros f [Hmd Hin]%list_elem_of_filter Hd Heq. apply Hfresh.
    rewrite <- Heq. apply list_elem_of_fmap. exists f. split; [done|].
    apply list_elem_of_filter. split; [|done].
    unfold published, md_file. by rewrite Hmd, Hd.
Qed.

(** C1, amended.  A file whose draft flag is true contributes nothing: the
    run gives the list it gives without the file.  So an entry with the
    file's identifier is in the new list only if it was in the persisted
    list or another published file has the identifier; and the posts of a
    persisted list (without repeated slugs) that no published file replaces
    are all kept, the one with the draft's identifier among them. *)
Theorem draft_contributes_nothing clock (postsData : list post)
    (before : list source_file) (d : source_file) (after : list source_file) :
  is_draft (meta d) = true →
  reconcile parseDate clock postsData (before ++ d :: after)
  = reconcile parseDate clock postsData (before ++ after)
  ∧ (∀ p, p ∈ reconcile parseDate clock postsData (before ++ d :: after) →
          post_slug p = slug_of_file (file d) →
          p ∈ postsData ∨ slug_of_file (file d) ∈ fresh_slugs (before ++ after))
  ∧ (∀ p, NoDup (post_slug <$> postsData) → p ∈ postsData →
          (post_slug p ∉ fresh_slugs (before ++ after)) →
          p ∈ reconcile parseDate clock postsData (before ++ d :: after)).
Proof.
  intros Hd. split; [by apply reconcile_skips_draft|]. split.
  - intros p. rewrite reconcile_skips_draft by done.
    intros [Hp|Hp]%reconcile_elem Heq; [by left|right]. by rewrite <- Heq.
  - intros p Hnd Hp Hfresh. rewrite reconcile_skips_draft by done.
    by apply reconcile_keeps.
Qed.

End ReconcilerFacts.

(** C1, as stated, fails: the persisted list holds the post [hello], the
    file [hello.md] is a draft, and the post is in the new list. *)
Lemma draft_leaves_persisted_entry :
  is_draft (meta hello_draft) = true
  ∧ post_slug old_post = slug_of_file (file hello_draft)
  ∧ reconcile parse_iso_date clock_2024 [old_post] [hello_draft] = [old_post]
  ∧ ¬ (∀ p, p ∈ reconcile parse_iso_date clock_2024 [old_post] [hello_draft] →
            post_slug p ≠ slug_of_file (file hello_draft)).
Proof.
  assert (H : reconcile parse_iso_date clock_2024 [old_post] [hello_draft] = [old_post])
    by (vm_compute; reflexivity).
  split; [vm_compute; reflexivity|]. split; [vm_compute; reflexivity|].
  split; [exact H|]. rewrite H. intros Hno.
  apply (Hno old_post); [by left|]. vm_compute. reflexivity.
Qed.

Lemma draft_contributes_nothing_witness :
  reconcile parse_iso_date clock_2024 [old_post] ([other_file] ++ hello_draft :: [])
  = reconcile parse_iso_date clock_2024 [old_post] ([other_file] ++ [])
  ∧ old_post ∈ reconcile parse_iso_date clock_2024 [old_post]
                 ([other_file] ++ hello_draft :: [])
  ∧ (old_post ∈ [old_post]
     ∨ slug_of_file (file hello_draft) ∈ fresh_slugs ([other_file] ++ [])).
Proof.
  destruct (draft_contributes_nothing parse_iso_date clock_2024 [old_post]
              [other_file] hello_draft []) as (Hsame & Honly & Hkept).
  { vm_compute. reflexivity. }
  assert (Hin : old_post ∈ reconcile parse_iso_date clock_2024 [old_post]
                             ([other_file] ++ hello_draft :: [])).
  { apply Hkept.
    - by_evaluation.
    - by_evaluation.
    - by_evaluation. }
  split; [exact Hsame|]. split; [exact Hin|].
  apply Honly; [exact Hin|]. vm_compute. reflexivity.
Defined.

(** ** Determinism *)

Section Runs.

Variable parseDate : jsstring → option Z.
Variables clock1 clock2 : nat → Z.
Variable fresh : list jsstring.

Lemma blank_fresh_date (p : post) : date (blank_fresh fresh p) = date p.
Proof. unfold blank_fresh. by case_bool_decide. Qed.

Lemma newer_blank_fresh (a b : post) :
  newer parseDate (blank_fresh fresh a) (blank_fresh fresh b) = newer parseDate a b.
Proof. unfold newer. by rewrite !blank_fresh_date. Qed.

Lemma blank_fresh_post (f : source_file) (dateStr rel rel' : jsstring) :
  slug_of_file (file f) ∈ fresh →
  blank_fresh fresh (fresh_post parseDate f dateStr rel)
  = blank_fresh fresh (fresh_post parseDate f dateStr rel').
Proof.
  intros Hin. unfold blank_fresh. cbn [fresh_post post_slug].
  by rewrite !bool_decide_eq_true_2 by done.
Qed.

(** The two runs keep maps that agree up to the blanked text, however far
    apart their clocks and their counts of clock readings are. *)
Lemma merge_files_agree (files : list source_file) m1 t1 m2 t2 :
  Forall (λ f, is_draft (meta f) = false →
               dated f = true ∧ slug_of_file (file f) ∈ fresh) files →
  prod_map id (blank_fresh fresh) <$> m1 = prod_map id (blank_fresh fresh) <$> m2 →
  prod_map id (blank_fresh fresh)
    <$> (foldl (merge_file parseDate clock1) (m1, t1) files).1
  = prod_map id (blank_fresh fresh)
    <$> (foldl (merge_file parseDate clock2) (m2, t2) files).1.
Proof.
  intros Hfiles. revert m1 t1 m2 t2.
  induction Hfiles as [|f files Hf Hfiles IH]; intros m1 t1 m2 t2 Hm; cbn [foldl]; [done|].
  destruct (is_draft (meta f)) eqn:Hd.
  - rewrite !merge_file_draft by done. by apply IH.
  - destruct (Hf eq_refl) as [Hdated Hfresh].
    destruct (merge_file_fresh parseDate clock1 m1 t1 f Hd) as (d1 & r1 & t1' & -> & E1).
    destruct (merge_file_fresh parseDate clock2 m2 t2 f Hd) as (d2 & r2 & t2' & -> & E2).
    rewrite (E1 Hdated), (E2 Hdated). apply IH.
    rewrite !map_set_fmap, Hm. f_equal. by apply blank_fresh_post.
Qed.

Lemma reconcile_agree (postsData : list post) (content : list source_file) :
  (∀ f, f ∈ content → published f = true →
        dated f = true ∧ slug_of_file (file f) ∈ fresh) →
  blank_fresh fresh <$> reconcile parseDate clock1 postsData content
  = blank_fresh fresh <$> reconcile parseDate clock2 postsData content.
Proof.
  intros Hc. rewrite !reconcile_unfold.
  rewrite !(stable_sort_fmap (blank_fresh fresh) (newer parseDate) (newer parseDate))
    by apply newer_blank_fresh.
  f_equal.
  assert (Hsnd : ∀ m : list (jsstring * post),
    blank_fresh fresh <$> m.*2 = (prod_map id (blank_fresh fresh) <$> m).*2).
  { intros m. rewrite <- !list_fmap_compose. by apply list_fmap_ext. }
  rewrite !Hsnd. f_equal. apply merge_files_agree; [|done].
  apply Forall_forall. intros f [Hmd Hin]%list_elem_of_filter Hd.
  apply Hc; [done|]. unfold published, md_file. by rewrite Hmd, Hd.
Qed.

End Runs.

(** C7, as stated, fails: the same file, read by a run in February 2024 and
    by a run in June 2025, gives two lists that differ in [dateRel]. *)
Lemma two_runs_differ :
  reconcile parse_iso_date clock_2024 [] [other_file]
  ≠ reconcile parse_iso_date clock_2025 [] [other_file]
  ∧ dateRel <$> reconcile parse_iso_date clock_2024 [] [other_file] = [js "recently"]
  ∧ dateRel <$> reconcile parse_iso_date clock_2025 [] [other_file] = [js "1 year ago"].
Proof. split; [|split]; vm_compute; [discriminate|reflexivity..]. Qed.

(** C7, amended.  For the same persisted list and the same files, each
    published file carrying a date, two runs give the same records in the
    same order, whatever their clocks read: a record taken over from the
    persisted list is the same in every field, a record built from a file
    is the same in every field but [dateRel], which tells the age of the
    post at the time of the run. *)
Theorem runs_agree_but_dateRel (parseDate : jsstring → option Z)
    (clock1 clock2 : nat → Z) (postsData : list post) (content : list source_file) :
  forallb (λ f, negb (published f) || dated f) content = true →
  blank_fresh (fresh_slugs content) <$> reconcile parseDate clock1 postsData content
  = blank_fresh (fresh_slugs content) <$> reconcile parseDate clock2 postsData content.
Proof.
  intros Hdated. apply reconcile_agree. intros f Hin Hpub. split.
  - rewrite forallb_forall in Hdated. apply list_elem_of_In, Hdated in Hin.
    by rewrite Hpub in Hin.
  - apply list_elem_of_fmap. exists f. split; [done|].
    by apply list_elem_of_filter.
Qed.

Lemma runs_agree_but_dateRel_witness :
  blank_fresh (fresh_slugs [other_file; hello_draft])
    <$> reconcile parse_iso_date clock_2024 [old_post] [other_file; hello_draft]
  = blank_fresh (fresh_slugs [other_file; hello_draft])
    <$> reconcile parse_iso_date clock_2025 [old_post] [other_file; hello_draft].
Proof.
  apply (runs_agree_but_dateRel parse_iso_date clock_2024 clock_2025 [old_post]
           [other_file; hello_draft]).
  vm_compute. reflexivity.
Defined.

(** * Further properties of the scripts *)

(** ** Identifier normalizer *)

(** X1.  Whatever the input, [slugify] returns a usable identifier: not
    empty, at most 80 units, made of word characters, kana, ideographs and
    hyphens only, and without two hyphens in a row. *)
Theorem slugify_safe (s : jsstring) :
  slugify s ≠ []
  ∧ (length (slugify s) ≤ 80)%nat
  ∧ Forall (λ c, slug_char c = true) (slugify s)
  ∧ no_double is_hyphen false (slugify s) = true.
Proof.
  destruct (slugify_shape s) as (Hc & Hd & Hl). cbv zeta in *.
  unfold slugify. destruct (take 80 _) as [|c r] eqn:E; cbn [or_else].
  - split; [done|]. split; [cbn; lia|]. split; [|done].
    repeat constructor.
  - done.
Qed.

(** ** Text helpers of the page templates *)

Lemma replace_unit_app (c : N) (r s t : jsstring) :
  replace_unit c r (s ++ t) = replace_unit c r s ++ replace_unit c r t.
Proof. unfold replace_unit. apply flat_map_app. Qed.

Lemma escapeHtml_app (s t : jsstring) :
  escapeHtml (s ++ t) = escapeHtml s ++ escapeHtml t.
Proof. unfold escapeHtml. by rewrite !replace_unit_app. Qed.

Lemma escapeHtml_unit (c : N) : escapeHtml [c] = html_entity c.
Proof.
  unfold escapeHtml, html_entity, replace_unit. cbn [flat_map app].
  destruct (N.eqb_spec c 38) as [->|H38]; [done|]. cbn [flat_map app].
  destruct (N.eqb_spec c 60) as [->|H60]; [done|]. cbn [flat_map app].
  destruct (N.eqb_spec c 62) as [->|H62]; [done|]. cbn [flat_map app].
  by destruct (N.eqb_spec c 34) as [->|H34].
Qed.

Lemma escapeHtml_cons (c : N) (s : jsstring) :
  escapeHtml (c :: s) = html_entity c ++ escapeHtml s.
Proof. by rewrite <- escapeHtml_unit, <- escapeHtml_app. Qed.

Lemma html_entity_cases (c : N) :
  (c = 38 ∧ html_entity c = js "&amp;") ∨ (c = 60 ∧ html_entity c = js "&lt;")
  ∨ (c = 62 ∧ html_entity c = js "&gt;") ∨ (c = 34 ∧ html_entity c = js "&quot;")
  ∨ (c ≠ 38 ∧ c ≠ 60 ∧ c ≠ 62 ∧ c ≠ 34 ∧ html_entity c = [c]).
Proof.
  unfold html_entity.
  destruct (N.eqb_spec c 38); [by left|].
  destruct (N.eqb_spec c 60); [by right; left|].
  destruct (N.eqb_spec c 62); [by right; right; left|].
  destruct (N.eqb_spec c 34); [by right; right; right; left|].
  by right; right; right; right.
Qed.

(** X2.  The text [escapeHtml] returns holds no [<], no [>] and no double
    quote, so it cannot open or close a tag or end an attribute value. *)
Theorem escapeHtml_no_markup (s : jsstring) :
  Forall (λ c, c ≠ 60 ∧ c ≠ 62 ∧ c ≠ 34) (escapeHtml s).
Proof.
  induction s as [|c s IH]; [constructor|].
  rewrite escapeHtml_cons. apply Forall_app. split; [|done].
  destruct (html_entity_cases c) as [[_ ->]|[[_ ->]|[[_ ->]|[[_ ->]|(?&?&?&?& ->)]]]];
    repeat constructor; done.
Qed.

Lemma escapeHtml_inj (s t : jsstring) :
  escapeHtml s = escapeHtml t → s = t.
Proof.
  revert t. induction s as [|a s IH]; intros [|b t].
  - done.
  - rewrite escapeHtml_cons.
    by destruct (html_entity_cases b) as [[_ ->]|[[_ ->]|[[_ ->]|[[_ ->]|(?&?&?&?& ->)]]]].
  - rewrite escapeHtml_cons.
    by destruct (html_entity_cases a) as [[_ ->]|[[_ ->]|[[_ ->]|[[_ ->]|(?&?&?&?& ->)]]]].
  - rewrite !escapeHtml_cons.
    destruct (html_entity_cases a) as [[-> ->]|[[-> ->]|[[-> ->]|[[-> ->]|(?&?&?&?& ->)]]]];
    destruct (html_entity_cases b) as [[-> ->]|[[-> ->]|[[-> ->]|[[-> ->]|(?&?&?&?& ->)]]]];
      cbn [js app]; intros [= E]; try done; try (by f_equal; apply IH).
    all: subst; f_equal; by apply IH.
Qed.

(** X3.  [escapeHtml] loses nothing: two different texts are escaped to two
    different texts, also when one of them already looks escaped. *)
Theorem escapeHtml_injective (s t : jsstring) :
  s ≠ t → escapeHtml s ≠ escapeHtml t.
Proof. intros Hne E. by apply Hne, escapeHtml_inj. Qed.

Lemma escapeHtml_injective_witness :
  escapeHtml (js "<") ≠ escapeHtml (js "&lt;").
Proof. apply escapeHtml_injective. vm_compute. discriminate. Defined.







Example metaDescription_samples :
  metaDescription (Some (js "one two  three four")) 5 = js "one" ++ [horizontal_ellipsis]
  ∧ metaDescription (Some (js "one two  three four")) 11 = js "one two" ++ [horizontal_ellipsis]
  ∧ metaDescription (Some (js " one  two ")) 7 = js "one two"
  ∧ metaDescription (Some (js "abcdefgh")) 3 = js "abc" ++ [horizontal_ellipsis]
  ∧ metaDescription None 5 = []
  ∧ escapeHtml (js "a<b & " ++ [34] ++ js "c" ++ [34] ++ js ">")
    = js "a&lt;b &amp; &quot;c&quot;&gt;".
Proof. repeat split; vm_compute; reflexivity. Qed.

(** ** Paginator *)

(** X5.  The page-number control never has more than nine entries, and its
    page numbers lie between 1 and the total (or are the single 1). *)
Theorem getPageNumbers_bounded (c T : Z) :
  (length (getPageNumbers c T) ≤ 9)%nat
  ∧ ∀ p, Page p ∈ getPageNumbers c T → (1 ≤ p ≤ Z.max 1 T)%Z.
Proof.
  destruct (decide (T ≤ 1)%Z) as [HT|HT].
  { rewrite getPageNumbers_one by done. split; [cbn; lia|].
    intros p [= ->]%list_elem_of_singleton. lia. }
  rewrite getPageNumbers_many by lia. cbv zeta. split.
  - rewrite !length_app, length_fmap, length_seqZ. cbn [length].
    destruct (_ >? _)%Z, (_ <? _)%Z; cbn [length]; lia.
  - intros p. rewrite !elem_of_app, list_elem_of_fmap.
    intros [Hp|[Hp|[(q & [= ->] & Hq%elem_of_seqZ)|[Hp|Hp]]]].
    + apply list_elem_of_singleton in Hp as [= ->]. lia.
    + destruct (_ >? _)%Z; [apply list_elem_of_singleton in Hp|apply elem_of_nil in Hp]; done.
    + lia.
    + destruct (_ <? _)%Z; [apply list_elem_of_singleton in Hp|apply elem_of_nil in Hp]; done.
    + apply list_elem_of_singleton in Hp as [= ->]. lia.
Qed.

Lemma getPageNumbers_bounded_witness :
  (length (getPageNumbers 7 40) ≤ 9)%nat ∧ (1 ≤ 9 ≤ Z.max 1 40)%Z.
Proof.
  split; [apply (getPageNumbers_bounded 7 40)|].
  apply (proj2 (getPageNumbers_bounded 7 40) 9%Z). by_evaluation.
Defined.

Lemma js_slice_take_drop {A} (a n : nat) (l : list A) :
  js_slice (Z.of_nat a) (Z.of_nat a + Z.of_nat n) l = take n (drop a l).
Proof.
  unfold js_slice.
  destruct (Z.ltb_spec (Z.of_nat a) 0); [lia|].
  destruct (Z.ltb_spec (Z.of_nat a + Z.of_nat n) 0); [lia|].
  destruct (decide (length l ≤ a)%nat) as [Hla|Hla].
  - rewrite (drop_ge l a) by done.
    rewrite drop_ge by lia. by rewrite !take_nil.
  - replace (Z.to_nat (Z.of_nat a `min` Z.of_nat (length l))) with a by lia.
    destruct (decide (length l ≤ a + n)%nat).
    + rewrite (take_ge _ n) by (rewrite length_drop; lia).
      apply take_ge. rewrite length_drop. lia.
    + f_equal. lia.
Qed.

Lemma pagePosts_take_drop {A} (l : list A) (k : nat) :
  pagePosts l (Z.of_nat k + 1) = take 10 (drop (10 * k) l).
Proof.
  unfold pagePosts, PER_PAGE. cbv zeta.
  replace ((Z.of_nat k + 1 - 1) * 10)%Z with (Z.of_nat (10 * k)) by lia.
  apply (js_slice_take_drop (10 * k) 10).
Qed.

Lemma pages_concat {A} (l : list A) (k : nat) :
  concat (pagePosts l <$> seqZ 1 (Z.of_nat k)) = take (10 * k) l.
Proof.
  induction k as [|k IH]; [done|].
  rewrite seqZ_S, fmap_app, concat_app, IH. cbn [fmap list_fmap concat].
  rewrite app_nil_r. replace (1 + Z.of_nat k)%Z with (Z.of_nat k + 1)%Z by lia.
  rewrite pagePosts_take_drop, take_take_drop. f_equal. lia.
Qed.

Lemma pages_cover {A} (l : list A) (T : Z) :
  (Z.of_nat (length l) ≤ T * PER_PAGE)%Z →
  concat (pagePosts l <$> seqZ 1 T) = l.
Proof.
  intros HT. unfold PER_PAGE in HT. destruct (decide (T < 0)%Z).
  { rewrite seqZ_nil by lia. destruct l; [done|]. cbn [length] in HT. lia. }
  rewrite <- (Z2Nat.id T) by lia. rewrite pages_concat.
  apply take_ge. lia.
Qed.

Lemma main_pages_seqZ {A} (postsData : list A) :
  main_pages postsData = seqZ 1 (totalCatPages postsData).
Proof.
  destruct (totalPages_least postsData) as [H1 H2]. cbv zeta in *. unfold PER_PAGE in *.
  unfold main_pages, totalCatPages. fold (totalPages postsData).
  destruct (decide (totalPages postsData ≤ 0)%Z) as [H0|H0].
  - rewrite (seqZ_nil 2) by lia. by replace (1 `max` totalPages postsData)%Z with 1%Z by lia.
  - replace (1 `max` totalPages postsData)%Z with (totalPages postsData) by lia.
    rewrite (seqZ_cons 1) by lia. do 2 f_equal; lia.
Qed.

(** X6.  The pages of a listing divide it.  Put in a row, the pages the
    main listing writes (page 1, then pages 2 to [totalPages]), the pages 1
    to [totalPages] of the archive, and the pages 1 to [totalCatPages] of a
    category listing, are each the list of posts itself, every post on one
    page.  A page of the main listing is empty only when there is no post
    at all, and then it is page 1, which is written all the same; no page
    holds more than ten posts, and all but the last hold ten. *)
Theorem pages_partition {A} (postsData : list A) :
  concat (pagePosts postsData <$> main_pages postsData) = postsData
  ∧ concat (pagePosts postsData <$> seqZ 1 (totalPages postsData)) = postsData
  ∧ concat (pagePosts postsData <$> seqZ 1 (totalCatPages postsData)) = postsData
  ∧ main_pages [] (A := A) = [1%Z]
  ∧ ∀ n, n ∈ main_pages postsData →
      (pagePosts postsData n = [] ↔ postsData = [])
      ∧ (length (pagePosts postsData n) ≤ 10)%nat
      ∧ ((n < totalPages postsData)%Z → length (pagePosts postsData n) = 10%nat).
Proof.
  destruct (totalPages_least postsData) as [H1 H2].
  destruct (totalCatPages_least postsData) as (_ & H3 & _).
  cbv zeta in *.
  split; [rewrite main_pages_seqZ; by apply pages_cover|].
  split; [by apply pages_cover|]. split; [by apply pages_cover|].
  split; [done|].
  intros n. rewrite main_pages_seqZ, elem_of_seqZ. unfold totalCatPages.
  fold (totalPages postsData). intros Hn.
  replace n with (Z.of_nat (Z.to_nat (n - 1)) + 1)%Z by lia.
  rewrite pagePosts_take_drop. unfold PER_PAGE in *.
  assert (Hlen : length (take 10 (drop (10 * Z.to_nat (n - 1)) postsData))
                 = (10 `min` (length postsData - 10 * Z.to_nat (n - 1)))%nat).
  { by rewrite length_take, length_drop. }
  split; [|split].
  - split.
    + intros E. rewrite E in Hlen. cbn [length] in Hlen.
      destruct postsData as [|x l]; [done|]. cbn [length] in *. lia.
    + intros ->. by rewrite drop_nil, take_nil.
  - lia.
  - intros Hlt. lia.
Qed.

Lemma pages_partition_witness :
  ((pagePosts (seq 0 25) 3%Z = [] ↔ seq 0 25 = [])
   ∧ (length (pagePosts (seq 0 25) 3%Z) ≤ 10)%nat
   ∧ ((3 < totalPages (seq 0 25))%Z → length (pagePosts (seq 0 25) 3%Z) = 10%nat))
  ∧ (pagePosts ([] : list nat) 1%Z = [] ↔ ([] : list nat) = []).
Proof.
  split.
  - apply (proj2 (proj2 (proj2 (proj2 (pages_partition (seq 0 25))))) 3%Z). by_evaluation.
  - apply (proj2 (proj2 (proj2 (proj2 (pages_partition ([] : list nat))))) 1%Z). by_evaluation.
Defined.

Lemma js_injective (s t : string) : js s = js t → s = t.
Proof.
  revert t. induction s as [|a s IH]; intros [|b t]; cbn [js]; try done.
  intros [= Hab Hst]. f_equal; [|by apply IH].
  by rewrite <- (ascii_N_embedding a), Hab, ascii_N_embedding.
Qed.

Lemma dec_injective (n m : N) : dec n = dec m → n = m.
Proof.
  unfold dec. intros H%js_injective.
  apply DecimalN.Unsigned.to_uint_inj.
  assert (Hnil : ∀ k, N.to_uint k ≠ Decimal.Nil).
  { intros [|p]; [done|]. apply DecimalPos.Unsigned.to_uint_nonnil. }
  pose proof (NilZero.usu _ (Hnil n)) as Hn.
  pose proof (NilZero.usu _ (Hnil m)) as Hm.
  rewrite H in Hn. congruence.
Qed.

Lemma dec_digits (n : N) : Forall (λ c, is_digit c = true) (dec n) ∧ dec n ≠ [].
Proof.
  unfold dec.
  assert (Hd : ∀ d, Forall (λ c, is_digit c = true) (js (NilEmpty.string_of_uint d))).
  { induction d; cbn; repeat constructor; done. }
  split.
  - unfold NilZero.string_of_uint. destruct (N.to_uint n); try apply Hd.
    repeat constructor.
  - destruct n as [|p]; [done|]. cbn.
    pose proof (DecimalPos.Unsigned.to_uint_nonnil p).
    unfold NilZero.string_of_uint. by destruct (Pos.to_uint p).
Qed.

Lemma num_to_string_injective (n m : Z) : num_to_string n = num_to_string m → n = m.
Proof.
  unfold num_to_string.
  assert (Hneg : ∀ k, js "-" ++ dec k ≠ dec (Z.to_N m) ∧ js "-" ++ dec k ≠ dec (Z.to_N n)).
  { intros k. split; intros E.
    - destruct (dec_digits (Z.to_N m)) as [Hd _]. rewrite <- E in Hd.
      by apply Forall_cons in Hd as [? _].
    - destruct (dec_digits (Z.to_N n)) as [Hd _]. rewrite <- E in Hd.
      by apply Forall_cons in Hd as [? _]. }
  destruct (Z.ltb_spec n 0), (Z.ltb_spec m 0).
  - intros [= E%dec_injective]. lia.
  - intros E. by apply Hneg in E.
  - intros E. symmetry in E. by apply Hneg in E.
  - intros E%dec_injective. lia.
Qed.

(** X7.  Two different page numbers never share an address: [pageUrl] and,
    for one category, [categoryPageUrl] give different pages different
    URLs. *)
Theorem page_urls_distinct :
  (∀ baseUrl n m, n ≠ m → pageUrl n baseUrl ≠ pageUrl m baseUrl)
  ∧ (∀ catSlug baseUrl n m,
       n ≠ m → categoryPageUrl catSlug n baseUrl ≠ categoryPageUrl catSlug m baseUrl).
Proof.
  split.
  - intros b n m Hne. unfold pageUrl.
    destruct (Z.eqb_spec n 1), (Z.eqb_spec m 1); [congruence|..].
    + by intros E%app_inv_head.
    + by intros E%app_inv_head.
    + intros E%app_inv_head%app_inv_head%app_inv_tail.
      by apply num_to_string_injective in E.
  - intros s b n m Hne. unfold categoryPageUrl.
    destruct (Z.eqb_spec n 1), (Z.eqb_spec m 1); [congruence|..].
    + by intros E%app_inv_head%app_inv_head%app_inv_head.
    + by intros E%app_inv_head%app_inv_head%app_inv_head.
    + intros E%app_inv_head%app_inv_head%app_inv_head%app_inv_head%app_inv_tail.
      by apply num_to_string_injective in E.
Qed.

Lemma page_urls_distinct_witness :
  pageUrl 2 (js "../") ≠ pageUrl 12 (js "../")
  ∧ categoryPageUrl (js "Travel") 1 (js "../") ≠ categoryPageUrl (js "Travel") 2 (js "../").
Proof.
  split.
  - apply (proj1 page_urls_distinct (js "../") 2%Z 12%Z). lia.
  - apply (proj2 page_urls_distinct (js "Travel") (js "../") 1%Z 2%Z). lia.
Defined.

(** ** Post reconciler *)

Lemma elem_of_map_set_same {V} (k : jsstring) (v : V) (m : list (jsstring * V)) :
  (k, v) ∈ map_set k v m.
Proof.
  induction m as [|[k' v'] m IH]; cbn [map_set]; [by left|].
  case_bool_decide; [by left|by right].
Qed.

Lemma map_of_keys_NoDup {V} (entries : list (jsstring * V)) :
  NoDup (map_of entries).*1.
Proof.
  unfold map_of.
  assert (H : ∀ m : list (jsstring * V), NoDup m.*1 →
    NoDup (foldl (λ m e, map_set e.1 e.2 m) m entries).*1).
  { induction entries as [|e l IH]; intros m Hm; [done|].
    cbn [foldl]. by apply IH, map_set_NoDup. }
  apply H. constructor.
Qed.

Lemma sort_insert_StronglySorted {A} (key : A → Z) (x : A) (l : list A) :
  StronglySorted (λ a b, (key b ≤ key a)%Z) l →
  StronglySorted (λ a b, (key b ≤ key a)%Z)
    (sort_insert (λ a b, (key b <? key a)%Z) x l).
Proof.
  induction 1 as [|y l Hl IH Hy]; cbn [sort_insert]; [repeat constructor|].
  destruct (Z.ltb_spec (key x) (key y)) as [Hlt|Hge].
  - constructor; [done|].
    apply Forall_forall. intros z Hz.
    rewrite sort_insert_Permutation in Hz.
    rewrite Forall_forall in Hy.
    apply elem_of_cons in Hz as [->|Hz]; [lia|by apply Hy].
  - constructor; [by constructor|]. constructor; [done|].
    eapply Forall_impl; [exact Hy|]. cbn. intros z Hz. lia.
Qed.

Lemma stable_sort_StronglySorted {A} (key : A → Z) (l : list A) :
  StronglySorted (λ a b, (key b ≤ key a)%Z)
    (stable_sort (λ a b, (key b <? key a)%Z) l).
Proof.
  unfold stable_sort. induction l as [|x l IH]; [constructor|].
  cbn [foldr]. by apply sort_insert_StronglySorted.
Qed.

Lemma sort_insert_ext {A} (f g : A → A → bool) (x : A) (l : list A) :
  (∀ y, y ∈ l → f y x = g y x) → sort_insert f x l = sort_insert g x l.
Proof.
  induction l as [|y l IH]; intros H; [done|]. cbn [sort_insert].
  rewrite (H y) by left. destruct (g y x); [|done].
  f_equal. apply IH. intros z Hz. apply H. by right.
Qed.

Lemma stable_sort_ext {A} (f g : A → A → bool) (l : list A) :
  (∀ x y, x ∈ l → y ∈ l → f x y = g x y) → stable_sort f l = stable_sort g l.
Proof.
  unfold stable_sort. induction l as [|x l IH]; intros H; [done|].
  cbn [foldr]. rewrite IH by (intros; apply H; by right).
  apply sort_insert_ext. intros y Hy.
  apply H; [right|left]. by apply elem_of_stable_sort in Hy.
Qed.

(** Posts of equal date keep their order. *)
Lemma stable_sort_stable {A} (key : A → Z) (k : Z) (l : list A) :
  filter (λ a, key a = k) (stable_sort (λ a b, (key b <? key a)%Z) l)
  = filter (λ a, key a = k) l.
Proof.
  unfold stable_sort. induction l as [|x l IH]; [done|]. cbn [foldr].
  rewrite filter_cons, <- IH. clear IH.
  generalize (foldr (sort_insert (λ a b : A, (key b <? key a)%Z)) [] l). intros s.
  induction s as [|y s IHs]; cbn [sort_insert]; [by rewrite filter_cons|].
  destruct (Z.ltb_spec (key x) (key y)) as [Hlt|Hge]; [|by rewrite filter_cons].
  rewrite !(filter_cons _ y), IHs.
  destruct (decide (key y = k)), (decide (key x = k)); try done. lia.
Qed.

Section ReconcilerInvariants.

Variable parseDate : jsstring → option Z.
Variable clock : nat → Z.

Lemma merge_file_keyed st f :
  keyed_by_slug st.1 → keyed_by_slug (merge_file parseDate clock st f).1.
Proof.
  destruct st as [m t]. intros [Hnd Hk]. cbn [fst] in *.
  destruct (is_draft (meta f)) eqn:Hd.
  - rewrite merge_file_draft by done. done.
  - destruct (merge_file_fresh parseDate clock m t f Hd) as (d & r & t' & -> & _).
    split; [by apply map_set_NoDup|].
    intros k v [[= -> ->]|?]%elem_of_map_set; [done|by apply Hk].
Qed.

Lemma merge_files_keyed (files : list source_file) st :
  keyed_by_slug st.1 → keyed_by_slug (foldl (merge_file parseDate clock) st files).1.
Proof.
  revert st. induction files as [|f files IH]; intros st Hst; [done|].
  cbn [foldl]. by apply IH, merge_file_keyed.
Qed.

Lemma keyed_by_slug_values (m : list (jsstring * post)) :
  keyed_by_slug m → post_slug <$> m.*2 = m.*1.
Proof.
  intros [_ Hk]. induction m as [|[k v] m IH]; [done|].
  cbn [fmap list_fmap fst snd]. rewrite (Hk k v) by left.
  f_equal. apply IH. intros k' v' ?. apply Hk. by right.
Qed.

(** X8.  The identifier is unique across the list the reconciler returns:
    no two of its records have the same slug, whatever the persisted list
    and the files were. *)
Theorem reconcile_slugs_NoDup (postsData : list post) (content : list source_file) :
  NoDup (post_slug <$> reconcile parseDate clock postsData content).
Proof.
  rewrite reconcile_unfold.
  set (m := (foldl _ _ _).1).
  assert (Hm : keyed_by_slug m).
  { apply merge_files_keyed. cbn [fst]. split; [apply map_of_keys_NoDup|].
    intros k v Hin%elem_of_map_of. by apply list_elem_of_fmap in Hin as (p & [= -> ->] & _). }
  rewrite (fmap_Permutation _ _ _ (stable_sort_Permutation _ _)).
  rewrite keyed_by_slug_values by done. apply Hm.
Qed.

(** X9.  When every date of the new list is one the engine can read, the
    list is ordered newest first: each record is at least as recent as all
    the records after it. *)
Theorem reconcile_newest_first (postsData : list post) (content : list source_file) :
  (∀ p, p ∈ reconcile parseDate clock postsData content →
        is_Some (post_time parseDate p)) →
  StronglySorted (not_older parseDate) (reconcile parseDate clock postsData content).
Proof.
  rewrite reconcile_unfold. set (l := (foldl _ _ _).1.*2). intros Hvalid.
  set (key := λ p : post, default 0%Z (post_time parseDate p)).
  assert (Hl : ∀ p, p ∈ l → post_time parseDate p = Some (key p)).
  { intros p Hp. apply elem_of_stable_sort with (before := newer parseDate) in Hp.
    destruct (Hvalid p Hp) as [t Ht]. unfold key. by rewrite Ht. }
  rewrite (stable_sort_ext (newer parseDate) (λ a b, (key b <? key a)%Z)).
  2:{ intros x y Hx Hy. unfold newer. fold (post_time parseDate x) (post_time parseDate y).
      by rewrite (Hl x Hx), (Hl y Hy). }
  assert (Hs := stable_sort_StronglySorted key l).
  assert (Hin : ∀ p, p ∈ stable_sort (λ a b, (key b <? key a)%Z) l → p ∈ l).
  { intros p. by rewrite elem_of_stable_sort. }
  revert Hs Hin. generalize (stable_sort (λ a b, (key b <? key a)%Z) l). intros s Hs.
  induction Hs as [|a s Hs IH Ha]; intros Hin; constructor.
  - apply IH. intros p Hp. apply Hin. by right.
  - apply Forall_forall. intros b Hb. rewrite Forall_forall in Ha.
    exists (key a), (key b). split; [apply Hl, Hin; by left|].
    split; [apply Hl, Hin; by right|]. by apply Ha.
Qed.

(** X10.  A published file takes precedence over the persisted list and
    over earlier files of the same name: the new list holds the record made
    of the file's own title, date, categories and excerpt, with nothing of
    an older record in it. *)
Theorem reconcile_fresh_wins (postsData : list post)
    (before : list source_file) (f : source_file) (after : list source_file) :
  published f = true →
  slug_of_file (file f) ∉ fresh_slugs after →
  ∃ dateStr rel,
    fresh_post parseDate f dateStr rel
      ∈ reconcile parseDate clock postsData (before ++ f :: after)
    ∧ (dated f = true → dateStr = field "date" (meta f)).
Proof.
  intros [Hmd Hd%negb_true_iff]%andb_true_iff Hafter.
  rewrite reconcile_unfold, filter_app, filter_cons_True by done.
  rewrite foldl_app. cbn [foldl].
  destruct (foldl _ _ (filter _ before)) as [m t].
  destruct (merge_file_fresh parseDate clock m t f Hd) as (dateStr & rel & t' & -> & Hdate).
  exists dateStr, rel. split; [|done].
  apply elem_of_stable_sort, list_elem_of_fmap.
  exists (slug_of_file (file f), fresh_post parseDate f dateStr rel). split; [done|].
  apply merge_files_keep; [apply elem_of_map_set_same|].
  intros f' [Hmd' Hin]%list_elem_of_filter Hd' Heq. apply Hafter.
  rewrite <- Heq. apply list_elem_of_fmap. exists f'. split; [done|].
  apply list_elem_of_filter. split; [|done].
  unfold published. fold (md_file f') in Hmd'. by rewrite Hmd', Hd'.
Qed.

End ReconcilerInvariants.

Lemma reconcile_newest_first_witness :
  StronglySorted (not_older parse_iso_date)
    (reconcile parse_iso_date clock_2024 [old_post] [other_file; hello_draft]).
Proof.
  apply (reconcile_newest_first parse_iso_date clock_2024 [old_post]
           [other_file; hello_draft]).
  intros p Hp.
  assert (E : reconcile parse_iso_date clock_2024 [old_post] [other_file; hello_draft]
              = [fresh_post parse_iso_date other_file (js "2024-02-01") (js "recently");
                 old_post]) by (vm_compute; reflexivity).
  rewrite E in Hp.
  apply elem_of_cons in Hp as [->|Hp]; [by eexists|].
  apply list_elem_of_singleton in Hp as ->. by eexists.
Defined.

Lemma reconcile_fresh_wins_witness :
  ∃ dateStr rel,
    fresh_post parse_iso_date other_file dateStr rel
      ∈ reconcile parse_iso_date clock_2024 [old_post] ([hello_draft] ++ other_file :: [])
    ∧ (dated other_file = true → dateStr = field "date" (meta other_file)).
Proof.
  apply (reconcile_fresh_wins parse_iso_date clock_2024 [old_post] [hello_draft]
           other_file []).
  - vm_compute. reflexivity.
  - by_evaluation.
Defined.

(** ** Category tree builder: the name set of a category *)

Lemma elem_of_set_add (x y : jsstring) (s : list jsstring) :
  y ∈ set_add x s ↔ y = x ∨ y ∈ s.
Proof.
  unfold set_add, set_has. case_bool_decide.
  - split; [by right|]. by intros [->|?].
  - rewrite elem_of_app, list_elem_of_singleton. tauto.
Qed.

Lemma set_add_NoDup (x : jsstring) (s : list jsstring) :
  NoDup s → NoDup (set_add x s).
Proof.
  intros Hs. unfold set_add, set_has. case_bool_decide; [done|].
  apply NoDup_app. split; [done|]. split; [|apply NoDup_singleton].
  by intros y Hy ->%list_elem_of_singleton.
Qed.

Lemma add_NoDup (cats : cat_map) (fuel : nat) (n : jsstring) (names r : list jsstring) :
  add fuel cats n names = Some r → NoDup names → NoDup r.
Proof.
  revert n names r. induction fuel as [|fuel IH]; intros n names r; [done|].
  rewrite add_S. destruct (map_get n cats) as [info|]; [|by intros [= ->]].
  intros Hfold Hnd. apply (set_add_NoDup (name info)) in Hnd.
  revert Hfold Hnd. generalize (set_add (name info) names).
  generalize (children cats n).
  induction l as [|c l IHl]; intros acc; cbn [foldl]; [by intros [= ->]|].
  cbn [add_child]. destruct (add fuel cats c acc) as [r'|] eqn:E.
  - intros Hfold Hacc. apply (IHl r'); [done|]. by eapply IH.
  - by rewrite foldl_add_child_None.
Qed.

(** Every name [add] adds is the name of a category at or below [n]. *)
Lemma add_sound (cats : cat_map) :
  cat_map_ok cats →
  ∀ fuel n names r,
    add fuel cats n names = Some r →
    ∀ y, y ∈ r → y ∈ names ∨ name_below cats n y.
Proof.
  intros Hok. induction fuel as [|fuel IH]; intros n names r; [done|].
  rewrite add_S. destruct (map_get n cats) as [info|] eqn:Hget.
  2:{ intros [= ->] y Hy. by left. }
  intros Hfold y Hy.
  assert (Hgen : ∀ (l : list jsstring) acc,
    (∀ c, c ∈ l → c ∈ children cats n) →
    foldl (add_child fuel cats) (Some acc) l = Some r →
    y ∈ acc ∨ name_below cats n y).
  { induction l as [|c l IHl]; intros acc Hl; cbn [foldl]; [intros [= ->]; by left|].
    cbn [add_child]. destruct (add fuel cats c acc) as [r'|] eqn:E.
    2:{ by rewrite foldl_add_child_None. }
    intros Hrest. destruct (IHl r') as [Hr'|Hb]; [intros; apply Hl; by right|done| |by right].
    destruct (IH _ _ _ E y Hr') as [?|(m & im & Hdesc & Hm & Hy')]; [by left|right].
    destruct (elem_of_children cats n c Hok) as (ic & Hc & Hp); [apply Hl; by left|].
    exists m, im. split; [|done]. by eapply descendant_child. }
  destruct (Hgen (children cats n) (set_add (name info) names)) as [Hin|Hb];
    [done|done| |by right].
  apply elem_of_set_add in Hin as [->|?]; [right|by left].
  exists n, info. split; [by eapply descendant_self|done].
Qed.

(** Every category at or below [n] has its name added. *)
Lemma add_complete (cats : cat_map) (n m : jsstring) :
  descendant cats n m →
  ∀ info fuel names r,
    map_get m cats = Some info → add fuel cats n names = Some r → name info ∈ r.
Proof.
  induction 1 as [n info' Hget'|n c ic m [inf Hn] Hc Hp Hdesc IH];
    intros info fuel names r Hget.
  { intros Hadd. by eapply add_own_name. }
  destruct fuel as [|fuel]; [done|]. rewrite add_S, Hn.
  pose proof (children_elem_of cats n c ic Hc Hp) as Hin.
  revert Hin. generalize (set_add (name inf) names). generalize (children cats n).
  induction l as [|c' l IHl]; intros acc Hin; [by apply elem_of_nil in Hin|].
  cbn [foldl add_child]. destruct (add fuel cats c' acc) as [r'|] eqn:E.
  2:{ by rewrite foldl_add_child_None. }
  intros Hrest. apply elem_of_cons in Hin as [<-|Hin].
  - assert (Hr' : name info ∈ r') by (by eapply IH).
    clear -Hrest Hr'. revert r' Hrest Hr'.
    induction l as [|c'' l IHl]; intros r'; cbn [foldl]; [by intros [= ->]|].
    cbn [add_child]. destruct (add fuel cats c'' r') as [r''|] eqn:E.
    + intros Hrest Hr'. apply (IHl r''); [done|]. by eapply add_grows.
    + by rewrite foldl_add_child_None.
  - by apply (IHl r').
Qed.

(** X11.  For a category from which the parent links lead to a root, the
    name set [getDescendantNames] returns is exactly the set of the names
    of the category itself and of all categories below it, each name once:
    a post tagged with a sub-category's name is in the listing of every
    category above it, and no other post is. *)
Theorem getDescendantNames_exact (wpCategories : list wp_category)
    (n : jsstring) (d : nat) :
  let cats := catByNicename wpCategories in
  rootdist cats n d →
  ∃ names,
    getDescendantNames (S (length cats)) cats n = Some names
    ∧ NoDup names
    ∧ ∀ y, y ∈ names ↔ name_below cats n y.
Proof.
  intros cats Hr. pose proof (catByNicename_ok wpCategories) as Hok. fold cats in Hok.
  destruct (add_terminates cats Hok (S (length cats)) n d [] Hr) as [names Hn]; [lia|].
  exists names. split; [done|]. split; [eapply add_NoDup; [done|constructor]|].
  intros y. split.
  - intros Hy. destruct (add_sound cats Hok _ _ _ _ Hn y Hy) as [?%elem_of_nil|?]; done.
  - intros (m & info & Hdesc & Hm & <-). by eapply add_complete.
Qed.

Lemma getDescendantNames_exact_witness :
  ∃ names,
    getDescendantNames (S (length (catByNicename cyclic_wp)))
      (catByNicename cyclic_wp) (js "travel") = Some names
    ∧ NoDup names
    ∧ ∀ y, y ∈ names ↔ name_below (catByNicename cyclic_wp) (js "travel") y.
Proof.
  apply (getDescendantNames_exact cyclic_wp (js "travel") 0).
  eapply rootdist_root; vm_compute; reflexivity.
Defined.

(** ** Imported posts and their slugs *)

Lemma startsWith_app (s t : jsstring) : startsWith (s ++ t) s = true.
Proof. induction s as [|c s IH]; [by destruct t|]. cbn. by rewrite N.eqb_refl. Qed.

Lemma startsWith_trans (s t u : jsstring) :
  startsWith s t = true → startsWith t u = true → startsWith s u = true.
Proof.
  revert s t. induction u as [|c u IH]; intros s t; [by destruct s|].
  destruct t as [|b t]; [done|]. destruct s as [|a s]; [done|]. cbn.
  intros [Hab Hst]%andb_true_iff [Hbc Htu]%andb_true_iff.
  apply N.eqb_eq in Hab, Hbc. subst. rewrite N.eqb_refl. cbn. by eapply IH.
Qed.

(** The [while] loop ends: its candidates grow, so they are all different,
    and only as many as the set is large can be in the set. *)
Lemma free_slug_terminates (slugUsed : list jsstring) (suffix : jsstring) :
  suffix ≠ [] →
  ∀ fuel (seen : list jsstring) slug,
    NoDup seen →
    (∀ x, x ∈ seen → x ∈ slugUsed ∧ (length x < length slug)%nat) →
    (length slugUsed < fuel + length seen)%nat →
    ∃ r, free_slug fuel slugUsed suffix slug = Some r.
Proof.
  intros Hsuf. induction fuel as [|fuel IH]; intros seen slug Hnd Hseen Hfuel.
  - exfalso. assert (length seen ≤ length slugUsed)%nat; [|lia].
    apply submseteq_length, NoDup_submseteq; [done|]. intros x Hx. by apply Hseen.
  - cbn [free_slug]. unfold set_has. case_bool_decide as Hin; [|by eexists].
    apply (IH (slug :: seen)).
    + apply NoDup_cons. split; [|done]. intros Hs. apply Hseen in Hs. lia.
    + intros x [->|Hx]%elem_of_cons; rewrite length_app.
      * split; [done|]. destruct suffix; [done|]. cbn. lia.
      * destruct (Hseen x Hx). split; [done|]. lia.
    + cbn [length]. lia.
Qed.

Lemma free_slug_spec (fuel : nat) (slugUsed : list jsstring) (suffix slug r : jsstring) :
  free_slug fuel slugUsed suffix slug = Some r →
  (r ∉ slugUsed) ∧ startsWith r slug = true.
Proof.
  revert slug. induction fuel as [|fuel IH]; intros slug; [done|].
  cbn [free_slug]. unfold set_has. case_bool_decide as Hin.
  - intros [Hr Hs]%IH. split; [done|].
    eapply startsWith_trans; [exact Hs|apply startsWith_app].
  - intros [= <-]. split; [done|]. rewrite <- (app_nil_r slug) at 1.
    apply startsWith_app.
Qed.

Lemma free_slug_fuel_S (fuel : nat) (slugUsed : list jsstring) (suffix slug r : jsstring) :
  free_slug fuel slugUsed suffix slug = Some r →
  free_slug (S fuel) slugUsed suffix slug = Some r.
Proof.
  revert slug. induction fuel as [|fuel IH]; intros slug; [done|].
  intros H. cbn [free_slug] in *. destruct (set_has slug slugUsed); [|done].
  by apply IH.
Qed.

Lemma free_slug_fuel_le (fuel fuel' : nat) (slugUsed : list jsstring)
    (suffix slug r : jsstring) :
  (fuel ≤ fuel')%nat → free_slug fuel slugUsed suffix slug = Some r →
  free_slug fuel' slugUsed suffix slug = Some r.
Proof. induction 1; [done|]. intros. by apply free_slug_fuel_S, IHle. Qed.

Lemma dash_number_nonempty (i : nat) : js "-" ++ dec (N.of_nat (i + 1)) ≠ [].
Proof. done. Qed.

Lemma length_set_add_new (x : jsstring) (s : list jsstring) :
  x ∉ s → length (set_add x s) = S (length s).
Proof.
  intros Hx. unfold set_add, set_has. rewrite bool_decide_eq_false_2 by done.
  rewrite length_app. cbn. lia.
Qed.

Lemma importSlugs_from_returns (posts : list wp_item) :
  ∀ fuel i slugUsed,
    (length slugUsed + length posts ≤ fuel)%nat →
    ∃ slugs, importSlugs_from fuel i slugUsed posts = Some slugs.
Proof.
  induction posts as [|item rest IH]; intros fuel i used Hfuel; [by eexists|].
  cbn [importSlugs_from length] in *.
  destruct (free_slug_terminates used _ (dash_number_nonempty i) fuel []
              (getPostSlug item)) as [slug Hslug].
  { constructor. } { by intros x ?%elem_of_nil. } { cbn. lia. }
  rewrite Hslug. destruct (free_slug_spec _ _ _ _ _ Hslug) as [Hnew _].
  destruct (IH fuel (S i) (set_add slug used)) as [slugs ->].
  { rewrite length_set_add_new by done. lia. }
  by eexists.
Qed.

Lemma importSlugs_from_spec (posts : list wp_item) :
  ∀ fuel i slugUsed slugs,
    importSlugs_from fuel i slugUsed posts = Some slugs →
    NoDup slugs
    ∧ (∀ x, x ∈ slugs → x ∉ slugUsed)
    ∧ Forall2 (λ item slug, startsWith slug (getPostSlug item) = true) posts slugs.
Proof.
  induction posts as [|item rest IH]; intros fuel i used slugs; cbn [importSlugs_from].
  { intros [= <-]. split; [constructor|]. split; [by intros x ?%elem_of_nil|constructor]. }
  destruct (free_slug _ _ _ _) as [slug|] eqn:Hslug; [|done].
  destruct (importSlugs_from _ _ _ rest) as [rest_slugs|] eqn:Hrest; [|done].
  cbn. intros [= <-].
  destruct (free_slug_spec _ _ _ _ _ Hslug) as [Hnew Hpre].
  destruct (IH _ _ _ _ Hrest) as (Hnd & Hfresh & Hall).
  split; [|split].
  - apply NoDup_cons. split; [|done]. intros Hin. apply (Hfresh _ Hin).
    by apply elem_of_set_add; left.
  - intros x [->|Hx]%elem_of_cons; [done|]. intros Hin. apply (Hfresh _ Hx).
    by apply elem_of_set_add; right.
  - by constructor.
Qed.

Lemma importSlugs_from_fuel_le (posts : list wp_item) :
  ∀ fuel fuel' i slugUsed slugs,
    (fuel ≤ fuel')%nat →
    importSlugs_from fuel i slugUsed posts = Some slugs →
    importSlugs_from fuel' i slugUsed posts = Some slugs.
Proof.
  induction posts as [|item rest IH]; intros fuel fuel' i used slugs Hle; [done|].
  cbn [importSlugs_from].
  destruct (free_slug fuel _ _ _) as [slug|] eqn:Hslug; [|done].
  rewrite (free_slug_fuel_le _ _ _ _ _ _ Hle Hslug).
  destruct (importSlugs_from fuel _ _ rest) as [rest_slugs|] eqn:Hrest; [|done].
  by rewrite (IH _ _ _ _ _ Hle Hrest).
Qed.

(** X12.  The import gives every published post its own slug.  The loop
    that lengthens a slug already in use always ends, the slugs it stores
    are pairwise different, there is one for each published post, and each
    begins with the slug [getPostSlug] proposes for its post. *)
Theorem importSlugs_unique (parseDate : jsstring → option Z) (items : list wp_item) :
  ∃ slugs,
    (∀ fuel, (length items ≤ fuel)%nat → importSlugs parseDate fuel items = Some slugs)
    ∧ NoDup slugs
    ∧ Forall2 (λ item slug, startsWith slug (getPostSlug item) = true)
        (import_posts parseDate items) slugs.
Proof.
  assert (Hlen : (length (import_posts parseDate items) ≤ length items)%nat).
  { unfold import_posts. rewrite stable_sort_Permutation. apply length_filter. }
  destruct (importSlugs_from_returns (import_posts parseDate items)
              (length items) 0 []) as [slugs Hslugs]; [cbn; lia|].
  exists slugs. split.
  - intros fuel Hfuel. unfold importSlugs. by eapply importSlugs_from_fuel_le.
  - destruct (importSlugs_from_spec _ _ _ _ _ Hslugs) as (? & _ & ?). done.
Qed.

Lemma importSlugs_unique_witness :
  ∃ slugs, importSlugs parse_iso_date 5 sample_items = Some slugs ∧ NoDup slugs.
Proof.
  destruct (importSlugs_unique parse_iso_date sample_items) as (slugs & Hrun & Hnd & _).
  exists slugs. split; [|exact Hnd]. apply Hrun. unfold sample_items. simpl. lia.
Defined.

Example importSlugs_samples :
  importSlugs parse_iso_date 5 sample_items
  = Some [js "ramen"; js "ramen-2"; js "ramen-2-3"].
Proof. vm_compute. reflexivity. Qed.

(** ** Legacy identifier resolver: further properties *)

Lemma replace_unit_id (c : N) (r s : jsstring) :
  Forall (λ x, (x =? c) = false) s → replace_unit c r s = s.
Proof.
  unfold replace_unit. induction 1 as [|x s Hx Hs IH]; [done|].
  cbn [flat_map]. by rewrite Hx, IH.
Qed.

Lemma narrow_app (lo hi : N) (s t : jsstring) :
  narrow lo hi (s ++ t) = narrow lo hi s ++ narrow lo hi t.
Proof. unfold narrow. apply fmap_app. Qed.

Lemma unit_replacements_app (s t : jsstring) :
  unit_replacements (s ++ t) = unit_replacements s ++ unit_replacements t.
Proof. unfold unit_replacements. by rewrite !replace_unit_app, !narrow_app, !replace_unit_app. Qed.

Lemma unit_replacements_unit (c : N) : unit_replacements [c] = norm_unit c.
Proof.
  classify c; try (vm_compute; reflexivity);
    unfold unit_replacements, norm_unit, replace_unit, narrow,
      wave_dash_fullwidth, wave_dash, ideographic_comma, hyphen;
    unit_eval; reflexivity.
Qed.

Lemma unit_replacements_cons (c : N) (s : jsstring) :
  unit_replacements (c :: s) = norm_unit c ++ unit_replacements s.
Proof. by rewrite <- unit_replacements_unit, <- unit_replacements_app. Qed.

Lemma norm_unit_unreplaced (c : N) : Forall (λ x, unreplaced x = true) (norm_unit c).
Proof.
  classify c; try (repeat constructor);
    unfold norm_unit, unreplaced, wave_dash_fullwidth, wave_dash, ideographic_comma,
      hyphen;
    unit_eval; repeat constructor; unit_eval; reflexivity.
Qed.

Lemma norm_unit_plain (c : N) : unreplaced c = true → norm_unit c = [c].
Proof.
  classify c; try (vm_compute; discriminate);
    unfold norm_unit, unreplaced, wave_dash_fullwidth, wave_dash, ideographic_comma,
      hyphen;
    unit_eval; done.
Qed.

Lemma unit_replacements_unreplaced (s : jsstring) :
  Forall (λ x, unreplaced x = true) (unit_replacements s).
Proof.
  induction s as [|c s IH]; [constructor|].
  rewrite unit_replacements_cons. apply Forall_app. split; [apply norm_unit_unreplaced|done].
Qed.

Lemma unit_replacements_id (s : jsstring) :
  Forall (λ x, unreplaced x = true) s → unit_replacements s = s.
Proof.
  induction 1 as [|c s Hc Hs IH]; [done|].
  by rewrite unit_replacements_cons, norm_unit_plain, IH.
Qed.

Lemma Forall_replace_runs_space (P : N → Prop) (x : N) (b : bool) (s : jsstring) :
  P x → Forall (λ c, is_space c = false → P c) s →
  Forall P (replace_runs_from is_space [x] b s).
Proof.
  intros Hx Hs. revert b. induction Hs as [|c s Hc Hs IH]; intros b; [constructor|].
  cbn [replace_runs_from]. destruct (is_space c) eqn:E.
  - destruct b; cbn [app]; [apply IH|]. constructor; [done|apply IH].
  - constructor; [by apply Hc|apply IH].
Qed.

(** What [normalizeForMatch] returns: none of the units it replaces, no white
    space, no two hyphens in a row. *)
Lemma normalizeForMatch_shape (s : jsstring) :
  Forall (λ c, plain_unit c = true) (normalizeForMatch s)
  ∧ no_double is_hyphen false (normalizeForMatch s) = true.
Proof.
  rewrite (eq_refl : normalizeForMatch s
    = trim (replace_runs is_hyphen [hyphen]
              (replace_runs is_space [hyphen] (unit_replacements s)))).
  assert (Hplain : Forall (λ c, plain_unit c = true)
            (replace_runs is_hyphen [hyphen]
               (replace_runs is_space [hyphen] (unit_replacements s)))).
  { apply Forall_replace_runs_from; [done|]. apply Forall_replace_runs_space; [done|].
    eapply Forall_impl; [apply unit_replacements_unreplaced|].
    cbn. intros c Hc Hsp. unfold plain_unit. by rewrite Hc, Hsp. }
  rewrite trim_id.
  - split; [done|]. by apply no_double_replace_runs_from.
  - eapply Forall_impl; [exact Hplain|]. cbn. intros c [_ H]%andb_true_iff.
    by apply negb_true_iff.
Qed.

(** X13.  [normalizeForMatch] is idempotent, and its result holds no white
    space, none of the full-width, circled or wave-dash units it replaces,
    and no two hyphens in a row. *)
Theorem normalizeForMatch_idempotent (s : jsstring) :
  normalizeForMatch (normalizeForMatch s) = normalizeForMatch s
  ∧ Forall (λ c, plain_unit c = true) (normalizeForMatch s)
  ∧ no_double is_hyphen false (normalizeForMatch s) = true.
Proof.
  destruct (normalizeForMatch_shape s) as [Hp Hd]. split; [|done].
  generalize dependent (normalizeForMatch s). intros n Hp Hd.
  assert (Hu : Forall (λ c, unreplaced c = true) n).
  { eapply Forall_impl; [exact Hp|]. cbn. by intros c [? _]%andb_true_iff. }
  assert (Hs : Forall (λ c, is_space c = false) n).
  { eapply Forall_impl; [exact Hp|]. cbn. intros c [_ H]%andb_true_iff.
    by apply negb_true_iff. }
  rewrite (eq_refl : normalizeForMatch n
    = trim (replace_runs is_hyphen [hyphen]
              (replace_runs is_space [hyphen] (unit_replacements n)))).
  rewrite unit_replacements_id by done. unfold replace_runs.
  rewrite (replace_runs_from_id is_space) by done.
  rewrite collapse_hyphens_id by done. by apply trim_id.
Qed.

Lemma buildUrlToRelative_fold (urlToPath : list (jsstring * jsstring))
    (S : list jsstring) (st : list (jsstring * jsstring) * list unmapped_entry) :
  (∀ k, k ∈ st.1.*1 → k ∉ urlToPath.*1) → NoDup urlToPath.*1 →
  foldl
    (λ st e,
       let wpSlug := postSlugFromWpPath e.2 in
       match findStaticSlug wpSlug S with
       | Some ((_ :: _) as slug) => (map_set e.1 (post_target slug) st.1, st.2)
       | _ => (st.1, st.2 ++ [{| unmapped_url := e.1; unmapped_wpPath := e.2;
                                 unmapped_wpSlug := wpSlug |}])
       end) st urlToPath
  = (st.1 ++ omap (resolved_entry S) urlToPath,
     st.2 ++ omap (unresolved_entry S) urlToPath).
Proof.
  revert st. induction urlToPath as [|e l IH]; intros [m u] Hdisj Hnd.
  { cbn. by rewrite !app_nil_r. }
  cbn [fmap list_fmap fst snd] in *. apply NoDup_cons in Hnd as [He Hnd].
  cbn [foldl omap list_omap]. cbv beta zeta.
  assert (Hrest : ∀ k, k ∈ m.*1 → k ∉ l.*1).
  { intros k Hk Hin. apply (Hdisj k Hk). by right. }
  destruct (findStaticSlug (postSlugFromWpPath e.2) S) as [[|c s]|] eqn:E.
  - assert (Hr : resolved_entry S e = None) by (unfold resolved_entry; by rewrite E).
    assert (Hu : unresolved_entry S e = Some {| unmapped_url := e.1; unmapped_wpPath := e.2;
                    unmapped_wpSlug := postSlugFromWpPath e.2 |})
      by (unfold unresolved_entry; by rewrite Hr).
    rewrite Hr, Hu, IH by done. cbn [fst snd]. by rewrite <- app_assoc.
  - assert (Hr : resolved_entry S e = Some (e.1, post_target (c :: s)))
      by (unfold resolved_entry; by rewrite E).
    assert (Hu : unresolved_entry S e = None) by (unfold unresolved_entry; by rewrite Hr).
    rewrite Hr, Hu. cbn [fst snd]. rewrite map_set_new.
    2:{ intros Hin. apply (Hdisj _ Hin). by left. }
    rewrite IH; cbn [fst snd]; [by rewrite <- app_assoc| |done].
    intros k. rewrite fmap_app, elem_of_app. cbn.
    intros [Hk|Hk%list_elem_of_singleton]; [by apply Hrest|by subst].
  - assert (Hr : resolved_entry S e = None) by (unfold resolved_entry; by rewrite E).
    assert (Hu : unresolved_entry S e = Some {| unmapped_url := e.1; unmapped_wpPath := e.2;
                    unmapped_wpSlug := postSlugFromWpPath e.2 |})
      by (unfold unresolved_entry; by rewrite Hr).
    rewrite Hr, Hu, IH by done. cbn [fst snd]. by rewrite <- app_assoc.
Qed.

(** X14.  [buildUrlToRelative] accounts for every URL it is given, once:
    with the URLs pairwise different (they are the keys of a map), the
    mapping holds the URLs the resolver finds a slug for, the list of
    unmapped ones holds the others, both in the order given, so that one URL
    is never in both; with no static slug at all nothing is mapped. *)
Theorem buildUrlToRelative_accounts (urlToPath : list (jsstring * jsstring))
    (S : list jsstring) :
  NoDup urlToPath.*1 →
  buildUrlToRelative urlToPath S
  = (omap (resolved_entry S) urlToPath, omap (unresolved_entry S) urlToPath)
  ∧ (length (buildUrlToRelative urlToPath S).1
     + length (buildUrlToRelative urlToPath S).2 = length urlToPath)%nat
  ∧ (buildUrlToRelative urlToPath []).1 = [].
Proof.
  intros Hnd.
  assert (E : buildUrlToRelative urlToPath S
    = (omap (resolved_entry S) urlToPath, omap (unresolved_entry S) urlToPath)).
  { unfold buildUrlToRelative. rewrite buildUrlToRelative_fold; [done| |done].
    by intros k ?%elem_of_nil. }
  split; [done|]. rewrite E. cbn [fst snd]. split.
  - clear. induction urlToPath as [|e l IH]; [done|]. cbn [omap list_omap length].
    unfold unresolved_entry at 1. destruct (resolved_entry S e); cbn [length]; lia.
  - unfold buildUrlToRelative. rewrite buildUrlToRelative_fold; [|by intros k ?%elem_of_nil|done].
    cbn [fst app]. clear. induction urlToPath as [|e l IH]; [done|].
    cbn [omap list_omap]. unfold resolved_entry at 1.
    destruct (findStaticSlug _ []) as [s|] eqn:E; [|done].
    by apply findStaticSlug_Some, elem_of_nil in E.
Qed.

Lemma buildUrlToRelative_accounts_witness :
  buildUrlToRelative sample_urlToPath [js "sample-post"]
  = (omap (resolved_entry [js "sample-post"]) sample_urlToPath,
     omap (unresolved_entry [js "sample-post"]) sample_urlToPath)
  ∧ (length (buildUrlToRelative sample_urlToPath [js "sample-post"]).1
     + length (buildUrlToRelative sample_urlToPath [js "sample-post"]).2
     = length sample_urlToPath)%nat
  ∧ (buildUrlToRelative sample_urlToPath []).1 = [].
Proof.
  apply (buildUrlToRelative_accounts sample_urlToPath [js "sample-post"]).
  by_evaluation.
Defined.

Lemma split_on_plain (sep : N) (a : jsstring) :
  Forall (λ c, (c =? sep) = false) a → split_on sep a = [a].
Proof.
  induction 1 as [|c a Hc Ha IH]; [done|]. cbn [split_on]. by rewrite Hc, IH.
Qed.

Lemma split_on_join (sep : N) (a b : jsstring) :
  Forall (λ c, (c =? sep) = false) a →
  split_on sep (a ++ sep :: b) = a :: split_on sep b.
Proof.
  induction 1 as [|c a Hc Ha IH]; cbn [split_on app].
  - by rewrite N.eqb_refl.
  - by rewrite Hc, IH.
Qed.

Lemma no_slash_Forall (s : jsstring) :
  no_slash s = true → Forall (λ c, (c =? slash) = false) s.
Proof.
  unfold no_slash. rewrite forallb_forall, Forall_forall.
  intros H c Hc%list_elem_of_In. by apply negb_true_iff, H.
Qed.

Lemma plain_segment_Forall (seg : jsstring) :
  plain_segment seg = true →
  Forall (λ c, (c =? slash) = false ∧ (c =? 37) = false ∧ is_space c = false
               ∧ (c =? wave_dash_fullwidth) = false) seg.
Proof.
  unfold plain_segment. rewrite forallb_forall, Forall_forall.
  intros H c Hc%list_elem_of_In. apply H in Hc.
  rewrite !andb_true_iff, !negb_true_iff in Hc. tauto.
Qed.

Lemma postSlugFromWpPath_plain (segments : list jsstring) (wpPath : jsstring)
    (i : nat) (seg : jsstring) :
  filter_Boolean (split_on slash wpPath) = segments →
  (match segments with
   | y :: m :: second :: _ =>
       length y = 4%nat ∧ length m = 2%nat
       ∧ i = (if day_segment second then 3%nat else 2%nat)
   | _ => False
   end) →
  segments !! i = Some seg → seg ≠ [] → plain_segment seg = true →
  postSlugFromWpPath wpPath = Some seg.
Proof.
  intros Hseg Hshape Hi Hne Hplain. unfold postSlugFromWpPath. rewrite Hseg. cbv zeta.
  destruct segments as [|y [|m [|second rest]]]; try done.
  destruct Hshape as (Hy & Hm & ->). rewrite Hy, Hm. cbn [Nat.eqb negb orb].
  fold (day_segment second). rewrite Hi. destruct seg as [|c seg]; [done|].
  apply plain_segment_Forall in Hplain.
  rewrite decodeURIComponent_plain.
  2:{ eapply Forall_impl; [exact Hplain|]. cbn. tauto. }
  rewrite replace_unit_id.
  2:{ eapply Forall_impl; [exact Hplain|]. cbn. tauto. }
  unfold replace_runs. rewrite (replace_runs_from_id is_space).
  2:{ eapply Forall_impl; [exact Hplain|]. cbn. tauto. }
  rewrite trim_id; [done|]. eapply Forall_impl; [exact Hplain|]. cbn. tauto.
Qed.

(** X15.  A permalink whose slug segment is the name of a static page is
    resolved to that page.  For a path [YYYY/MM/slug] or [YYYY/MM/DD/slug]
    whose slug segment has no escape, white space or wave dash and is not
    empty (nor, in the first form, two digits), [postSlugFromWpPath] returns
    the segment as it stands, and [findStaticSlug] answers with it when it is
    among the static slugs, whatever else the set holds. *)
Theorem plain_permalink_resolves (y m dd seg : jsstring) (staticSlugs : list jsstring) :
  length y = 4%nat → length m = 2%nat →
  no_slash y = true → no_slash m = true →
  day_segment dd = true →
  seg ≠ [] → plain_segment seg = true → day_segment seg = false →
  seg ∈ staticSlugs →
  findStaticSlug (postSlugFromWpPath (path_join y (path_join m seg))) staticSlugs
  = Some seg
  ∧ findStaticSlug (postSlugFromWpPath (path_join y (path_join m (path_join dd seg))))
      staticSlugs
    = Some seg.
Proof.
  intros Hy Hm Hys Hms Hdd Hne Hplain Hnotday Hin.
  assert (Hsegs : Forall (λ c, (c =? slash) = false) seg).
  { eapply Forall_impl; [by apply plain_segment_Forall|]. cbn. tauto. }
  assert (Hdds : Forall (λ c, (c =? slash) = false) dd).
  { unfold day_segment in Hdd. apply andb_true_iff in Hdd as [_ Hd].
    rewrite forallb_forall in Hd. apply Forall_forall.
    intros c Hc%list_elem_of_In%Hd. unfold is_digit in Hc. unfold slash.
    apply andb_true_iff in Hc as [H1%N.leb_le H2%N.leb_le]. apply N.eqb_neq. lia. }
  assert (Hfind : findStaticSlug (Some seg) staticSlugs = Some seg).
  { unfold findStaticSlug, match_exact, set_has. destruct seg; [done|].
    by rewrite bool_decide_eq_true_2. }
  apply no_slash_Forall in Hys, Hms.
  assert (Hyne : y ≠ []) by (by destruct y).
  assert (Hmne : m ≠ []) by (by destruct m).
  assert (Hddne : dd ≠ []) by (by destruct dd).
  unfold path_join. split.
  - rewrite (postSlugFromWpPath_plain [y; m; seg] _ 2 seg); try done.
    + rewrite !split_on_join, split_on_plain by done.
      unfold filter_Boolean. by rewrite !filter_cons_True by done.
    + by rewrite Hnotday.
  - rewrite (postSlugFromWpPath_plain [y; m; dd; seg] _ 3 seg); try done.
    + rewrite !split_on_join, split_on_plain by done.
      unfold filter_Boolean. by rewrite !filter_cons_True by done.
    + by rewrite Hdd.
Qed.

Lemma plain_permalink_resolves_witness :
  findStaticSlug
    (postSlugFromWpPath (path_join (js "2012") (path_join (js "06") kiji_2)))
    [js "other"; kiji_2] = Some kiji_2
  ∧ findStaticSlug
      (postSlugFromWpPath
         (path_join (js "2012") (path_join (js "06") (path_join (js "17") kiji_2))))
      [js "other"; kiji_2] = Some kiji_2.
Proof.
  apply (plain_permalink_resolves (js "2012") (js "06") (js "17") kiji_2
           [js "other"; kiji_2]); try (vm_compute; reflexivity).
  - discriminate.
  - by_evaluation.
Defined.

(** ** Category tabs *)

Lemma str_ltb_asym (a b : jsstring) : str_ltb a b = true → str_ltb b a = false.
Proof.
  revert b. induction a as [|x a IH]; intros [|y b]; cbn [str_ltb]; try done.
  destruct (N.ltb_spec x y), (N.ltb_spec y x), (N.eqb_spec x y), (N.eqb_spec y x);
    try lia; cbn [orb andb]; try done. by apply IH.
Qed.

Lemma str_ltb_le_trans (a b c : jsstring) :
  str_ltb b a = false → str_ltb c b = false → str_ltb c a = false.
Proof.
  revert b c. induction a as [|x a IH]; intros [|y b] [|z c]; cbn [str_ltb]; try done.
  destruct (N.ltb_spec y x), (N.ltb_spec z y), (N.ltb_spec z x),
    (N.eqb_spec y x), (N.eqb_spec z y), (N.eqb_spec z x);
    try lia; cbn [orb andb]; try done. by apply IH.
Qed.

Lemma sort_insert_sorted {A} (before : A → A → bool) (x : A) (l : list A) :
  (∀ a b, before a b = true → before b a = false) →
  (∀ a b c, before b a = false → before c b = false → before c a = false) →
  StronglySorted (λ a b, before b a = false) l →
  StronglySorted (λ a b, before b a = false) (sort_insert before x l).
Proof.
  intros Hasym Htrans.
  induction 1 as [|y l Hl IH Hy]; cbn [sort_insert]; [repeat constructor|].
  destruct (before y x) eqn:E.
  - constructor; [done|].
    apply Forall_forall. intros z Hz. rewrite sort_insert_Permutation in Hz.
    apply elem_of_cons in Hz as [->|Hz]; [by apply Hasym|].
    by eapply Forall_forall in Hy.
  - constructor; [by constructor|]. constructor; [done|].
    eapply Forall_impl; [exact Hy|]. cbn. intros z Hz. by eapply Htrans.
Qed.

Lemma stable_sort_sorted {A} (before : A → A → bool) (l : list A) :
  (∀ a b, before a b = true → before b a = false) →
  (∀ a b c, before b a = false → before c b = false → before c a = false) →
  StronglySorted (λ a b, before b a = false) (stable_sort before l).
Proof.
  intros Hasym Htrans. unfold stable_sort. induction l as [|x l IH]; [constructor|].
  cbn [foldr]. by apply sort_insert_sorted.
Qed.

Lemma catByNicename_named (wpCategories : list wp_category) (k : jsstring) (v : cat_info) :
  (k, v) ∈ catByNicename wpCategories → name v ≠ [].
Proof.
  rewrite catByNicename_fold.
  assert (H : ∀ m, (∀ k v, (k, v) ∈ m → name v ≠ []) →
                ∀ k v, (k, v) ∈ foldl cat_step m wpCategories → name v ≠ []).
  { induction wpCategories as [|c l IH]; intros m Hm; [done|].
    cbn [foldl]. apply IH. intros k' v'. unfold cat_step.
    destruct (trim (textOf (wp_cat_name c))) as [|x nm] eqn:E; [apply Hm|].
    intros [[= -> ->]|Hin]%elem_of_map_set; [done|by eapply Hm]. }
  apply H. by intros ?? ?%elem_of_nil.
Qed.

Lemma listed_name_true (y : jsstring) :
  listed_name y = true ↔ y ≠ [] ∧ y ≠ js "Uncategorized".
Proof.
  unfold listed_name, str_eqb. destruct y as [|c y].
  - split; [done|by intros [? _]].
  - rewrite negb_true_iff, bool_decide_eq_false.
    split; [by intros ?; split|by intros [_ ?]].
Qed.

(** X16.  The category tabs are in ascending order of their UTF-16 code
    units, and they are exactly the display names of the categories without
    a parent, [Uncategorized] left out. *)
Theorem topLevelCats_sorted (wpCategories : list wp_category) :
  let cats := catByNicename wpCategories in
  StronglySorted (λ a b, str_ltb b a = false) (topLevelCats cats)
  ∧ ∀ y, y ∈ topLevelCats cats
      ↔ y ≠ js "Uncategorized"
        ∧ ∃ n info, map_get n cats = Some info
                    ∧ parentNicename info = None ∧ name info = y.
Proof.
  intros cats. split.
  { apply stable_sort_sorted; [apply str_ltb_asym|apply str_ltb_le_trans]. }
  intros y. unfold topLevelCats.
  rewrite elem_of_stable_sort, list_elem_of_filter, listed_name_true, list_elem_of_omap.
  pose proof (catByNicename_ok wpCategories) as Hok. fold cats in Hok.
  split.
  - intros [[_ Hy] (n & [info [Hget Hp]]%(elem_of_topLevelNicenames _ _ Hok) & Hn)].
    split; [done|]. exists n, info. rewrite Hget in Hn. by injection Hn as ->.
  - intros [Hy (n & info & Hget & Hp & <-)].
    split; [split; [|done]|].
    + eapply catByNicename_named, map_get_elem_of, Hget.
    + exists n. split; [|by rewrite Hget].
      apply (elem_of_topLevelNicenames _ _ Hok). by exists info.
Qed.

(** ** Slugs of the imported posts *)

Lemma or_post_safe (r : jsstring) :
  Forall (λ c, slug_char c = true) r →
  no_double is_hyphen false r = true →
  (length r ≤ 80)%nat →
  or_else r (js "post") ≠ []
  ∧ (length (or_else r (js "post")) ≤ 80)%nat
  ∧ Forall (λ c, slug_char c = true) (or_else r (js "post"))
  ∧ no_double is_hyphen false (or_else r (js "post")) = true.
Proof.
  intros Hc Hd Hl. destruct r as [|c r]; cbn [or_else]; [|done].
  split; [done|]. split; [cbn; lia|]. split; [|done]. repeat constructor.
Qed.

Lemma getPostSlug_shape (item : wp_item) :
  getPostSlug item ≠ []
  ∧ (length (getPostSlug item) ≤ 80)%nat
  ∧ Forall (λ c, slug_char c = true) (getPostSlug item)
  ∧ no_double is_hyphen false (getPostSlug item) = true.
Proof.
  assert (Ht : ∀ s, slugify s ≠ [] ∧ (length (slugify s) ≤ 80)%nat
                    ∧ Forall (λ c, slug_char c = true) (slugify s)
                    ∧ no_double is_hyphen false (slugify s) = true).
  { intros s. destruct (slugify_shape s) as (Hc & Hd & Hl). by apply or_post_safe. }
  unfold getPostSlug. destruct (textOf (wp_post_name item)) as [|c nm]; [apply Ht|].
  destruct (decodeURIComponent (c :: nm)) as [decoded|]; [|apply Ht].
  apply or_post_safe.
  - apply Forall_take, Forall_replace_runs_from; [done|].
    apply Forall_fmap, Forall_forall. intros x _. cbn.
    by destruct (slug_char x) eqn:E.
  - by apply no_double_take, no_double_replace_runs_from.
  - rewrite length_take. lia.
Qed.

Lemma free_slug_chars (fuel : nat) (slugUsed : list jsstring) (suffix slug r : jsstring) :
  free_slug fuel slugUsed suffix slug = Some r →
  Forall (λ c, slug_char c = true) suffix →
  slug ≠ [] ∧ Forall (λ c, slug_char c = true) slug →
  r ≠ [] ∧ Forall (λ c, slug_char c = true) r.
Proof.
  intros Hr Hsuf. revert slug Hr. induction fuel as [|fuel IH]; intros slug; [done|].
  cbn [free_slug]. destruct (set_has slug slugUsed).
  - intros Hr [Hne Hc]. apply (IH _ Hr). split; [by destruct slug|by apply Forall_app].
  - by intros [= <-].
Qed.

Lemma dash_number_chars (i : nat) :
  Forall (λ c, slug_char c = true) (js "-" ++ dec (N.of_nat (i + 1))).
Proof.
  apply Forall_app. split; [by repeat constructor|].
  eapply Forall_impl; [apply dec_digits|]. cbn. intros c Hc.
  unfold slug_char, is_word. by rewrite Hc.
Qed.

Lemma importSlugs_from_chars (posts : list wp_item) :
  ∀ fuel i slugUsed slugs,
    importSlugs_from fuel i slugUsed posts = Some slugs →
    Forall (λ s, s ≠ [] ∧ Forall (λ c, slug_char c = true) s) slugs.
Proof.
  induction posts as [|item rest IH]; intros fuel i used slugs; cbn [importSlugs_from].
  { by intros [= <-]. }
  destruct (free_slug _ _ _ _) as [slug|] eqn:Hslug; [|done].
  destruct (importSlugs_from _ _ _ rest) as [rest_slugs|] eqn:Hrest; [|done].
  cbn. intros [= <-]. constructor; [|by eapply IH].
  eapply free_slug_chars; [exact Hslug|apply dash_number_chars|].
  destruct (getPostSlug_shape item) as (? & _ & ? & _). done.
Qed.

(** X17.  The slugs of the import are usable as file names.  The slug
    [getPostSlug] proposes is not empty, has at most 80 units, holds only
    word characters, kana, ideographs and hyphens, and no two hyphens in a
    row; and every slug the import stores, with the suffixes the loop may
    have added, is not empty and holds only those units: no slash, no dot,
    no white space. *)
Theorem importSlugs_safe (parseDate : jsstring → option Z) (items : list wp_item)
    (fuel : nat) (slugs : list jsstring) :
  importSlugs parseDate fuel items = Some slugs →
  Forall (λ item,
            getPostSlug item ≠ []
            ∧ (length (getPostSlug item) ≤ 80)%nat
            ∧ Forall (λ c, slug_char c = true) (getPostSlug item)
            ∧ no_double is_hyphen false (getPostSlug item) = true) items
  ∧ Forall (λ s, s ≠ [] ∧ Forall (λ c, slug_char c = true ∧ c ≠ 47 ∧ c ≠ 46 ∧ is_space c = false) s)
      slugs.
Proof.
  intros Hrun. split.
  - apply Forall_forall. intros item _. apply getPostSlug_shape.
  - eapply Forall_impl; [by eapply importSlugs_from_chars|]. cbn.
    intros s [Hne Hs]. split; [done|].
    eapply Forall_impl; [exact Hs|]. cbn. intros c Hc. split; [done|].
    split; [by intros ->|]. split; [by intros ->|].
    by apply slug_char_not_space.
Qed.

Lemma importSlugs_safe_witness :
  Forall (λ s, s ≠ [] ∧ Forall (λ c, slug_char c = true ∧ c ≠ 47 ∧ c ≠ 46 ∧ is_space c = false) s)
    [js "ramen"; js "ramen-2"; js "ramen-2-3"].
Proof.
  apply (importSlugs_safe parse_iso_date sample_items 5). vm_compute. reflexivity.
Defined.

(** ** File names of the writer server *)

Lemma fmap_id_on {A} (f : A → A) (l : list A) :
  Forall (λ x, f x = x) l → f <$> l = l.
Proof. induction 1 as [|x l Hx Hl IH]; [done|]. cbn. by rewrite Hx, IH. Qed.

Lemma handleSave_slug_shape (slug : option jsstring) :
  handleSave_slug slug ≠ []
  ∧ Forall (λ c, save_char c = true) (handleSave_slug slug)
  ∧ no_double is_hyphen false (handleSave_slug slug) = true.
Proof.
  unfold handleSave_slug.
  set (s := or_else (default [] slug) (js "post")).
  set (r := replace_runs is_hyphen [hyphen] _).
  assert (Hc : Forall (λ c, save_char c = true) r).
  { apply Forall_replace_runs_from; [done|].
    apply Forall_fmap, Forall_forall. intros x _. cbn.
    by destruct (save_char x) eqn:E. }
  assert (Hd : no_double is_hyphen false r = true).
  { by apply no_double_replace_runs_from. }
  destruct r as [|c r]; cbn [or_else]; [|done].
  split; [done|]. split; [|done]. repeat constructor.
Qed.

(** X18.  The file [handleSave] writes cannot leave the directory of the
    posts: whatever slug the request gives, or none, the name is a non-empty
    slug of letters, digits, kana, ideographs and single hyphens, followed
    by [.md], so the slug holds no slash, backslash, dot or NUL; and a name
    the server returned is kept as it is when it is sent again. *)
Theorem handleSave_filename_safe (slug : option jsstring) :
  ∃ s, handleSave_filename slug = s ++ js ".md"
    ∧ s ≠ []
    ∧ Forall (λ c, save_char c = true ∧ c ≠ 47 ∧ c ≠ 92 ∧ c ≠ 46 ∧ c ≠ 0) s
    ∧ no_double is_hyphen false s = true
    ∧ handleSave_slug (Some s) = s.
Proof.
  exists (handleSave_slug slug). split; [done|].
  destruct (handleSave_slug_shape slug) as (Hne & Hc & Hd).
  split; [done|]. split; [|split; [done|]].
  - eapply Forall_impl; [exact Hc|]. cbn. intros c H.
    split; [done|]. repeat split; by intros ->.
  - generalize dependent (handleSave_slug slug). intros s Hne Hc Hd.
    unfold handleSave_slug. cbn [default].
    destruct s as [|c s]; [done|]. cbn [or_else].
    rewrite fmap_id_on.
    + unfold replace_runs. rewrite collapse_hyphens_id by done. done.
    + eapply Forall_impl; [exact Hc|]. cbn. by intros x ->.
Qed.

Example handleSave_filename_samples :
  handleSave_filename None = js "post.md"
  ∧ handleSave_filename (Some []) = js "post.md"
  ∧ handleSave_filename (Some (js "../../etc/passwd")) = js "-etc-passwd.md"
  ∧ handleSave_filename (Some (js "My_Post 1")) = js "My-Post-1.md".
Proof. repeat split; vm_compute; reflexivity. Qed.

(** ** Front matter *)

Lemma unlines_join (lines : list jsstring) :
  lines ≠ [] →
  flat_map (λ l, l ++ [line_feed]) lines = join [line_feed] lines ++ [line_feed].
Proof.
  induction lines as [|l [|l' ls] IH]; [done| |]; intros _.
  - cbn. by rewrite app_nil_r.
  - change (flat_map _ (l :: l' :: ls))
      with ((l ++ [line_feed]) ++ flat_map (λ l, l ++ [line_feed]) (l' :: ls)).
    rewrite IH by done. change (join [line_feed] (l :: l' :: ls))
      with (l ++ [line_feed] ++ join [line_feed] (l' :: ls)).
    by rewrite <- !app_assoc.
Qed.

Lemma bullets_unlines (cs : list jsstring) :
  flat_map (λ l, l ++ [line_feed]) ((λ c, js "  - " ++ c) <$> cs)
  = flat_map (λ c, js "  - " ++ c ++ [line_feed]) cs.
Proof.
  induction cs as [|c cs IH]; [done|].
  cbn [fmap list_fmap flat_map]. rewrite IH. by rewrite <- !app_assoc.
Qed.

Lemma buildMarkdownContent_lines (today : jsstring) (data : writer_data) :
  buildMarkdownContent today data
  = js "---" ++ [line_feed]
    ++ join [line_feed] (front_lines today data)
    ++ line_feed :: js "---" ++ line_feed :: line_feed
       :: trim (default [] (data_body data)) ++ [line_feed].
Proof.
  assert (H : ∀ r, join [line_feed] (front_lines today data) ++ line_feed :: r
                     = flat_map (λ l, l ++ [line_feed]) (front_lines today data) ++ r).
  { intros r. rewrite unlines_join by done. by rewrite <- app_assoc. }
  rewrite H. unfold buildMarkdownContent, front_lines. cbv zeta.
  rewrite !flat_map_app.
  destruct (data_draft data) as [b|];
    destruct (categories_of (data_categories data)) as [|c cs];
    destruct (trim (default [] (data_excerpt data))) as [|e es];
    cbn [flat_map app]; rewrite ?bullets_unlines; cbn [flat_map app];
    repeat (rewrite <- ?app_assoc; cbn [app]); reflexivity.
Qed.

Lemma eat_closer_quiet (c : N) (s : jsstring) :
  c ≠ 10 → c ≠ 13 → eat_closer (c :: s) = None.
Proof.
  intros H10 H13. unfold eat_closer, eat_newline.
  destruct (N.eqb_spec c 10); [done|]. by destruct (N.eqb_spec c 13).
Qed.

Lemma eat_fence_head (s t : jsstring) :
  head s ≠ Some 45 → eat_fence (s ++ line_feed :: t) = None.
Proof.
  destruct s as [|a s]; cbn [app]; intros Ha.
  - by destruct t as [|b [|c r]].
  - assert (E : (a =? 45) = false) by (apply N.eqb_neq; intros ->; by apply Ha).
    unfold eat_fence.
    destruct (s ++ line_feed :: t) as [|b [|c r]]; try done. by rewrite E.
Qed.

Lemma split_front_line (l rest : jsstring) :
  Forall (λ c, c ≠ 10 ∧ c ≠ 13) l →
  split_front (l ++ rest) = (λ fb, (l ++ fb.1, fb.2)) <$> split_front rest.
Proof.
  induction 1 as [|c l [H10 H13] Hl IH]; cbn [app].
  - by destruct (split_front rest) as [[??]|].
  - cbn [split_front]. rewrite eat_closer_quiet by done. rewrite IH.
    by destruct (split_front rest) as [[??]|].
Qed.

Lemma eat_closer_fence (rest : jsstring) :
  eat_closer (line_feed :: js "---" ++ line_feed :: rest) = Some rest.
Proof. reflexivity. Qed.

Lemma eat_closer_line_feed (s : jsstring) :
  eat_closer (line_feed :: s) = eat_fence s.
Proof. reflexivity. Qed.

Lemma split_front_fence (rest : jsstring) :
  split_front (line_feed :: js "---" ++ line_feed :: rest) = Some ([], rest).
Proof.
  change (split_front (line_feed :: js "---" ++ line_feed :: rest))
    with (match eat_closer (line_feed :: js "---" ++ line_feed :: rest) with
          | Some body => Some ([], body)
          | None => (λ fb, (line_feed :: fb.1, fb.2))
                    <$> split_front (js "---" ++ line_feed :: rest)
          end).
  by rewrite eat_closer_fence.
Qed.

Lemma split_front_lines (lines : list jsstring) (rest : jsstring) :
  lines ≠ [] → Forall quiet_line lines →
  split_front (join [line_feed] lines ++ line_feed :: js "---" ++ line_feed :: rest)
  = Some (join [line_feed] lines, rest).
Proof.
  induction lines as [|l [|l' ls] IH]; [done| |]; intros _.
  - intros [[Hl _] _]%Forall_cons. cbn [join].
    rewrite split_front_line by done. rewrite split_front_fence. cbn [fmap option_fmap option_map fst snd].
    by rewrite app_nil_r.
  - intros [[Hl _] Hls]%Forall_cons.
    change (join [line_feed] (l :: l' :: ls))
      with (l ++ [line_feed] ++ join [line_feed] (l' :: ls)).
    rewrite <- !app_assoc. rewrite split_front_line by done.
    cbn [app]. set (tl := join [line_feed] (l' :: ls)) in *.
    assert (Hno : eat_closer (line_feed :: tl ++ line_feed :: js "---" ++ line_feed :: rest)
                  = None).
    { rewrite eat_closer_line_feed. subst tl. destruct ls as [|l'' ls].
      - cbn [join]. apply eat_fence_head. by apply Forall_cons in Hls as [[_ ?] _].
      - change (join [line_feed] (l' :: l'' :: ls))
          with (l' ++ [line_feed] ++ join [line_feed] (l'' :: ls)).
        rewrite <- !app_assoc. cbn [app]. apply eat_fence_head.
        by apply Forall_cons in Hls as [[_ ?] _]. }
    cbn [split_front]. rewrite Hno. rewrite IH by done.
    reflexivity.
Qed.

Lemma split_lines_cons (c : N) (r : jsstring) :
  c ≠ 10 → c ≠ 13 → r ≠ [] → split_lines (c :: r) = cons_head c (split_lines r).
Proof.
  intros H10 H13 Hr.
  change (split_lines (c :: r))
    with (if c =? 10 then [] :: split_lines r
          else match r with
               | d :: r' => if (c =? 13) && (d =? 10) then [] :: split_lines r'
                            else cons_head c (split_lines r)
               | [] => [[c]]
               end).
  destruct (N.eqb_spec c 10); [done|]. destruct (N.eqb_spec c 13); [done|].
  by destruct r.
Qed.

Lemma split_lines_single (l : jsstring) :
  Forall (λ c, c ≠ 10 ∧ c ≠ 13) l → split_lines l = [l].
Proof.
  induction 1 as [|c l [H10 H13] Hl IH]; [done|].
  destruct l as [|d l].
  - cbn [split_lines]. by destruct (N.eqb_spec c 10).
  - rewrite split_lines_cons by done. by rewrite IH.
Qed.

Lemma split_lines_line (l s : jsstring) :
  Forall (λ c, c ≠ 10 ∧ c ≠ 13) l →
  split_lines (l ++ line_feed :: s) = l :: split_lines s.
Proof.
  induction 1 as [|c l [H10 H13] Hl IH]; [done|].
  cbn [app]. rewrite split_lines_cons by (try done; by destruct l).
  by rewrite IH.
Qed.

Lemma split_lines_join (lines : list jsstring) :
  lines ≠ [] → Forall quiet_line lines →
  split_lines (join [line_feed] lines) = lines.
Proof.
  induction lines as [|l [|l' ls] IH]; [done| |]; intros _.
  - intros [[Hl _] _]%Forall_cons. by apply split_lines_single.
  - intros [[Hl _] Hls]%Forall_cons.
    change (join [line_feed] (l :: l' :: ls))
      with (l ++ line_feed :: join [line_feed] (l' :: ls)).
    rewrite split_lines_line by done. by rewrite IH.
Qed.

Lemma drop_while_head_false (p : N → bool) (s : jsstring) :
  match drop_while p s with c :: _ => p c = false | [] => True end.
Proof.
  induction s as [|c s IH]; [done|]. cbn [drop_while].
  by destruct (p c) eqn:E.
Qed.

Lemma drop_while_idem (p : N → bool) (s : jsstring) :
  drop_while p (drop_while p s) = drop_while p s.
Proof. apply drop_while_head, drop_while_head_false. Qed.

Lemma Forall_drop_while (P : N → Prop) (p : N → bool) (s : jsstring) :
  Forall P s → Forall P (drop_while p s).
Proof.
  induction 1 as [|c s Hc Hs IH]; [done|]. cbn [drop_while].
  destruct (p c); [done|by constructor].
Qed.

Lemma trim_trimStart (s : jsstring) : trim (trimStart s) = trim s.
Proof. unfold trim, trimStart. by rewrite drop_while_idem. Qed.

Lemma trim_between (a b : N) (s : jsstring) :
  is_space a = false → is_space b = false → trim (a :: s ++ [b]) = a :: s ++ [b].
Proof.
  intros Ha Hb. unfold trim, trimEnd, trimStart.
  rewrite (drop_while_head _ (a :: _)) by done.
  rewrite drop_while_head; [apply rev_involutive|].
  change (a :: s ++ [b]) with ((a :: s) ++ [b]). by rewrite rev_app_distr.
Qed.

Lemma strip_quotes_quoted (s : jsstring) :
  strip_quotes (double_quote :: s ++ [double_quote]) = s.
Proof.
  unfold strip_quotes. cbn [strip_first_quote]. change (is_quote double_quote) with true.
  cbv iota. unfold strip_last_quote. rewrite rev_app_distr. cbn [rev app].
  change (is_quote double_quote) with true. cbv iota. apply rev_involutive.
Qed.

(** What is read back as the body of a text written after the fences. *)
Lemma trimEnd_body (b : jsstring) :
  trimEnd (line_feed :: trim b ++ [line_feed])
  = match trim b with [] => [] | _ => line_feed :: trim b end.
Proof.
  unfold trimEnd at 1.
  change (line_feed :: trim b ++ [line_feed]) with ((line_feed :: trim b) ++ [line_feed]).
  rewrite rev_app_distr. cbn [rev app drop_while].
  change (is_space line_feed) with true. cbv iota.
  destruct (trim b) as [|c B] eqn:E; [done|].
  rewrite <- E. unfold trim, trimEnd. rewrite rev_involutive.
  pose proof (drop_while_head_false is_space (rev (trimStart b))) as HY.
  unfold trim, trimEnd in E.
  destruct (drop_while is_space (rev (trimStart b))) as [|y Y]; [done|].
  rewrite drop_while_head by done. by rewrite rev_app_distr.
Qed.

Lemma is_letter_not_space (c : N) : is_letter c = true → is_space c = false.
Proof.
  unfold is_letter, is_space. intros H.
  repeat (rewrite ?orb_true_iff, ?andb_true_iff, ?N.leb_le in H).
  repeat (rewrite ?orb_false_iff, ?andb_false_iff, ?N.leb_gt, ?N.eqb_neq).
  repeat split; lia.
Qed.

Lemma eat_bullet_letter (c : N) (s : jsstring) :
  is_letter c = true → eat_bullet (c :: s) = None.
Proof. intros H. unfold eat_bullet. by rewrite is_letter_not_space. Qed.

Lemma letters_then_colon (k r : jsstring) :
  Forall (λ c, is_letter c = true) k →
  take_while is_letter (k ++ 58 :: r) = k
  ∧ drop_while is_letter (k ++ 58 :: r) = 58 :: r.
Proof.
  induction 1 as [|c k Hc Hk [IH1 IH2]]; [done|].
  cbn [app take_while drop_while]. rewrite Hc. by rewrite IH1, IH2.
Qed.

Lemma match_kv_line (k v : jsstring) :
  k ≠ [] → Forall (λ c, is_letter c = true) k →
  Forall (λ c, is_line_terminator c = false) v →
  match_kv (k ++ js ": " ++ v) = Some (k, trimStart v).
Proof.
  intros Hne Hk Hv. unfold match_kv.
  change (k ++ js ": " ++ v) with (k ++ 58 :: 32 :: v).
  destruct (letters_then_colon k (32 :: v) Hk) as [-> ->].
  destruct k as [|c k]; [done|].
  change (drop_while is_space (32 :: v)) with (trimStart v).
  change (58 =? 58) with true. cbn [andb].
  rewrite (proj2 (forallb_forall _ _)); [done|].
  intros x Hx%list_elem_of_In.
  apply (Forall_drop_while _ is_space) in Hv.
  eapply Forall_forall in Hv; [|exact Hx]. by rewrite Hv.
Qed.

Lemma front_line_kv (on_categories : jsstring → list jsstring * bool)
    (st : front_state) (k v : jsstring) :
  k ≠ [] → Forall (λ c, is_letter c = true) k →
  toLowerCase_key k ≠ js "categories" →
  Forall (λ c, is_line_terminator c = false) v →
  front_line on_categories st (k ++ js ": " ++ v)
  = {| st_fields := <[key_name (toLowerCase_key k) := strip_quotes (trim v)]> (st_fields st);
       st_categories := st_categories st;
       st_list := false |}.
Proof.
  intros Hne Hk Hcat Hv. unfold front_line.
  rewrite match_kv_line by done.
  assert (Hb : eat_bullet (k ++ js ": " ++ v) = None).
  { destruct Hk as [|c k Hc Hk]; [done|]. by apply eat_bullet_letter. }
  rewrite Hb. cbv zeta. rewrite bool_decide_eq_false_2 by done.
  by rewrite trim_trimStart.
Qed.

Lemma front_line_categories (on_categories : jsstring → list jsstring * bool)
    (st : front_state) :
  front_line on_categories st (js "categories:")
  = {| st_fields := st_fields st;
       st_categories := Some (on_categories []).1;
       st_list := (on_categories []).2 |}.
Proof. reflexivity. Qed.

Lemma front_line_bullet (on_categories : jsstring → list jsstring * bool)
    (st : front_state) (c : jsstring) :
  front_line on_categories st (js "  - " ++ c)
  = if st_list st then
      {| st_fields := st_fields st;
         st_categories := (λ l, l ++ [strip_quotes (trimStart c)]) <$> st_categories st;
         st_list := true |}
    else
      {| st_fields := st_fields st; st_categories := st_categories st;
         st_list := false |}.
Proof. unfold front_line. by destruct (st_list st). Qed.

Lemma fold_bullets (on_categories : jsstring → list jsstring * bool)
    (F : gmap string jsstring) (l : list jsstring) (open : bool) (cs : list jsstring) :
  foldl (front_line on_categories)
    {| st_fields := F; st_categories := Some l; st_list := open |}
    ((λ c, js "  - " ++ c) <$> cs)
  = {| st_fields := F;
       st_categories :=
         Some (l ++ if open then (λ c, strip_quotes (trimStart c)) <$> cs else []);
       st_list := open |}.
Proof.
  revert l. induction cs as [|c cs IH]; intros l.
  - destruct open; cbn; by rewrite app_nil_r.
  - cbn [fmap list_fmap foldl]. rewrite front_line_bullet. cbn [st_list st_fields st_categories].
    destruct open; cbn [fmap option_fmap option_map]; rewrite IH; [|done].
    by rewrite <- app_assoc.
Qed.

Lemma Forall_replace_unit (P : N → Prop) (c : N) (r s : jsstring) :
  Forall P r → Forall (λ x, x = c ∨ P x) s → Forall P (replace_unit c r s).
Proof.
  intros Hr. unfold replace_unit. induction 1 as [|x s Hx Hs IH]; [done|].
  cbn [flat_map]. apply Forall_app. split; [|done].
  destruct (N.eqb_spec x c); [done|]. destruct Hx; [done|by constructor].
Qed.

Lemma Forall_escape_quotes (P : N → Prop) (s : jsstring) :
  P 92 → P double_quote → Forall P s → Forall P (escape_quotes s).
Proof.
  intros H1 H2 Hs. apply Forall_replace_unit; [by repeat constructor|].
  eapply Forall_impl; [exact Hs|]. cbn. by right.
Qed.

Lemma front_line_quoted (on_categories : jsstring → list jsstring * bool)
    (st : front_state) (k v : jsstring) :
  k ≠ [] → Forall (λ c, is_letter c = true) k →
  toLowerCase_key k ≠ js "categories" →
  Forall (λ c, is_line_terminator c = false) v →
  front_line on_categories st (k ++ js ": " ++ [double_quote] ++ v ++ [double_quote])
  = {| st_fields := <[key_name (toLowerCase_key k) := v]> (st_fields st);
       st_categories := st_categories st;
       st_list := false |}.
Proof.
  intros Hne Hk Hcat Hv.
  rewrite front_line_kv; try done.
  - cbn [app]. by rewrite trim_between, strip_quotes_quoted.
  - cbn [app]. constructor; [done|]. apply Forall_app. split; [done|by constructor].
Qed.

Lemma front_lines_quiet (today : jsstring) (data : writer_data) :
  let title := or_else (trim (default [] (data_title data))) (js "Untitled") in
  let date := or_else (trim (default [] (data_date data))) today in
  let excerpt := trim (default [] (data_excerpt data)) in
  Forall (λ c, is_line_terminator c = false) title →
  Forall (λ c, is_line_terminator c = false) date →
  Forall (λ c, c = line_feed ∨ is_line_terminator c = false) excerpt →
  Forall (Forall (λ c, is_line_terminator c = false))
    (categories_of (data_categories data)) →
  Forall quiet_line (front_lines today data).
Proof.
  intros title date excerpt. subst title date excerpt. intros Ht Hd He Hc.
  assert (Hq : ∀ c, is_line_terminator c = false → c ≠ 10 ∧ c ≠ 13).
  { intros c H. split; intros ->; done. }
  assert (Hw : ∀ w l, Forall (λ c, c ≠ 10 ∧ c ≠ 13) (js w) → head (js w ++ l) ≠ Some 45 →
                 Forall (λ c, c ≠ 10 ∧ c ≠ 13) l → quiet_line (js w ++ l)).
  { intros w l H1 H2 H3. split; [by apply Forall_app|done]. }
  unfold front_lines. cbv zeta. repeat apply Forall_app_2.
  - constructor; [|constructor; [|constructor]].
    + apply Hw; [by repeat constructor|done|].
      constructor; [done|]. apply Forall_app. split; [|by repeat constructor].
      apply Forall_escape_quotes; [done..|]. eapply Forall_impl; [exact Ht|]. apply Hq.
    + apply Hw; [by repeat constructor|done|].
      eapply Forall_impl; [exact Hd|]. apply Hq.
  - destruct (data_draft data) as [[]|]; [| |constructor];
      (constructor; [|constructor]); (split; [by repeat constructor|done]).
  - destruct (categories_of (data_categories data)) as [|c cs]; [constructor|].
    constructor; [split; [by repeat constructor|done]|].
    apply Forall_fmap. eapply Forall_impl; [exact Hc|]. intros x Hx.
    apply (Hw "  - "%string x); [by repeat constructor|done|].
    eapply Forall_impl; [exact Hx|]. apply Hq.
  - destruct (trim (default [] (data_excerpt data))) as [|e es]; [constructor|].
    constructor; [|constructor].
    apply Hw; [by repeat constructor|done|].
    constructor; [done|]. apply Forall_app. split; [|by repeat constructor].
    apply Forall_replace_unit; [by repeat constructor|].
    apply Forall_escape_quotes; [by right|by right|].
    eapply Forall_impl; [exact He|]. cbn. intros x [->|Hx]; [by left|].
    right. by apply Hq.
Qed.

Lemma parse_written (on_categories : jsstring → list jsstring * bool)
    (today : jsstring) (data : writer_data) :
  let title := or_else (trim (default [] (data_title data))) (js "Untitled") in
  let date := or_else (trim (default [] (data_date data))) today in
  let excerpt := trim (default [] (data_excerpt data)) in
  let body := trim (default [] (data_body data)) in
  let categories := categories_of (data_categories data) in
  Forall (λ c, is_line_terminator c = false) title →
  Forall (λ c, is_line_terminator c = false) date →
  Forall (λ c, c = line_feed ∨ is_line_terminator c = false) excerpt →
  Forall (Forall (λ c, is_line_terminator c = false)) categories →
  parseFrontmatter_with on_categories (buildMarkdownContent today data)
  = ({| fields :=
          written_fields (escape_quotes title) date
            (replace_unit line_feed [32] (escape_quotes excerpt)) (data_draft data);
        meta_categories :=
          filter_Boolean
            match categories with
            | [] => []
            | _ => (on_categories []).1
                   ++ if (on_categories []).2
                      then (λ c, strip_quotes (trimStart c)) <$> categories else []
            end |},
     match body with [] => [] | _ => line_feed :: body end).
Proof.
  intros title date excerpt body categories Ht Hd He Hc.
  pose proof (front_lines_quiet today data Ht Hd He Hc) as Hq.
  subst title date excerpt body categories.
  rewrite buildMarkdownContent_lines. unfold parseFrontmatter_with.
  change (eat_fence (js "---" ++ [line_feed] ++ ?x)) with (eat_newline (line_feed :: x)).
  change (eat_newline (line_feed :: ?x)) with (Some x).
  cbn [mbind option_bind].
  rewrite split_front_lines by done. rewrite split_lines_join by done.
  rewrite trimEnd_body. f_equal.
  unfold front_lines. cbv zeta.
  set (categories := categories_of (data_categories data)) in *.
  rewrite !foldl_app. cbn [foldl].
  change (js "title: " ++ ?x) with (js "title" ++ js ": " ++ x).
  change (js "date: " ++ ?x) with (js "date" ++ js ": " ++ x).
  change (js "draft: " ++ ?x) with (js "draft" ++ js ": " ++ x).
  change (js "excerpt: " ++ ?x) with (js "excerpt" ++ js ": " ++ x).
  rewrite (front_line_quoted _ _ (js "title")); [|done|by repeat constructor|done|].
  2:{ apply Forall_escape_quotes; done. }
  rewrite (front_line_kv _ _ (js "date")); [|done|by repeat constructor|done..].
  cbn [st_fields st_categories st_list].
  change (key_name (toLowerCase_key (js "title"))) with "title"%string.
  change (key_name (toLowerCase_key (js "date"))) with "date"%string.
  set (F2 := <["date":=_]> _).
  assert (Hdraft :
    foldl (front_line on_categories)
      {| st_fields := F2; st_categories := None; st_list := false |}
      match data_draft data with
      | Some draft => [js "draft" ++ js ": " ++ (if draft then js "true" else js "false")]
      | None => []
      end
    = {| st_fields :=
           match data_draft data with
           | Some b => <["draft" := if b then js "true" else js "false"]> F2
           | None => F2
           end;
         st_categories := None; st_list := false |}).
  { destruct (data_draft data) as [b|]; [|done]. cbn [foldl].
    rewrite (front_line_kv _ _ (js "draft")); [|done|by repeat constructor|done|].
    - by destruct b.
    - destruct b; by repeat constructor. }
  rewrite Hdraft. set (F3 := match data_draft data with Some _ => _ | None => _ end).
  assert (Hcats :
    foldl (front_line on_categories)
      {| st_fields := F3; st_categories := None; st_list := false |}
      match categories with
      | [] => []
      | _ => js "categories:" :: ((λ c, js "  - " ++ c) <$> categories)
      end
    = {| st_fields := F3;
         st_categories :=
           match categories with
           | [] => None
           | _ => Some ((on_categories []).1
                        ++ if (on_categories []).2
                           then (λ c, strip_quotes (trimStart c)) <$> categories else [])
           end;
         st_list := match categories with [] => false | _ => (on_categories []).2 end |}).
  { destruct categories as [|c cs]; [done|]. cbn [foldl].
    rewrite front_line_categories. cbn [st_fields]. by rewrite fold_bullets. }
  rewrite Hcats. set (C := match categories with [] => None | _ => Some _ end).
  set (o := match categories with [] => false | _ => _ end).
  unfold written_fields. fold F2. cbv zeta. fold F3.
  destruct (trim (default [] (data_excerpt data))) as [|e es] eqn:E.
  - cbn [foldl st_fields st_categories replace_unit escape_quotes flat_map].
    f_equal. subst C. by destruct categories.
  - cbn [foldl].
    rewrite (front_line_quoted _ _ (js "excerpt")); [|done|by repeat constructor|done|].
    + cbn [st_fields st_categories].
      change (key_name (toLowerCase_key (js "excerpt"))) with "excerpt"%string.
      assert (Hne : replace_unit line_feed [32] (escape_quotes (e :: es)) ≠ []).
      { unfold escape_quotes, replace_unit. cbn [flat_map].
        destruct (e =? double_quote); cbn [app flat_map]; [done|].
        by destruct (e =? line_feed). }
      destruct (replace_unit line_feed [32] (escape_quotes (e :: es))) as [|x xs]; [done|].
      f_equal. subst C. by destruct categories.
    + apply Forall_replace_unit; [by repeat constructor|].
      apply Forall_escape_quotes; [by right|by right|done].
Qed.

Lemma written_fields_lookup (title date excerpt : jsstring) (draft : option bool) :
  let F := written_fields title date excerpt draft in
  F !! "title"%string = Some title
  ∧ F !! "date"%string = Some (strip_quotes (trim date))
  ∧ F !! "draft"%string = (λ b : bool, if b then js "true" else js "false") <$> draft
  ∧ default [] (F !! "excerpt"%string) = excerpt.
Proof.
  unfold written_fields. cbv zeta.
  destruct draft as [b|], excerpt as [|e es]; cbn [fmap option_fmap option_map];
    repeat split;
    repeat first [rewrite lookup_insert_eq | rewrite lookup_insert_ne by done
                 | rewrite lookup_empty]; done.
Qed.

(** X19.  What the build reads back from a post the writer server wrote.
    For a title, a date and category names without line terminators, and
    an excerpt with none but line feeds, [parseFrontmatter] of
    build-from-markdown.js finds in the text of [buildMarkdownContent]: the
    title with the backslashes the writer put before its double quotes, the
    date, the draft flag, the excerpt as it was written on one line, the
    body after one line feed, and no category at all: the names written
    one per line under a bare [categories:] key are not read. *)
Theorem written_post_read_back (today : jsstring) (data : writer_data) :
  let title := or_else (trim (default [] (data_title data))) (js "Untitled") in
  let date := or_else (trim (default [] (data_date data))) today in
  let excerpt := trim (default [] (data_excerpt data)) in
  let body := trim (default [] (data_body data)) in
  let read := parseFrontmatter (buildMarkdownContent today data) in
  Forall (λ c, is_line_terminator c = false) title →
  Forall (λ c, is_line_terminator c = false) date →
  Forall (λ c, c = line_feed ∨ is_line_terminator c = false) excerpt →
  Forall (Forall (λ c, is_line_terminator c = false))
    (categories_of (data_categories data)) →
  field "title" read.1 = escape_quotes title
  ∧ field "date" read.1 = strip_quotes (trim date)
  ∧ is_draft read.1 = bool_decide (data_draft data = Some true)
  ∧ field "excerpt" read.1 = replace_unit line_feed [32] (escape_quotes excerpt)
  ∧ meta_categories read.1 = []
  ∧ read.2 = match body with [] => [] | _ => line_feed :: body end.
Proof.
  intros title date excerpt body read Ht Hd He Hc. subst read.
  unfold parseFrontmatter.
  rewrite (parse_written categories_line today data Ht Hd He Hc).
  fold title date excerpt body. cbn [fst snd]. unfold field, is_draft. cbn [fields meta_categories].
  destruct (written_fields_lookup (escape_quotes title) date
              (replace_unit line_feed [32] (escape_quotes excerpt)) (data_draft data))
    as (-> & -> & -> & ->).
  repeat split.
  - by destruct (data_draft data) as [[]|].
  - by destruct (categories_of (data_categories data)).
Qed.

Lemma written_post_read_back_witness :
  let read := parseFrontmatter (buildMarkdownContent (js "2026-01-01") sample_data) in
  field "title" read.1
  = js "A " ++ [92; double_quote] ++ js "quoted" ++ [92; double_quote] ++ js " title"
  ∧ meta_categories read.1 = []
  ∧ read.2 = line_feed :: js "Body" ++ [line_feed; line_feed] ++ js "text".
Proof.
  destruct (written_post_read_back (js "2026-01-01") sample_data
              ltac:(by_evaluation) ltac:(by_evaluation)
              ltac:(by_evaluation) ltac:(by_evaluation))
    as (Ht & _ & _ & _ & Hc & Hb).
  split; [exact Ht|]. split; [exact Hc|exact Hb].
Defined.

(** X20.  The writer server with revisions reads the category names back.
    Under the same conditions its [parseFrontmatter] finds the same title,
    date, draft flag, excerpt and body as the one of the build, and the
    category names in the order written, each without the white space at
    its head and without a quote at its head or end, the empty ones left
    out. *)
Theorem written_post_read_back_rev (today : jsstring) (data : writer_data) :
  let title := or_else (trim (default [] (data_title data))) (js "Untitled") in
  let date := or_else (trim (default [] (data_date data))) today in
  let excerpt := trim (default [] (data_excerpt data)) in
  let written := buildMarkdownContent today data in
  Forall (λ c, is_line_terminator c = false) title →
  Forall (λ c, is_line_terminator c = false) date →
  Forall (λ c, c = line_feed ∨ is_line_terminator c = false) excerpt →
  Forall (Forall (λ c, is_line_terminator c = false))
    (categories_of (data_categories data)) →
  meta_categories (parseFrontmatter_rev written).1
  = filter_Boolean ((λ c, strip_quotes (trimStart c)) <$> categories_of (data_categories data))
  ∧ fields (parseFrontmatter_rev written).1 = fields (parseFrontmatter written).1
  ∧ (parseFrontmatter_rev written).2 = (parseFrontmatter written).2.
Proof.
  intros title date excerpt written Ht Hd He Hc. subst written.
  unfold parseFrontmatter, parseFrontmatter_rev.
  rewrite (parse_written categories_line today data Ht Hd He Hc).
  rewrite (parse_written categories_line_rev today data Ht Hd He Hc).
  cbn [fst snd fields meta_categories]. split; [|done].
  by destruct (categories_of (data_categories data)).
Qed.

Lemma written_post_read_back_rev_witness :
  meta_categories (parseFrontmatter_rev (buildMarkdownContent (js "2026-01-01") sample_data)).1
  = [js "Travel"; js "Brazil"].
Proof.
  destruct (written_post_read_back_rev (js "2026-01-01") sample_data
              ltac:(by_evaluation) ltac:(by_evaluation)
              ltac:(by_evaluation) ltac:(by_evaluation))
    as (Hc & _ & _).
  exact Hc.
Defined.

Example parseFrontmatter_samples :
  let documented :=
    js "---" ++ [line_feed] ++ js "title: Hello" ++ [line_feed]
    ++ js "date: 2025-02-08" ++ [line_feed]
    ++ js "categories:" ++ [line_feed] ++ js "  - Travel" ++ [line_feed]
    ++ js "  - Brazil" ++ [line_feed] ++ js "---" ++ [line_feed] ++ js "Body" ++ [line_feed] in
  let inline :=
    js "---" ++ [line_feed] ++ js "Categories:   Travel " ++ [line_feed]
    ++ js " - 'Brazil'" ++ [line_feed] ++ js "draft: true" ++ [carriage_return; line_feed]
    ++ js "---" ++ [line_feed] ++ js "Body" in
  meta_categories (parseFrontmatter documented).1 = []
  ∧ meta_categories (parseFrontmatter_rev documented).1 = [js "Travel"; js "Brazil"]
  ∧ field "title" (parseFrontmatter documented).1 = js "Hello"
  ∧ (parseFrontmatter documented).2 = js "Body"
  ∧ meta_categories (parseFrontmatter inline).1 = [js "Travel"; js "Brazil"]
  ∧ is_draft (parseFrontmatter inline).1 = true
  ∧ parseFrontmatter (js "no fences") = ({| fields := ∅; meta_categories := [] |}, js "no fences").
Proof. repeat split; vm_compute; reflexivity. Qed.

(** ** Entry content of a post page *)

Lemma index_from_ge (t s : jsstring) (i j : nat) :
  index_from t s i = Some j → (i ≤ j)%nat.
Proof.
  revert i. induction s as [|c s IH]; intros i; cbn [index_from].
  - destruct (startsWith [] t); [|done]. intros [= <-]. lia.
  - destruct (startsWith (c :: s) t); [intros [= <-]; lia|].
    intros H%IH. lia.
Qed.

Lemma index_from_lt (t s : jsstring) (i j : nat) :
  t ≠ [] → index_from t s i = Some j → (j < i + length s)%nat.
Proof.
  intros Ht. revert i. induction s as [|c s IH]; intros i; cbn [index_from].
  - by destruct t.
  - destruct (startsWith (c :: s) t); [intros [= <-]; cbn; lia|].
    intros H%IH. cbn. lia.
Qed.

Lemma index_from_includes (t s : jsstring) (i : nat) :
  includes s t = true → is_Some (index_from t s i).
Proof.
  revert i. induction s as [|c s IH]; intros i; cbn [index_from includes].
  - rewrite orb_false_r. by intros ->.
  - destruct (startsWith (c :: s) t); [done|]. cbn [orb]. apply IH.
Qed.

Lemma includes_app_r (a b t : jsstring) :
  includes b t = true → includes (a ++ b) t = true.
Proof.
  intros Hb. induction a as [|c a IH]; [done|].
  cbn [app includes]. rewrite IH. apply orb_true_r.
Qed.

Lemma includes_startsWith (s t : jsstring) :
  startsWith s t = true → includes s t = true.
Proof. intros H. destruct s; cbn [includes]; by rewrite H. Qed.

Lemma startsWith_app_cases (t r n : jsstring) (x : N) :
  startsWith (t ++ x :: r) n = true →
  startsWith t n = true ∨ n !! length t = Some x.
Proof.
  revert n. induction t as [|a t IH]; intros [|b n]; cbn [app startsWith length];
    try (by left).
  - intros [->%N.eqb_eq _]%andb_true_iff. by right.
  - intros [Hab [H|H]%IH]%andb_true_iff; [left; by rewrite Hab|by right].
Qed.

(** The search passes over a text in which the tag does not occur, up to
    the [<] that follows it: the tags searched for hold no [<] but their
    first unit. *)
Lemma index_from_skip (n t r : jsstring) (i : nat) :
  60 ∉ tail n → includes t n = false →
  index_from n (t ++ 60 :: r) i = index_from n (60 :: r) (i + length t).
Proof.
  intros Hn. revert i. induction t as [|a t IH]; intros i Ht.
  - cbn [app length]. by rewrite Nat.add_0_r.
  - cbn [includes] in Ht. apply orb_false_iff in Ht as [Hs Ht].
    assert (Hno : startsWith ((a :: t) ++ 60 :: r) n = false).
    { apply not_true_is_false. intros [H|H]%startsWith_app_cases; [congruence|].
      apply Hn. destruct n as [|b n]; [done|]. cbn [length] in H. cbn [tail].
      by eapply list_elem_of_lookup_2. }
    cbn [app] in *. cbn [index_from]. rewrite Hno. rewrite IH by done.
    cbn [length]. by rewrite Nat.add_succ_comm.
Qed.

Lemma index_from_hit (t s : jsstring) (i : nat) :
  startsWith s t = true → index_from t s i = Some i.
Proof. intros H. destruct s; cbn [index_from]; by rewrite H. Qed.

Lemma index_from_miss (t s : jsstring) (c : N) (i : nat) :
  startsWith (c :: s) t = false → index_from t (c :: s) i = index_from t s (S i).
Proof. intros H. cbn [index_from]. by rewrite H. Qed.

Lemma indexOf_app (front s t : jsstring) :
  indexOf (front ++ s) t (length front) = index_from t s (length front).
Proof. unfold indexOf. by rewrite drop_app_length. Qed.

Lemma length_render_piece (front t : jsstring) (b : bool) :
  length (front ++ t ++ (if b then div_open else div_close))
  = (length front + length t + if b then 4 else 6)%nat.
Proof. rewrite !length_app. destruct b; cbn; lia. Qed.

Lemma includes_close_render (pieces : list (jsstring * bool)) (t rest : jsstring) :
  includes (render pieces ++ t ++ div_close ++ rest) div_close = true.
Proof.
  rewrite app_assoc. apply includes_app_r, includes_startsWith, startsWith_app.
Qed.

(** The loop, begun in front of well-nested pieces with [S depth] elements
    open, comes to depth 0 at the closing tag behind them. *)
Lemma entry_end_nested (pieces : list (jsstring * bool)) :
  ∀ (front last rest : jsstring) (depth fuel : nat),
    Forall (λ p, div_free p.1) pieces → div_free last →
    nested depth pieces = true →
    (length pieces < fuel)%nat →
    entry_end fuel
      (front ++ render pieces ++ last ++ div_close ++ rest) (S depth) (length front)
    = Some (Some (length (front ++ render pieces ++ last))).
Proof.
  induction pieces as [|[t b] pieces IH];
    intros front last rest depth fuel Hfree [Hlo Hlc] Hnest Hfuel.
  - cbn [nested] in Hnest. apply Nat.eqb_eq in Hnest as ->.
    destruct fuel as [|fuel]; [cbn in Hfuel; lia|].
    cbn [render flat_map app entry_end].
    assert (Hpos : (length front <? length (front ++ last ++ div_close ++ rest))%nat = true).
    { apply Nat.ltb_lt. rewrite !length_app. cbn. lia. }
    rewrite Hpos, (proj2 (Nat.ltb_lt 0 _)) by lia. cbn [andb]. rewrite !indexOf_app.
    change (last ++ div_close ++ rest) with (last ++ 60 :: js "/div>" ++ rest).
    rewrite !index_from_skip; [|by_evaluation|done|by_evaluation|done].
    rewrite (index_from_hit div_close) by apply (startsWith_app div_close).
    rewrite (index_from_miss div_open) by reflexivity.
    cbv zeta.
    assert (Ho : match index_from div_open (js "/div>" ++ rest) (S (length front + length last)) with
                 | Some nextOpen => if (nextOpen <? length front + length last)%nat
                                    then Some nextOpen else None
                 | None => None
                 end = None).
    { destruct (index_from _ _ _) as [j|] eqn:E; [|done].
      apply index_from_ge in E. by rewrite (proj2 (Nat.ltb_ge _ _)) by lia. }
    rewrite Ho. cbn [Nat.sub Nat.eqb]. by rewrite length_app.
  - destruct fuel as [|fuel]; [cbn in Hfuel; lia|]. cbn [length] in Hfuel.
    apply Forall_cons in Hfree as [[Hto Htc] Hfree]. cbn [fst] in Hto, Htc.
    cbn [render flat_map fst snd]. fold (render pieces).
    set (tag := if b then div_open else div_close).
    set (tl := render pieces ++ last ++ div_close ++ rest).
    assert (Hhtml : front ++ (t ++ tag) ++ tl = front ++ t ++ tag ++ tl)
      by by rewrite <- !app_assoc.
    replace (front ++ ((t ++ tag) ++ render pieces) ++ last ++ div_close ++ rest)
      with (front ++ t ++ tag ++ tl) by (subst tl; by rewrite <- !app_assoc).
    cbn [entry_end].
    assert (Hpos : (length front <? length (front ++ t ++ tag ++ tl))%nat = true).
    { apply Nat.ltb_lt. rewrite !length_app. subst tag. destruct b; cbn; lia. }
    rewrite Hpos, (proj2 (Nat.ltb_lt 0 _)) by lia. cbn [andb]. rewrite !indexOf_app.
    assert (Hnext : (front ++ t ++ tag) ++ tl = front ++ t ++ tag ++ tl)
      by by rewrite <- !app_assoc.
    destruct b; subst tag.
    + (* an opening tag *)
      change (t ++ div_open ++ tl) with (t ++ 60 :: js "div" ++ tl).
      rewrite !index_from_skip; [|by_evaluation|done|by_evaluation|done].
      rewrite (index_from_hit div_open) by apply (startsWith_app div_open).
      rewrite (index_from_miss div_close) by reflexivity.
      destruct (index_from_includes div_close (js "div" ++ tl)
                  (S (length front + length t))) as [k Hk].
      { apply includes_app_r. subst tl. apply includes_close_render. }
      rewrite Hk. apply index_from_ge in Hk. cbv zeta.
      rewrite (proj2 (Nat.ltb_lt _ _)) by lia.
      cbn [nested] in Hnest.
      specialize (IH (front ++ t ++ div_open) last rest (S depth) fuel Hfree
                    (conj Hlo Hlc) Hnest ltac:(lia)).
      fold tl in IH. rewrite Hnext in IH.
      rewrite (length_render_piece front t true) in IH.
      change (t ++ 60 :: js "div" ++ tl) with (t ++ div_open ++ tl).
      rewrite IH. do 2 f_equal. by rewrite <- !app_assoc.
    + (* a closing tag *)
      cbn [nested] in Hnest. destruct depth as [|depth]; [done|].
      change (t ++ div_close ++ tl) with (t ++ 60 :: js "/div>" ++ tl).
      rewrite !index_from_skip; [|by_evaluation|done|by_evaluation|done].
      rewrite (index_from_hit div_close) by apply (startsWith_app div_close).
      rewrite (index_from_miss div_open) by reflexivity.
      cbv zeta.
      assert (Ho : match index_from div_open (js "/div>" ++ tl) (S (length front + length t)) with
                   | Some nextOpen => if (nextOpen <? length front + length t)%nat
                                      then Some nextOpen else None
                   | None => None
                   end = None).
      { destruct (index_from _ _ _) as [j|] eqn:E; [|done].
        apply index_from_ge in E. by rewrite (proj2 (Nat.ltb_ge _ _)) by lia. }
      rewrite Ho. cbn [Nat.sub Nat.eqb].
      specialize (IH (front ++ t ++ div_close) last rest depth fuel Hfree
                    (conj Hlo Hlc) Hnest ltac:(lia)).
      fold tl in IH. rewrite Hnext in IH.
      rewrite (length_render_piece front t false) in IH.
      change (t ++ 60 :: js "/div>" ++ tl) with (t ++ div_close ++ tl).
      rewrite IH. do 2 f_equal. by rewrite <- !app_assoc.
Qed.

Lemma index_from_unit (c : N) (t r : jsstring) (i : nat) :
  c ∉ t → index_from [c] (t ++ c :: r) i = Some (i + length t)%nat.
Proof.
  revert i. induction t as [|a t IH]; intros i Hc.
  - cbn [app length]. rewrite index_from_hit; [by rewrite Nat.add_0_r|].
    cbn [startsWith]. rewrite N.eqb_refl. by destruct r.
  - apply not_elem_of_cons in Hc as [Hca Hc]. cbn [app].
    rewrite index_from_miss.
    + rewrite IH by done. cbn [length]. by rewrite Nat.add_succ_comm.
    + cbn [startsWith]. by rewrite (proj2 (N.eqb_neq a c)) by done.
Qed.

Lemma length_render (pieces : list (jsstring * bool)) :
  (length pieces ≤ length (render pieces))%nat.
Proof.
  induction pieces as [|[t b] pieces IH]; [done|].
  cbn [render flat_map length fst snd]. fold (render pieces).
  rewrite !length_app. destruct b; cbn; lia.
Qed.

(** X21.  [extractEntryContent] finds the content of a well-formed page.
    When the start tag first occurs behind [pre], and what follows it is
    content whose [div] tags are well nested, then the closing tag of the
    element, the result is that content, trimmed, whatever comes after;
    the loop needs no more turns than the page has units. *)
Theorem extractEntryContent_nested (pre : jsstring) (pieces : list (jsstring * bool))
    (last post : jsstring) (fuel : nat) :
  let content := render pieces ++ last in
  let html := pre ++ startTag ++ content ++ div_close ++ post in
  includes pre startTag = false →
  Forall (λ p, div_free p.1) pieces → div_free last →
  nested 0 pieces = true →
  (length html < fuel)%nat →
  extractEntryContent fuel html = Some (trim content).
Proof.
  intros content html Hpre Hfree Hlast Hnest Hfuel.
  assert (Hhtml : html = (pre ++ startTag) ++ render pieces ++ last ++ div_close ++ post).
  { subst html content. by rewrite <- !app_assoc. }
  unfold extractEntryContent.
  assert (Hidx : indexOf html startTag 0 = Some (length pre)).
  { unfold indexOf. rewrite drop_0. subst html.
    change (pre ++ startTag ++ ?x) with (pre ++ 60 :: tail startTag ++ x).
    rewrite index_from_skip; [|by_evaluation|done].
    by rewrite (index_from_hit startTag) by apply (startsWith_app startTag). }
  rewrite Hidx.
  assert (Hstart : indexOf html [62] (length pre) = Some (length pre + 26)%nat).
  { subst html. rewrite indexOf_app.
    change (startTag ++ ?x)
      with ((js "<div class=" ++ [double_quote] ++ js "entry-content" ++ [double_quote])
            ++ 62 :: x).
    rewrite index_from_unit by by_evaluation. done. }
  rewrite Hstart. cbv zeta.
  replace (S (length pre + 26)) with (length (pre ++ startTag))
    by (rewrite length_app; cbn; lia).
  rewrite Hhtml at 1.
  rewrite entry_end_nested; [|done..|].
  2:{ pose proof (length_render pieces). rewrite Hhtml in Hfuel.
      rewrite !length_app in Hfuel. lia. }
  f_equal. f_equal. rewrite Hhtml.
  replace (length ((pre ++ startTag) ++ render pieces ++ last))
    with (length (pre ++ startTag) + length content)%nat
    by (subst content; by rewrite !length_app).
  rewrite Nat2Z.inj_add, js_slice_take_drop, drop_app_length.
  fold content. rewrite app_assoc. apply take_app_length.
Qed.

Lemma extractEntryContent_nested_witness :
  extractEntryContent 200
    (sample_pre ++ startTag ++ (render sample_pieces ++ sample_last)
     ++ div_close ++ sample_post)
  = Some (js "<p>Hello</p><div class='a'>x<div>y</div></div> tail").
Proof.
  apply (extractEntryContent_nested sample_pre sample_pieces sample_last sample_post 200).
  - vm_compute. reflexivity.
  - repeat (constructor; [split; vm_compute; reflexivity|]). constructor.
  - split; vm_compute; reflexivity.
  - vm_compute. reflexivity.
  - vm_compute. lia.
Defined.

Lemma entry_end_fuel_S (fuel : nat) (html : jsstring) :
  ∀ depth pos r,
    entry_end fuel html depth pos = Some r →
    entry_end (S fuel) html depth pos = Some r.
Proof.
  induction fuel as [|fuel IH]; intros depth pos r; [done|].
  intros H. cbn [entry_end] in H. change (entry_end (S (S fuel)) html depth pos)
    with (if (0 <? depth)%nat && (pos <? length html)%nat then
            match indexOf html div_close pos with
            | None => Some None
            | Some nextClose =>
                let opens :=
                  match indexOf html div_open pos with
                  | Some nextOpen =>
                      if (nextOpen <? nextClose)%nat then Some nextOpen else None
                  | None => None
                  end in
                match opens with
                | Some nextOpen => entry_end (S fuel) html (S depth) (nextOpen + 4)
                | None =>
                    if (depth - 1 =? 0)%nat then Some (Some nextClose)
                    else entry_end (S fuel) html (depth - 1) (nextClose + 6)
                end
            end
          else Some None).
  destruct ((0 <? depth)%nat && (pos <? length html)%nat); [|done].
  destruct (indexOf html div_close pos) as [nextClose|]; [|done].
  cbv zeta in *.
  destruct (match indexOf html div_open pos with Some _ => _ | None => _ end) as [nextOpen|].
  - by apply IH.
  - destruct (depth - 1 =? 0)%nat; [done|]. by apply IH.
Qed.

Lemma entry_end_fuel_le (fuel fuel' : nat) (html : jsstring) (depth pos : nat) r :
  (fuel ≤ fuel')%nat →
  entry_end fuel html depth pos = Some r → entry_end fuel' html depth pos = Some r.
Proof. intros Hle Hr. induction Hle as [|k Hle IH]; [done|]. by apply entry_end_fuel_S. Qed.

Lemma indexOf_ge (s t : jsstring) (from j : nat) :
  indexOf s t from = Some j → (from ≤ j)%nat.
Proof. apply index_from_ge. Qed.

Lemma entry_end_returns (fuel : nat) (html : jsstring) :
  ∀ depth pos,
    (length html - pos < fuel)%nat → is_Some (entry_end fuel html depth pos).
Proof.
  induction fuel as [|fuel IH]; intros depth pos Hfuel; [lia|].
  cbn [entry_end].
  destruct (0 <? depth)%nat; cbn [andb]; [|done].
  destruct (Nat.ltb_spec pos (length html)) as [Hpos|Hpos]; [|done].
  destruct (indexOf html div_close pos) as [nextClose|] eqn:Hc; [|done].
  apply indexOf_ge in Hc. cbv zeta.
  destruct (indexOf html div_open pos) as [nextOpen|] eqn:Ho.
  - apply indexOf_ge in Ho. destruct (nextOpen <? nextClose)%nat.
    + apply IH. lia.
    + destruct (depth - 1 =? 0)%nat; [done|]. apply IH. lia.
  - destruct (depth - 1 =? 0)%nat; [done|]. apply IH. lia.
Qed.

(** X22.  The loop of [extractEntryContent] ends on every page: each turn
    moves the position forward by at least four units, so a bound above
    the length of the page is never reached, and the result does not depend
    on the bound. *)
Theorem extractEntryContent_terminates (html : jsstring) :
  ∃ r, ∀ fuel, (length html < fuel)%nat → extractEntryContent fuel html = Some r.
Proof.
  unfold extractEntryContent.
  destruct (indexOf html startTag 0) as [idx|]; [|by exists []].
  cbv zeta. set (start := match indexOf html [62] idx with Some i => S i | None => O end).
  destruct (entry_end_returns (S (length html)) html 1 start) as [r Hr]; [lia|].
  exists (match r with
          | None => []
          | Some nextClose => trim (js_slice (Z.of_nat start) (Z.of_nat nextClose) html)
          end).
  intros fuel Hfuel.
  rewrite (entry_end_fuel_le (S (length html)) fuel html 1 start r ltac:(lia) Hr).
  by destruct r.
Qed.

(** ** Category pages *)

Lemma addCategoryWithPath_S (fuel : nat) (cats : cat_map) (n : jsstring)
    (path : list jsstring) (out : list cat_slug) :
  addCategoryWithPath (S fuel) cats n path out
  = match map_get n cats with
    | None => Some out
    | Some info =>
        match name info with
        | [] => Some out
        | _ =>
            foldl (with_child fuel cats (path ++ [name info]))
              (Some (out ++ [{| nicename := n; cat_name := name info;
                                slug := join [hyphen]
                                          (categorySlug <$> path ++ [name info]) |}]))
              (children cats n)
        end
    end.
Proof.
  cbn [addCategoryWithPath]. destruct (map_get n cats) as [info|]; [|done].
  destruct (name info) as [|x nm] eqn:E; [done|]. cbv zeta.
  unfold getDirectChildren, children. rewrite !foldl_fmap. done.
Qed.

Lemma allCategoriesWithSlug_fold (fuel : nat) (cats : cat_map) :
  allCategoriesWithSlug fuel cats = foldl (with_top fuel cats) (Some []) (topLevelCats cats).
Proof. reflexivity. Qed.

Lemma foldl_with_child_None (fuel : nat) (cats : cat_map) (path : list jsstring)
    (l : list jsstring) :
  foldl (with_child fuel cats path) None l = None.
Proof. by induction l. Qed.

Lemma foldl_with_top_None (fuel : nat) (cats : cat_map) (l : list jsstring) :
  foldl (with_top fuel cats) None l = None.
Proof. by induction l. Qed.

Lemma addCategoryWithPath_terminates (cats : cat_map) :
  cat_map_ok cats →
  ∀ fuel n d path out,
    rootdist cats n d → (length cats < fuel + d)%nat →
    ∃ r, addCategoryWithPath fuel cats n path out = Some r.
Proof.
  intros Hok. induction fuel as [|fuel IH]; intros n d path out Hr Hfuel.
  { apply rootdist_bound in Hr. lia. }
  rewrite addCategoryWithPath_S. destruct (rootdist_in_map _ _ _ Hr) as [info ->].
  destruct (name info) as [|x nm]; [by eexists|].
  generalize (out ++ [{| nicename := n; cat_name := x :: nm;
                         slug := join [hyphen] (categorySlug <$> path ++ [x :: nm]) |}]).
  assert (Hsub : ∀ c, c ∈ children cats n → c ∈ children cats n) by done.
  revert Hsub. generalize (children cats n) at 1 3.
  induction l as [|c l IHl]; intros Hsub acc; cbn [foldl]; [by exists acc|].
  destruct (IH c (S d) (path ++ [x :: nm]) acc) as [r' Hr'].
  { eapply rootdist_children; [done..|]. apply Hsub. by left. }
  { lia. }
  cbn [with_child]. rewrite Hr'. apply IHl. intros c' Hc'. apply Hsub. by right.
Qed.

Lemma addCategoryWithPath_fuel_S (cats : cat_map) (fuel : nat) :
  ∀ n path out r,
    addCategoryWithPath fuel cats n path out = Some r →
    addCategoryWithPath (S fuel) cats n path out = Some r.
Proof.
  induction fuel as [|fuel IH]; intros n path out r; [done|].
  rewrite (addCategoryWithPath_S (S fuel)), (addCategoryWithPath_S fuel).
  destruct (map_get n cats) as [info|]; [|done].
  destruct (name info) as [|x nm]; [done|].
  generalize (out ++ [{| nicename := n; cat_name := x :: nm;
                         slug := join [hyphen] (categorySlug <$> path ++ [x :: nm]) |}]).
  generalize (children cats n).
  induction l as [|c l IHl]; intros acc; cbn [foldl]; [done|].
  cbn [with_child]. destruct (addCategoryWithPath fuel cats c _ acc) as [r'|] eqn:E.
  - rewrite (IH _ _ _ _ E). apply IHl.
  - by rewrite foldl_with_child_None.
Qed.

Lemma addCategoryWithPath_fuel_le (cats : cat_map) (fuel fuel' : nat) (n : jsstring)
    (path : list jsstring) (out r : list cat_slug) :
  (fuel ≤ fuel')%nat →
  addCategoryWithPath fuel cats n path out = Some r →
  addCategoryWithPath fuel' cats n path out = Some r.
Proof.
  intros Hle Hr. induction Hle as [|k Hle IH]; [done|].
  by apply addCategoryWithPath_fuel_S.
Qed.

Lemma addCategoryWithPath_grows (cats : cat_map) (fuel : nat) :
  ∀ n path out r,
    addCategoryWithPath fuel cats n path out = Some r → ∀ e, e ∈ out → e ∈ r.
Proof.
  induction fuel as [|fuel IH]; intros n path out r; [done|].
  rewrite addCategoryWithPath_S. destruct (map_get n cats) as [info|]; [|by intros [= ->]].
  destruct (name info) as [|x nm]; [by intros [= ->]|].
  intros Hfold e He.
  set (entry := {| nicename := n; cat_name := x :: nm; slug := _ |}) in Hfold.
  assert (He' : e ∈ out ++ [entry]) by (apply elem_of_app; by left).
  revert Hfold He'. generalize (out ++ [entry]). generalize (children cats n).
  induction l as [|c l IHl]; intros acc; cbn [foldl]; [by intros [= ->]|].
  cbn [with_child]. destruct (addCategoryWithPath fuel cats c _ acc) as [r'|] eqn:E.
  - intros Hfold Hacc. apply (IHl r'); [done|]. by eapply IH.
  - by rewrite foldl_with_child_None.
Qed.

Lemma foldl_with_child_grows (cats : cat_map) (fuel : nat) (path : list jsstring)
    (l : list jsstring) :
  ∀ acc r, foldl (with_child fuel cats path) (Some acc) l = Some r →
           ∀ e, e ∈ acc → e ∈ r.
Proof.
  induction l as [|c l IHl]; intros acc r; cbn [foldl]; [by intros [= ->]|].
  cbn [with_child]. destruct (addCategoryWithPath fuel cats c path acc) as [r'|] eqn:E.
  - intros Hfold e He. apply (IHl r'); [done|]. by eapply addCategoryWithPath_grows.
  - by rewrite foldl_with_child_None.
Qed.

(** What [addCategoryWithPath] adds are entries of categories at or below
    the one it is called for, each with the slug of its path. *)
Lemma addCategoryWithPath_sound (cats : cat_map) :
  cat_map_ok cats →
  ∀ fuel n path out r,
    addCategoryWithPath fuel cats n path out = Some r →
    ∀ e, e ∈ r →
         e ∈ out ∨ ∃ m names, lineage cats n m names ∧ path_entry cats m (path ++ names) e.
Proof.
  intros Hok. induction fuel as [|fuel IH]; intros n path out r; [done|].
  rewrite addCategoryWithPath_S. destruct (map_get n cats) as [info|] eqn:Hget.
  2:{ intros [= ->] e He. by left. }
  destruct (name info) as [|x nm] eqn:Hname; [intros [= ->] e He; by left|].
  intros Hfold e He. rewrite <- Hname in *.
  set (entry := {| nicename := n; cat_name := name info; slug := _ |}) in Hfold.
  assert (Hgen : ∀ (l : list jsstring) acc,
    (∀ c, c ∈ l → c ∈ children cats n) →
    foldl (with_child fuel cats (path ++ [name info])) (Some acc) l = Some r →
    e ∈ acc ∨ ∃ m names, lineage cats n m names ∧ path_entry cats m (path ++ names) e).
  { induction l as [|c l IHl]; intros acc Hl; cbn [foldl]; [intros [= ->]; by left|].
    cbn [with_child]. destruct (addCategoryWithPath fuel cats c _ acc) as [r'|] eqn:E.
    2:{ by rewrite foldl_with_child_None. }
    intros Hrest. destruct (IHl r') as [Hr'|Hb]; [intros; apply Hl; by right|done| |by right].
    destruct (IH _ _ _ _ E e Hr') as [?|(m & names & Hlin & Hent)]; [by left|right].
    destruct (elem_of_children cats n c Hok) as (ic & Hc & Hp); [apply Hl; by left|].
    exists m, (name info :: names). split; [by eapply lineage_child|].
    by rewrite <- app_assoc in Hent. }
  destruct (Hgen (children cats n) (out ++ [entry])) as [Hin|Hb]; [done|done| |by right].
  apply elem_of_app in Hin as [?|Hin%list_elem_of_singleton]; [by left|right].
  subst e.
  exists n, [name info]. split; [by apply lineage_self|]. by exists info.
Qed.

Lemma addCategoryWithPath_own (cats : cat_map) (fuel : nat) (n : jsstring)
    (info : cat_info) (path : list jsstring) (out r : list cat_slug) :
  addCategoryWithPath fuel cats n path out = Some r →
  map_get n cats = Some info → name info ≠ [] →
  {| nicename := n; cat_name := name info;
     slug := join [hyphen] (categorySlug <$> path ++ [name info]) |} ∈ r.
Proof.
  destruct fuel as [|fuel]; [done|]. rewrite addCategoryWithPath_S.
  intros Hfold Hget Hname. rewrite Hget in Hfold.
  destruct (name info) as [|x nm] eqn:E; [done|].
  eapply foldl_with_child_grows; [exact Hfold|].
  apply elem_of_app. right. by apply list_elem_of_singleton.
Qed.

Lemma addCategoryWithPath_complete (cats : cat_map) (n m : jsstring)
    (names : list jsstring) :
  all_named cats → lineage cats n m names →
  ∀ fuel path out r e,
    addCategoryWithPath fuel cats n path out = Some r →
    path_entry cats m (path ++ names) e → e ∈ r.
Proof.
  intros Hnamed.
  induction 1 as [n info Hget|n ninfo c ic m names Hn Hc Hp Hlin IH];
    intros fuel path out r e Hrun (info' & Hget' & ->).
  { rewrite Hget in Hget'. injection Hget' as <-.
    eapply addCategoryWithPath_own; [done..|].
    eapply Hnamed. by apply map_get_elem_of. }
  destruct fuel as [|fuel]; [done|]. rewrite addCategoryWithPath_S, Hn in Hrun.
  assert (Hne : name ninfo ≠ []) by (eapply Hnamed; by apply map_get_elem_of).
  destruct (name ninfo) as [|x nm] eqn:E; [done|]. rewrite <- E in *.
  pose proof (children_elem_of cats n c ic Hc Hp) as Hin.
  revert Hrun Hin.
  generalize (out ++ [{| nicename := n; cat_name := name ninfo;
                         slug := join [hyphen] (categorySlug <$> path ++ [name ninfo]) |}]).
  generalize (children cats n).
  induction l as [|c' l IHl]; intros acc Hrun Hin; [by apply elem_of_nil in Hin|].
  cbn [foldl with_child] in Hrun.
  destruct (addCategoryWithPath fuel cats c' _ acc) as [r'|] eqn:Ec.
  2:{ by rewrite foldl_with_child_None in Hrun. }
  apply elem_of_cons in Hin as [<-|Hin].
  - eapply foldl_with_child_grows; [exact Hrun|].
    eapply IH; [exact Ec|]. exists info'. split; [done|].
    by rewrite <- app_assoc.
  - by apply (IHl r').
Qed.

Lemma nameToNicename_sound (cats : cat_map) (k v : jsstring) :
  (k, v) ∈ nameToNicename cats → v ∈ cats.*1.
Proof.
  unfold nameToNicename.
  assert (H : ∀ (l : cat_map) m,
    (∀ k v, (k, v) ∈ m → v ∈ cats.*1) → (∀ e, e ∈ l → e ∈ cats) →
    ∀ k v, (k, v) ∈ foldl (λ m e, match name e.2 with
                                   | [] => m
                                   | _ => map_set (name e.2) e.1 m
                                   end) m l → v ∈ cats.*1).
  { induction l as [|e l IH]; intros m Hm Hl k' v'; cbn [foldl]; [apply Hm|].
    apply IH; [|intros; apply Hl; by right].
    intros k'' v''. destruct (name e.2) as [|x nm]; [apply Hm|].
    intros [[= -> ->]|Hin]%elem_of_map_set; [|by eapply Hm].
    apply list_elem_of_fmap. exists e. split; [done|]. apply Hl. by left. }
  apply (H cats []); [by intros ?? ?%elem_of_nil|done].
Qed.

Lemma with_top_returns (cats : cat_map) (fuel : nat) (top : jsstring)
    (acc : list cat_slug) :
  cat_map_ok cats → forest cats → (length cats < fuel)%nat →
  ∃ r, with_top fuel cats (Some acc) top = Some r.
Proof.
  intros Hok Hforest Hfuel. cbn [with_top].
  destruct (map_get top (nameToNicename cats)) as [[|x start]|] eqn:E; [by eexists| |by eexists].
  destruct (Hforest (x :: start)) as [d Hd].
  { eapply nameToNicename_sound. by apply map_get_elem_of. }
  eapply addCategoryWithPath_terminates; [done..|lia].
Qed.

Lemma with_top_fuel_le (cats : cat_map) (fuel fuel' : nat) (top : jsstring)
    (acc r : list cat_slug) :
  (fuel ≤ fuel')%nat →
  with_top fuel cats (Some acc) top = Some r → with_top fuel' cats (Some acc) top = Some r.
Proof.
  intros Hle. cbn [with_top].
  destruct (map_get top (nameToNicename cats)) as [[|x start]|]; [done| |done].
  by apply addCategoryWithPath_fuel_le.
Qed.

Lemma foldl_with_top_fuel_le (cats : cat_map) (fuel fuel' : nat) (l : list jsstring) :
  (fuel ≤ fuel')%nat →
  ∀ acc r, foldl (with_top fuel cats) (Some acc) l = Some r →
           foldl (with_top fuel' cats) (Some acc) l = Some r.
Proof.
  intros Hle. induction l as [|top l IH]; intros acc r; cbn [foldl]; [done|].
  destruct (with_top fuel cats (Some acc) top) as [r'|] eqn:E.
  - rewrite (with_top_fuel_le _ _ _ _ _ _ Hle E). apply IH.
  - by rewrite foldl_with_top_None.
Qed.

Lemma foldl_with_top_returns (cats : cat_map) (fuel : nat) (l : list jsstring) :
  cat_map_ok cats → forest cats → (length cats < fuel)%nat →
  ∀ acc, ∃ r, foldl (with_top fuel cats) (Some acc) l = Some r.
Proof.
  intros Hok Hforest Hfuel. induction l as [|top l IH]; intros acc; cbn [foldl].
  - by exists acc.
  - destruct (with_top_returns cats fuel top acc Hok Hforest Hfuel) as [r' ->]. apply IH.
Qed.

Lemma with_top_spec (cats : cat_map) (fuel : nat) (top : jsstring)
    (acc r : list cat_slug) :
  cat_map_ok cats → all_named cats →
  with_top fuel cats (Some acc) top = Some r →
  ∀ e, e ∈ r ↔
       e ∈ acc
       ∨ ∃ start m names,
           map_get top (nameToNicename cats) = Some start ∧ start ≠ []
           ∧ lineage cats start m names ∧ path_entry cats m names e.
Proof.
  intros Hok Hnamed. cbn [with_top].
  destruct (map_get top (nameToNicename cats)) as [[|x start]|] eqn:E.
  - intros [= ->] e. split; [by left|]. by intros [?|(s & m & names & [= <-] & ? & _)].
  - intros Hrun e. split.
    + intros [?|(m & names & Hlin & Hent)]%(addCategoryWithPath_sound _ Hok _ _ _ _ _ Hrun);
        [by left|right]. by exists (x :: start), m, names.
    + intros [He|(s & m & names & [= <-] & _ & Hlin & Hent)].
      * by eapply addCategoryWithPath_grows.
      * by eapply addCategoryWithPath_complete.
  - intros [= ->] e. split; [by left|]. by intros [?|(s & m & names & [=] & _)].
Qed.

Lemma foldl_with_top_spec (cats : cat_map) (fuel : nat) (l : list jsstring) :
  cat_map_ok cats → all_named cats →
  ∀ acc r,
    foldl (with_top fuel cats) (Some acc) l = Some r →
    ∀ e, e ∈ r ↔
         e ∈ acc
         ∨ ∃ top start m names,
             top ∈ l ∧ map_get top (nameToNicename cats) = Some start ∧ start ≠ []
             ∧ lineage cats start m names ∧ path_entry cats m names e.
Proof.
  intros Hok Hnamed. induction l as [|top l IH]; intros acc r; cbn [foldl].
  - intros [= ->] e. split; [by left|].
    by intros [?|(t & _ & _ & _ & ?%elem_of_nil & _)].
  - destruct (with_top fuel cats (Some acc) top) as [r'|] eqn:E.
    2:{ by rewrite foldl_with_top_None. }
    intros Hrest e. rewrite (IH _ _ Hrest e), (with_top_spec _ _ _ _ _ Hok Hnamed E e).
    split.
    + intros [[?|(s & m & names & ? & ? & ? & ?)]|(t & s & m & names & ? & ?)].
      * by left.
      * right. exists top, s, m, names. split; [by left|done].
      * right. exists t, s, m, names. split; [by right|done].
    + intros [?|(t & s & m & names & [->|Hin]%elem_of_cons & ?)].
      * by left; left.
      * left. right. by exists s, m, names.
      * right. by exists t, s, m, names.
Qed.

(** X23.  The category pages of a forest.  When every category leads to a
    root, [allCategoriesWithSlug] is computed (the recursion ends), and its
    entries are exactly these: for each tab name, the category that
    [nameToNicename] gives for it and every category below that one, with
    its own display name and, as slug, the slugs of the display names on
    the way down to it, joined by hyphens. *)
Theorem allCategoriesWithSlug_exact (wpCategories : list wp_category) :
  let cats := catByNicename wpCategories in
  forest cats →
  ∃ out,
    (∀ fuel, (length cats < fuel)%nat → allCategoriesWithSlug fuel cats = Some out)
    ∧ ∀ e, e ∈ out ↔
           ∃ top start m names,
             top ∈ topLevelCats cats
             ∧ map_get top (nameToNicename cats) = Some start ∧ start ≠ []
             ∧ lineage cats start m names ∧ path_entry cats m names e.
Proof.
  intros cats Hforest.
  pose proof (catByNicename_ok wpCategories) as Hok. fold cats in Hok.
  assert (Hnamed : all_named cats).
  { intros k v. apply catByNicename_named. }
  destruct (foldl_with_top_returns cats (S (length cats)) (topLevelCats cats)
              Hok Hforest ltac:(lia) []) as [out Hout].
  exists out. split.
  - intros fuel Hfuel. rewrite allCategoriesWithSlug_fold.
    eapply foldl_with_top_fuel_le; [|exact Hout]. lia.
  - intros e. rewrite (foldl_with_top_spec _ _ _ Hok Hnamed _ _ Hout e).
    split; [intros [?%elem_of_nil|?]; done|by right].
Qed.

Lemma allCategoriesWithSlug_exact_witness :
  ∃ out,
    allCategoriesWithSlug 4 (catByNicename colliding_wp) = Some out
    ∧ ∀ e, e ∈ out ↔
           ∃ top start m names,
             top ∈ topLevelCats (catByNicename colliding_wp)
             ∧ map_get top (nameToNicename (catByNicename colliding_wp)) = Some start
             ∧ start ≠ []
             ∧ lineage (catByNicename colliding_wp) start m names
             ∧ path_entry (catByNicename colliding_wp) m names e.
Proof.
  destruct (allCategoriesWithSlug_exact colliding_wp) as (out & Hrun & Hspec).
  - intros n Hn. apply list_elem_of_In in Hn. vm_compute in Hn.
    destruct Hn as [<-|[<-|[<-|[]]]].
    + exists 0%nat. eapply rootdist_root; vm_compute; reflexivity.
    + exists 1%nat. eapply rootdist_child; [vm_compute; reflexivity..|].
      eapply rootdist_root; vm_compute; reflexivity.
    + exists 0%nat. eapply rootdist_root; vm_compute; reflexivity.
  - exists out. split; [|exact Hspec]. apply Hrun. vm_compute. lia.
Defined.

(** ** Relative dates *)

(** X24.  The two versions of [formatDateRel] give the same text, and the
    text is never a count of zero: it is empty (no date, or one the engine
    cannot read), [recently] (less than thirty days ago, or in the
    future), a number of months from 1 to 11, [1 year ago], or a number of
    years from 2 on with the plural. *)
Theorem formatDateRel_agree (parseDate : jsstring → option Z) (clock : nat → Z)
    (dateStr : jsstring) (tick : nat) :
  formatDateRel_preview parseDate clock dateStr tick
  = formatDateRel parseDate clock dateStr tick
  ∧ let text := (formatDateRel parseDate clock dateStr tick).1 in
    text = [] ∨ text = js "recently"
    ∨ (∃ k, (1 ≤ k ≤ 11)%Z ∧ text = dec (Z.to_N k) ++ js " months ago")
    ∨ text = js "1 year ago"
    ∨ (∃ y, (2 ≤ y)%Z ∧ text = dec (Z.to_N y) ++ js " years ago").
Proof.
  unfold formatDateRel_preview, formatDateRel.
  destruct dateStr as [|c s]; [split; [done|by left]|].
  destruct (parseDate (c :: s)) as [d|]; [|split; [done|by left]].
  cbv zeta. set (months := ((clock tick - d) / (30 * 24 * 60 * 60 * 1000))%Z).
  cbn [fst].
  destruct (Z.ltb_spec months 1) as [H1|H1]; [split; [done|by right; left]|].
  destruct (Z.ltb_spec months 12) as [H12|H12].
  { split; [done|]. right; right; left. exists months. split; [lia|done]. }
  pose proof (Z.div_mod months 12 ltac:(lia)) as Hdm.
  pose proof (Z.mod_pos_bound months 12 ltac:(lia)) as Hmod.
  destruct (Z.gtb_spec (months / 12) 1) as [Hy|Hy];
    destruct (Z.geb_spec months 24) as [H24|H24]; try lia.
  - split; [done|]. right; right; right; right. exists (months / 12)%Z.
    split; [lia|]. done.
  - split; [done|]. right; right; right; left.
    replace (months / 12)%Z with 1%Z by lia. done.
Qed.

(** ** List of posts of the writer server *)

Section WriterListProperties.

Variable parseDate : jsstring → option Z.
Variable parse : jsstring → front_matter * jsstring.

Lemma add_draft_grows (entries : list listed) (f : draft_file) (e : listed) :
  e ∈ entries → e ∈ add_draft parse entries f.
Proof.
  intros He. unfold add_draft. case_bool_decide; [done|].
  apply elem_of_app. by left.
Qed.

Lemma foldl_add_draft_grows (files : list draft_file) (entries : list listed) (e : listed) :
  e ∈ entries → e ∈ foldl (add_draft parse) entries files.
Proof.
  revert entries. induction files as [|f files IH]; intros entries He; [done|].
  cbn [foldl]. by apply IH, add_draft_grows.
Qed.

Lemma draft_slugs_incl (entries : list listed) (s : jsstring) :
  s ∈ draft_slugs entries → s ∈ listed_slug <$> entries.
Proof.
  unfold draft_slugs. rewrite !list_elem_of_fmap.
  intros (e & -> & [_ He]%list_elem_of_filter). by exists e.
Qed.

Lemma draft_entry_slug (f : draft_file) :
  listed_slug (draft_entry parse f) = slug_of_file (draft_name f)
  ∧ entry_status (draft_entry parse f) = Draft.
Proof. unfold draft_entry. by destruct (draft_raw f). Qed.

Lemma draft_slugs_published (published : list post) :
  draft_slugs ((λ p, {| entry := p; entry_status := Published |}) <$> published) = [].
Proof.
  unfold draft_slugs. induction published as [|p ps IH]; [done|].
  cbn [fmap list_fmap]. by rewrite filter_cons_False by done.
Qed.

(** What the loop over the drafts keeps true of the list. *)
Lemma foldl_add_draft_inv (published : list jsstring) (files : list draft_file) :
  ∀ entries,
    (∀ s, s ∈ published → s ∈ listed_slug <$> entries) →
    NoDup (draft_slugs entries) →
    (∀ s, s ∈ draft_slugs entries → s ∉ published) →
    let r := foldl (add_draft parse) entries files in
    NoDup (draft_slugs r)
    ∧ (∀ s, s ∈ draft_slugs r → s ∉ published)
    ∧ ∀ f, f ∈ files → slug_of_file (draft_name f) ∈ listed_slug <$> r.
Proof.
  induction files as [|f files IH]; intros entries Hpub Hnd Hdr; cbn [foldl].
  { split; [done|]. split; [done|]. by intros f ?%elem_of_nil. }
  destruct (draft_entry_slug f) as [Hslug Hst].
  assert (Hin : slug_of_file (draft_name f) ∈ listed_slug <$> add_draft parse entries f).
  { unfold add_draft. case_bool_decide; [done|].
    rewrite fmap_app. apply elem_of_app. right. cbn. rewrite Hslug. by left. }
  destruct (IH (add_draft parse entries f)) as (H1 & H2 & H3).
  - intros s Hs. apply Hpub in Hs. apply list_elem_of_fmap in Hs as (e & -> & He).
    apply list_elem_of_fmap. exists e. split; [done|]. by apply add_draft_grows.
  - unfold add_draft. case_bool_decide as Hhas; [done|].
    unfold draft_slugs. rewrite filter_app, fmap_app.
    rewrite filter_cons_True by done. rewrite filter_nil. cbn [fmap list_fmap].
    apply NoDup_app. split; [done|]. split; [|apply NoDup_singleton].
    intros s Hs ->%list_elem_of_singleton. apply Hhas.
    rewrite Hslug in Hs. by apply draft_slugs_incl.
  - unfold add_draft. case_bool_decide as Hhas; [done|].
    unfold draft_slugs. rewrite filter_app, fmap_app.
    rewrite filter_cons_True by done. rewrite filter_nil. cbn [fmap list_fmap].
    intros s [Hs| ->%list_elem_of_singleton]%elem_of_app; [by apply Hdr|].
    rewrite Hslug. intros Hp. apply Hhas. by apply Hpub.
  - split; [done|]. split; [done|].
    intros f' [->|Hf']%elem_of_cons; [|by apply H3].
    apply list_elem_of_fmap in Hin as (e & He1 & He2).
    apply list_elem_of_fmap. exists e. split; [done|].
    by apply foldl_add_draft_grows.
Qed.

(** X25.  The list of the writer shows every published post, and of the
    drafts those whose slug is not yet in the list.  Every post of
    [posts.json] is listed as published; no draft of the list has the slug
    of a published post, nor of another draft; the slug of every Markdown
    file of [drafts/] is in the list, under one status or the other; and when all
    dates can be read (a missing date counts as the epoch) the list is
    ordered newest first. *)
Theorem listPosts_merge (published : list post) (drafts : list draft_file) :
  let shown := listPosts parseDate parse published drafts in
  (∀ p, p ∈ published → {| entry := p; entry_status := Published |} ∈ shown)
  ∧ NoDup (draft_slugs shown)
  ∧ (∀ s, s ∈ draft_slugs shown → s ∉ post_slug <$> published)
  ∧ (∀ f, f ∈ drafts → endsWith (draft_name f) (js ".md") = true →
          slug_of_file (draft_name f) ∈ listed_slug <$> shown)
  ∧ ((∀ e, e ∈ shown → is_Some (listed_time parseDate e)) →
     StronglySorted
       (λ a b, ∃ ta tb, listed_time parseDate a = Some ta
                        ∧ listed_time parseDate b = Some tb ∧ (tb ≤ ta)%Z)
       shown).
Proof.
  intros shown. subst shown. unfold listPosts.
  set (l0 := (λ p, {| entry := p; entry_status := Published |}) <$> published).
  set (files := filter _ drafts).
  set (l := foldl (add_draft parse) l0 files).
  assert (Hperm : stable_sort (listed_newer parseDate) l ≡ₚ l)
    by apply stable_sort_Permutation.
  assert (Hd0 : draft_slugs l0 = []) by apply draft_slugs_published.
  destruct (foldl_add_draft_inv (post_slug <$> published) files l0) as (H1 & H2 & H3).
  { intros s (p & -> & Hp)%list_elem_of_fmap. apply list_elem_of_fmap.
    exists {| entry := p; entry_status := Published |}. split; [done|].
    apply list_elem_of_fmap. by exists p. }
  { rewrite Hd0. constructor. }
  { rewrite Hd0. by intros s ?%elem_of_nil. }
  fold l in H1, H2, H3.
  assert (Hds : draft_slugs (stable_sort (listed_newer parseDate) l) ≡ₚ draft_slugs l).
  { unfold draft_slugs. by rewrite Hperm. }
  split; [|split; [|split; [|split]]].
  - intros p Hp. apply elem_of_stable_sort. apply foldl_add_draft_grows.
    apply list_elem_of_fmap. by exists p.
  - by rewrite Hds.
  - intros s. rewrite Hds. apply H2.
  - intros f Hf Hmd. rewrite Hperm. apply H3.
    apply list_elem_of_filter. by split.
  - intros Hvalid.
    set (key := λ e : listed, default 0%Z (listed_time parseDate e)).
    assert (Hl : ∀ e, e ∈ l → listed_time parseDate e = Some (key e)).
    { intros e He. apply elem_of_stable_sort with (before := listed_newer parseDate) in He.
      destruct (Hvalid e He) as [t Ht]. unfold key. by rewrite Ht. }
    rewrite (stable_sort_ext (listed_newer parseDate) (λ a b, (key b <? key a)%Z)).
    2:{ intros x y Hx Hy. unfold listed_newer. by rewrite (Hl x Hx), (Hl y Hy). }
    assert (Hs := stable_sort_StronglySorted key l).
    assert (Hin : ∀ p, p ∈ stable_sort (λ a b, (key b <? key a)%Z) l → p ∈ l).
    { intros p. by rewrite elem_of_stable_sort. }
    revert Hs Hin. generalize (stable_sort (λ a b, (key b <? key a)%Z) l). intros s Hs.
    induction Hs as [|a s Hs IH Ha]; intros Hin; constructor.
    + apply IH. intros p Hp. apply Hin. by right.
    + apply Forall_forall. intros b Hb. rewrite Forall_forall in Ha.
      exists (key a), (key b). split; [apply Hl, Hin; by left|].
      split; [apply Hl, Hin; by right|]. by apply Ha.
Qed.

End WriterListProperties.

Lemma listPosts_merge_witness :
  draft_slugs (listPosts parse_iso_date parseFrontmatter [old_post] sample_drafts)
  = [js "new"]
  ∧ (js "hello" ∉ draft_slugs (listPosts parse_iso_date parseFrontmatter [old_post] sample_drafts))
  ∧ StronglySorted
      (λ a b, ∃ ta tb, listed_time parse_iso_date a = Some ta
                       ∧ listed_time parse_iso_date b = Some tb ∧ (tb ≤ ta)%Z)
      (listPosts parse_iso_date parseFrontmatter [old_post] sample_drafts).
Proof.
  destruct (listPosts_merge parse_iso_date parseFrontmatter [old_post] sample_drafts)
    as (_ & _ & Hno & _ & Hsorted).
  split; [vm_compute; reflexivity|]. split.
  - intros Hin. apply (Hno _ Hin). by_evaluation.
  - apply Hsorted. intros e He. vm_compute in He.
    apply list_elem_of_In in He. destruct He as [<-|[<-|[]]]; vm_compute; eauto.
Defined.
